(** * The implicit linear-update subsystem of aither (src/linearSolver.cpp)

    A shallow embedding of [linearSolver::InitializeMatrixUpdate],
    [linearSolver::InvertDiagonal], the [lusgs] constructor,
    [lusgs::LUSGS_Forward], [lusgs::LUSGS_Backward], [lusgs::Relax],
    [dplur::DPLUR] and [dplur::Relax].

    Conventions of the embedding.
    - C++ [int] values are [Z]; signed overflow is undefined behaviour in
      C++ and is not modelled.
    - C++ [double] arithmetic and the [varArray] vector type are taken as
      an interface ([Arithmetic]) without any algebraic law: every theorem
      that does not list a law as a premise holds for IEEE arithmetic as for
      exact arithmetic.
    - A [blkMultiArray3d<varArray>] is a finite map from cell index to the
      vector stored there; the keys of the map are the cells of the array
      (interior and ghost).
    - Indexing a [std::vector] past its end is undefined behaviour in C++,
      and what the containers do with a cell they do not have is written
      neither in src/ nor in the specification.  The embedding stops at such
      an access with the outcome [Fail OutOfBounds]: it marks the point where
      the source no longer says what the program does.  What the theorems
      say a call does, they say of calls that return ([Ok]); no theorem
      takes this outcome for what the program does at such an access.
    - A failed [MSG_ASSERT] and the inversion of a singular diagonal block
      are the failures the program itself has.
    - [MSG_ASSERT] (macros.hpp is not under src/) is taken as a check
      that is compiled in.
    - A [for] loop is a monadic fold over the integer range it runs
      through.
    - The ghost exchange is a call into the transport layer; the drivers
      thread the state of that layer and keep a log of the exchanges and
      sweeps they do, so that what a call did can be stated. *)

From Stdlib Require Import Floats.SpecFloat.
From stdpp Require Import gmap list strings sorting.

Local Open Scope Z_scope.

(** ** Failure and the [result] monad *)

Inductive failure : Type :=
  | AssertionFailure (msg : string)
  | SingularDiagonal (ii jj kk : Z)
  | OutOfBounds.

Inductive result (A : Type) : Type :=
  | Ok (a : A)
  | Fail (f : failure).
Arguments Ok {A} a.
Arguments Fail {A} f.

#[global] Instance result_ret : MRet result := λ A a, Ok a.
#[global] Instance result_bind : MBind result := λ A B k r,
  match r with
  | Ok a => k a
  | Fail f => Fail f
  end.
#[global] Instance result_fmap : FMap result := λ A B g r,
  match r with
  | Ok a => Ok (g a)
  | Fail f => Fail f
  end.

(** [MSG_ASSERT(cond, msg)] *)
Definition MSG_ASSERT (cond : bool) (msg : string) : result unit :=
  if cond then Ok tt else Fail (AssertionFailure msg).

(** Left-to-right monadic fold: the body of a loop run over the values of
    its index. *)
Fixpoint foldM {S I : Type} (body : I → S → result S) (idx : list I) (s : S)
  : result S :=
  match idx with
  | [] => Ok s
  | i :: idx' => s' ← body i s; foldM body idx' s'
  end.

(** [for (auto i = lo; i < hi; ++i) body] *)
Definition for_up {S : Type} (lo hi : Z) (body : Z → S → result S) (s : S)
  : result S :=
  foldM body (seqZ lo (hi - lo)) s.

(** [for (auto i = hi; i >= lo; --i) body] *)
Definition for_down {S : Type} (hi lo : Z) (body : Z → S → result S) (s : S)
  : result S :=
  foldM body (reverse (seqZ lo (hi + 1 - lo))) s.

(** [v[n]] on a [std::vector], for an index within the vector.  The access
    is unchecked in C++; past the end the embedding stops with
    [OutOfBounds], which stands for behaviour the source leaves undefined. *)
Definition vec_at {A : Type} (v : list A) (n : Z) : result A :=
  if decide (0 ≤ n) then
    match v !! Z.to_nat n with
    | Some a => Ok a
    | None => Fail OutOfBounds
    end
  else Fail OutOfBounds.

(** ** Cell indices *)

(** [vector3d<int>] *)
Abbreviation vector3d := (Z * Z * Z)%type.

Definition X (c : vector3d) : Z := c.1.1.
Definition Y (c : vector3d) : Z := c.1.2.
Definition Z_ (c : vector3d) : Z := c.2.

(** The cells [(i, j, k)] with [i] in [[loI, hiI)], [j] in [[loJ, hiJ)] and
    [k] in [[loK, hiK)], in the order in which the loop nest
    [for kk .. for jj .. for ii ..] meets them. *)
Definition cellsKJI (loI hiI loJ hiJ loK hiK : Z) : list vector3d :=
  kk ← seqZ loK (hiK - loK);
  jj ← seqZ loJ (hiJ - loJ);
  ii ← seqZ loI (hiI - loI);
  [(ii, jj, kk)].

(** The cells of a box of indices *)
Definition in_box (loI hiI loJ hiJ loK hiK : Z) (c : vector3d) : Prop :=
  (loI ≤ X c < hiI) ∧ (loJ ≤ Y c < hiJ) ∧ (loK ≤ Z_ c < hiK).

#[global] Instance in_box_dec loI hiI loJ hiJ loK hiK c :
  Decision (in_box loI hiI loJ hiJ loK hiK c) :=
  ltac:(unfold in_box; apply _).

(** The hyperplane a cell lies on: [s = i + j + k] *)
Definition plane (c : vector3d) : Z := X c + Y c + Z_ c.

(** The order of the loop nest over k, j, i *)
Definition kji_lt (c d : vector3d) : Prop :=
  Z_ c < Z_ d ∨ (Z_ c = Z_ d ∧ (Y c < Y d ∨ (Y c = Y d ∧ X c < X d))).

(** Hyperplane order: by [s] first, by the loop nest within a hyperplane *)
Definition hyperplane_lt (c d : vector3d) : Prop :=
  plane c < plane d ∨ (plane c = plane d ∧ kji_lt c d).

(** What makes [t] a hyperplane ordering of the block of extent
    [(NI, NJ, NK)]: a permutation of the interior indices (each exactly
    once, [NI * NJ * NK] of them), with [s] non-decreasing along the
    sequence, every prefix closed under interior cells of smaller [s], and
    the cells of a hyperplane in the order of the loop nest. *)
Definition hyperplane_ordering (NI NJ NK : Z) (t : list vector3d) : Prop :=
  NoDup t ∧
  (∀ c, c ∈ t ↔ in_box 0 NI 0 NJ 0 NK c) ∧
  Z.of_nat (length t) = Z.max 0 NI * Z.max 0 NJ * Z.max 0 NK ∧
  (∀ (m n : nat) c d,
     (m ≤ n)%nat → t !! m = Some c → t !! n = Some d → plane c ≤ plane d) ∧
  (∀ (n : nat) c d,
     c ∈ take n t → in_box 0 NI 0 NJ 0 NK d → plane d < plane c →
     d ∈ take n t) ∧
  StronglySorted hyperplane_lt t.

(** Writing, cell after cell, the value [f c] where there is one *)
Definition write_cells {V : Type} (f : vector3d → option V)
  (cells : list vector3d) (x : gmap vector3d V) : gmap vector3d V :=
  fold_left (λ x c, from_option (λ v, <[c := v]> x) x (f c)) cells x.

(** ** The external numeric interface *)

Class Arithmetic : Type := {
  (** [double] with the literals [0.0] and [1.0], [+], [/], unary [-] and
      [>] *)
  double : Type;
  d_lit0 : double;
  d_lit1 : double;
  d_add : double → double → double;
  d_div : double → double → double;
  d_neg : double → double;
  d_gt : double → double → bool;
  (** [varArray]: [varArray(numEqns, numSpecies, val)], the element-wise
      [+], [-], [*], [double * varArray] and [Sum()] *)
  varArray : Type;
  varArray_ctor : Z → Z → double → varArray;
  va_add : varArray → varArray → varArray;
  va_sub : varArray → varArray → varArray;
  va_mul : varArray → varArray → varArray;
  va_scale : double → varArray → varArray;
  va_Sum : varArray → double;
  (** the value of [SpectralRadius(i, j, k)] and its [Max()] *)
  uncoupledScalar : Type;
  us_Max : uncoupledScalar → double;
  (** one LxL block of a [matMultiArray3d] and what the container does
      to it *)
  squareMatrix : Type;
  sm_MultiplyOnDiagonal : squareMatrix → double → squareMatrix;
  sm_AddOnDiagonal : squareMatrix → double → squareMatrix;
  (** Modelled from the spec: the inverse of a block, none for a singular
      block (section 4.2, step 5; matrix.hpp is not under src/). *)
  sm_Inverse : squareMatrix → option squareMatrix;
  sm_ArrayMult : squareMatrix → varArray → varArray;
}.

Section Model.

Context `{Arith : Arithmetic}.

(** [physics]: the physics models, only passed through *)
Context {physics : Type}.

(** ** Containers *)

Abbreviation blkMultiArray3d := (gmap vector3d varArray).
Abbreviation matMultiArray3d := (gmap vector3d squareMatrix).

(** Modelled from the spec: the constructor
    [blkMultiArray3d(numI, numJ, numK, numGhosts, numEqns, numSpecies, val)]
    of blkMultiArray3d.hpp (not under src/): an array indexed like the block,
    ghost layers included, every cell holding [val] in each component. *)
Definition blkMultiArray3d_ctor (ni nj nk ng : Z) (neq ns : Z) (val : double)
  : blkMultiArray3d :=
  list_to_map
    ((λ c, (c, varArray_ctor neq ns val)) <$>
     cellsKJI (- ng) (ni + ng) (- ng) (nj + ng) (- ng) (nk + ng)).

(** [x.GetCopy(ii, jj, kk)] and the read access [x(ii, jj, kk)], at a cell
    of the array.  What the container does at a cell it does not have is
    not in src/ (multiArray3d.hpp) and not in the specification: the
    embedding stops there with [OutOfBounds]. *)
Definition GetCopy {A} (x : gmap vector3d A) (ii jj kk : Z) : result A :=
  match x !! (ii, jj, kk) with
  | Some v => Ok v
  | None => Fail OutOfBounds
  end.

(** [x.InsertBlock(ii, jj, kk, v)], at a cell of the array; at any other
    cell the embedding stops with [OutOfBounds], as for [GetCopy]. *)
Definition InsertBlock {A} (x : gmap vector3d A) (ii jj kk : Z) (v : A)
  : result (gmap vector3d A) :=
  match x !! (ii, jj, kk) with
  | Some _ => Ok (<[(ii, jj, kk) := v]> x)
  | None => Fail OutOfBounds
  end.

(** [aInv.ArrayMult(ii, jj, kk, v)] *)
Definition ArrayMult (aInv : matMultiArray3d) (ii jj kk : Z) (v : varArray)
  : result varArray :=
  a ← GetCopy aInv ii jj kk; Ok (sm_ArrayMult a v).

(** [mainDiagonal.MultiplyOnDiagonal(ii, jj, kk, val)] *)
Definition MultiplyOnDiagonal (m : matMultiArray3d) (ii jj kk : Z)
  (val : double) : result matMultiArray3d :=
  a ← GetCopy m ii jj kk; InsertBlock m ii jj kk (sm_MultiplyOnDiagonal a val).

(** [mainDiagonal.AddOnDiagonal(ii, jj, kk, val)] *)
Definition AddOnDiagonal (m : matMultiArray3d) (ii jj kk : Z)
  (val : double) : result matMultiArray3d :=
  a ← GetCopy m ii jj kk; InsertBlock m ii jj kk (sm_AddOnDiagonal a val).

(** Modelled from the spec: [mainDiagonal.Inverse(ii, jj, kk)] of
    matMultiArray3d.hpp (not under src/): the block of the cell is replaced
    by its inverse; a singular block is fatal (sections 4.2, 4.9 and 7). *)
Definition Inverse (m : matMultiArray3d) (ii jj kk : Z)
  : result matMultiArray3d :=
  a ← GetCopy m ii jj kk;
  match sm_Inverse a with
  | Some inverse => InsertBlock m ii jj kk inverse
  | None => Fail (SingularDiagonal ii jj kk)
  end.

(** ** [input] and [procBlock] *)

Record input : Type := {
  NumEquations : Z;
  NumSpecies : Z;
  Theta : double;
  DualTimeCFL : double;
  MatrixRelaxation : double;
  MatrixRequiresInitialization : bool;
}.

Record procBlock : Type := {
  NumI : Z;
  NumJ : Z;
  NumK : Z;
  NumGhosts : Z;
  Residual : Z → Z → Z → varArray;
  SolDeltaNm1 : Z → Z → Z → input → varArray;
  SolDeltaMmN : Z → Z → Z → input → physics → varArray;
  SolDeltaNCoeff : Z → Z → Z → input → double;
  SpectralRadius : Z → Z → Z → uncoupledScalar;
  ImplicitLower : Z → Z → Z → blkMultiArray3d → physics → input → varArray;
  ImplicitUpper : Z → Z → Z → blkMultiArray3d → physics → input → varArray;
}.

(** Modelled from the spec: the index range and the number of the physical
    cells of a block (procBlock.hpp is not under src/): interior cells are
    numbered from zero in each direction, ghost layers lie outside, and
    there are NI * NJ * NK interior cells. *)
Definition StartI (blk : procBlock) : Z := 0.
Definition StartJ (blk : procBlock) : Z := 0.
Definition StartK (blk : procBlock) : Z := 0.
Definition EndI (blk : procBlock) : Z := NumI blk.
Definition EndJ (blk : procBlock) : Z := NumJ blk.
Definition EndK (blk : procBlock) : Z := NumK blk.
Definition NumCells (blk : procBlock) : Z := NumI blk * NumJ blk * NumK blk.

(** ** [linearSolver::InitializeMatrixUpdate] *)

Definition InitializeMatrixUpdate (blk : procBlock) (inp : input)
  (phys : physics) (aInv : matMultiArray3d) : result blkMultiArray3d :=
  let x := blkMultiArray3d_ctor (NumI blk) (NumJ blk) (NumK blk)
             (NumGhosts blk) (NumEquations inp) (NumSpecies inp) d_lit0 in
  if MatrixRequiresInitialization inp then
    let thetaInv := d_div d_lit1 (Theta inp) in
    for_up (StartK blk) (EndK blk) (λ kk,
      for_up (StartJ blk) (EndJ blk) (λ jj,
        for_up (StartI blk) (EndI blk) (λ ii x,
          v ← ArrayMult aInv ii jj kk
                 (va_sub
                    (va_add (va_scale (d_neg thetaInv) (Residual blk ii jj kk))
                            (SolDeltaNm1 blk ii jj kk inp))
                    (SolDeltaMmN blk ii jj kk inp phys));
          InsertBlock x ii jj kk v))) x
  else Ok x.

(** ** [linearSolver::InvertDiagonal] *)

Definition InvertDiagonal (blk : procBlock) (inp : input)
  (mainDiagonal : matMultiArray3d) : result matMultiArray3d :=
  for_up (StartK blk) (EndK blk) (λ kk,
    for_up (StartJ blk) (EndJ blk) (λ jj,
      for_up (StartI blk) (EndI blk) (λ ii mainDiagonal,
        let diagVolTime := SolDeltaNCoeff blk ii jj kk inp in
        let diagVolTime :=
          if d_gt (DualTimeCFL inp) d_lit0
          then d_add diagVolTime
                 (d_div (us_Max (SpectralRadius blk ii jj kk)) (DualTimeCFL inp))
          else diagVolTime in
        mainDiagonal ← MultiplyOnDiagonal mainDiagonal ii jj kk
                          (MatrixRelaxation inp);
        mainDiagonal ← AddOnDiagonal mainDiagonal ii jj kk diagVolTime;
        Inverse mainDiagonal ii jj kk))) mainDiagonal.

(** ** Hyperplane ordering and the [lusgs] constructor *)

(** Modelled from the spec: [HyperplaneReorder(imax, jmax, kmax)] of
    utility.cpp (not under src/): the interior cell indices sorted by
    [s = i + j + k] ascending.  The secondary order, which the spec leaves
    open, is the order of the loop nest over k, j, i; it is the one drawn in
    the diagram of the comment above [lusgs::LUSGS_Forward]. *)
Definition HyperplaneReorder (imax jmax kmax : Z) : list vector3d :=
  pp ← seqZ 0 (imax + jmax + kmax - 2);
  filter (λ c, plane c = pp) (cellsKJI 0 imax 0 jmax 0 kmax).

(** [v[n] = a] on a [std::vector] *)
Definition vec_set {A : Type} (v : list A) (n : Z) (a : A) : result (list A) :=
  _ ← vec_at v n; Ok (<[Z.to_nat n := a]> v).

(** Modelled from the spec: [gridLevel] (gridLevel.hpp is not under src/)
    aggregates the blocks, their main diagonals and the connection table. *)
Record gridLevel {connection : Type} : Type := {
  blocks : list procBlock;
  diagonal : list matMultiArray3d;
  Connections : list connection;
}.
Arguments gridLevel : clear implicits.

Section Level.
Context {connection : Type}.
Implicit Type level : gridLevel connection.

Definition NumBlocks level : Z := Z.of_nat (length (blocks level)).
Definition Block level (bb : Z) : result procBlock := vec_at (blocks level) bb.
Definition Diagonal level (bb : Z) : result matMultiArray3d :=
  vec_at (diagonal level) bb.

End Level.

(** The [lusgs] solver object: the type string of the [linearSolver] base
    and the per-block reorder tables. *)
Record lusgs : Type := {
  solverType_ : string;
  reorder_ : list (list vector3d);
}.

(** [lusgs::lusgs(type, level)] *)
Definition lusgs_ctor {connection} (type : string)
  (level : gridLevel connection) : result lusgs :=
  let reorder_ := replicate (Z.to_nat (NumBlocks level)) [] in
  reorder_ ← for_up 0 (NumBlocks level) (λ bb reorder_,
    blk ← Block level bb;
    vec_set reorder_ bb
      (HyperplaneReorder (NumI blk) (NumJ blk) (NumK blk))) reorder_;
  Ok {| solverType_ := type; reorder_ := reorder_ |}.

(** ** The sweeps *)

(** The right-hand side [b] that all three sweeps form at a cell:
    [-thetaInv * blk.Residual(ii, jj, kk) + solDeltaNm1 - solDeltaMmN] *)
Definition rhs_b (blk : procBlock) (phys : physics) (inp : input)
  (thetaInv : double) (ii jj kk : Z) : varArray :=
  let solDeltaNm1 := SolDeltaNm1 blk ii jj kk inp in
  let solDeltaMmN := SolDeltaMmN blk ii jj kk inp phys in
  va_sub (va_add (va_scale (d_neg thetaInv) (Residual blk ii jj kk))
                 solDeltaNm1)
         solDeltaMmN.

(** [lusgs::LUSGS_Forward] *)
Definition LUSGS_Forward (blk : procBlock) (reorder : list vector3d)
  (phys : physics) (inp : input) (aInv : matMultiArray3d) (sweep : Z)
  (x : blkMultiArray3d) : result blkMultiArray3d :=
  let thetaInv := d_div d_lit1 (Theta inp) in
  for_up 0 (NumCells blk) (λ nn x,
    c ← vec_at reorder nn;
    let ii := X c in
    let jj := Y c in
    let kk := Z_ c in
    let offDiagonal := ImplicitLower blk ii jj kk x phys inp in
    let offDiagonal :=
      if bool_decide (sweep > 0) || MatrixRequiresInitialization inp
      then va_sub offDiagonal (ImplicitUpper blk ii jj kk x phys inp)
      else offDiagonal in
    let b := rhs_b blk phys inp thetaInv ii jj kk in
    v ← ArrayMult aInv ii jj kk (va_add b offDiagonal);
    InsertBlock x ii jj kk v) x.

(** [lusgs::LUSGS_Backward]; the loop carries [x] and [l2Error]. *)
Definition LUSGS_Backward (blk : procBlock) (reorder : list vector3d)
  (phys : physics) (inp : input) (aInv : matMultiArray3d) (sweep : Z)
  (x : blkMultiArray3d) : result (blkMultiArray3d * double) :=
  let thetaInv := d_div d_lit1 (Theta inp) in
  let l2Error := varArray_ctor (NumEquations inp) (NumSpecies inp) d_lit0 in
  '(x, l2Error) ← for_down (NumCells blk - 1) 0 (λ nn st,
    c ← vec_at reorder nn;
    let '(x, l2Error) := st in
    let ii := X c in
    let jj := Y c in
    let kk := Z_ c in
    let U := ImplicitUpper blk ii jj kk x phys inp in
    xold ← GetCopy x ii jj kk;
    x ← (if bool_decide (sweep > 0) || MatrixRequiresInitialization inp
         then
           let L := ImplicitLower blk ii jj kk x phys inp in
           let b := rhs_b blk phys inp thetaInv ii jj kk in
           v ← ArrayMult aInv ii jj kk (va_sub (va_add b L) U);
           InsertBlock x ii jj kk v
         else
           v ← ArrayMult aInv ii jj kk U;
           InsertBlock x ii jj kk (va_sub xold v));
    xnew ← GetCopy x ii jj kk;
    let error := va_sub xnew xold in
    Ok (x, va_add l2Error (va_mul error error))) (x, l2Error);
  Ok (x, va_Sum l2Error).

(** The body of the loop nest of [dplur::DPLUR] at one cell; [xold] is the
    copy of [x] taken on entry. *)
Definition DPLUR_cell (blk : procBlock) (phys : physics) (inp : input)
  (aInv : matMultiArray3d) (thetaInv : double) (xold : blkMultiArray3d)
  (ii jj kk : Z) (st : blkMultiArray3d * varArray)
  : result (blkMultiArray3d * varArray) :=
  let '(x, l2Error) := st in
  let offDiagonal := ImplicitLower blk ii jj kk xold phys inp in
  let offDiagonal :=
    va_sub offDiagonal (ImplicitUpper blk ii jj kk xold phys inp) in
  let b := rhs_b blk phys inp thetaInv ii jj kk in
  v ← ArrayMult aInv ii jj kk (va_add b offDiagonal);
  x ← InsertBlock x ii jj kk v;
  xnew ← GetCopy x ii jj kk;
  xo ← GetCopy xold ii jj kk;
  let error := va_sub xnew xo in
  Ok (x, va_add l2Error (va_mul error error)).

(** [dplur::DPLUR] *)
Definition DPLUR (blk : procBlock) (phys : physics) (inp : input)
  (aInv : matMultiArray3d) (x : blkMultiArray3d)
  : result (blkMultiArray3d * double) :=
  let thetaInv := d_div d_lit1 (Theta inp) in
  let l2Error := varArray_ctor (NumEquations inp) (NumSpecies inp) d_lit0 in
  let xold := x in
  '(x, l2Error) ← for_up (StartK blk) (EndK blk) (λ kk,
    for_up (StartJ blk) (EndJ blk) (λ jj,
      for_up (StartI blk) (EndI blk) (λ ii,
        DPLUR_cell blk phys inp aInv thetaInv xold ii jj kk))) (x, l2Error);
  Ok (x, va_Sum l2Error).

(** [dplur::DPLUR] with the interior cells visited in the order [cells]
    instead of the order of the loop nest: the sweep whose iteration order
    has been permuted. *)
Definition DPLUR_in_order (cells : list vector3d) (blk : procBlock)
  (phys : physics) (inp : input) (aInv : matMultiArray3d)
  (x : blkMultiArray3d) : result (blkMultiArray3d * double) :=
  let thetaInv := d_div d_lit1 (Theta inp) in
  let l2Error := varArray_ctor (NumEquations inp) (NumSpecies inp) d_lit0 in
  let xold := x in
  '(x, l2Error) ← foldM (λ c,
      DPLUR_cell blk phys inp aInv thetaInv xold (X c) (Y c) (Z_ c))
    cells (x, l2Error);
  Ok (x, va_Sum l2Error).

(** ** The relaxation drivers *)

(** What a driver does besides computing, in the order it does it: a ghost
    exchange with the ghost count it is given, or a sweep over one block. *)
Inductive event : Type :=
  | SwapEv (numG : Z)
  | ForwardEv (bb sweep : Z)
  | BackwardEv (bb sweep : Z)
  | DPLUREv (bb : Z).

(** The ghost exchange [SwapImplicitUpdate(du, connections, rank, numG)] is a
    collective of the transport layer: what it writes into [du] depends on
    the other ranks, here the [world], which it may change. *)
Class Transport : Type := {
  connection : Type;
  world : Type;
  SwapImplicitUpdate :
    list blkMultiArray3d → list connection → Z → Z → world →
    list blkMultiArray3d * world;
}.

Context `{Net : Transport}.

(** The state a driver runs in: the world behind the exchanges and the log
    of the exchanges and sweeps done so far. *)
Record machine : Type := {
  theWorld : world;
  trace : list event;
}.

Definition log (e : event) (m : machine) : machine :=
  {| theWorld := theWorld m; trace := trace m ++ [e] |}.

Definition swap (du : list blkMultiArray3d) (conns : list connection)
  (rank numG : Z) (m : machine) : list blkMultiArray3d * machine :=
  let '(du, w) := SwapImplicitUpdate du conns rank numG (theWorld m) in
  (du, log (SwapEv numG) {| theWorld := w; trace := trace m |}).

(** [lusgs::Relax] *)
Definition lusgs_Relax (self : lusgs) (level : gridLevel connection)
  (phys : physics) (inp : input) (rank sweeps : Z)
  (du : list blkMultiArray3d) (m : machine)
  : result (double * list blkMultiArray3d * machine) :=
  _ ← MSG_ASSERT (bool_decide (NumBlocks level = Z.of_nat (length du)))
        "number of blocks mismatch";
  _ ← MSG_ASSERT (bool_decide (length du = length (reorder_ self)))
        "reorder block size mismatch";
  let matrixError := d_lit0 in
  blk0 ← Block level 0;
  let numG := NumGhosts blk0 in
  for_up 0 sweeps (λ ii '(matrixError, du, m),
    let '(du, m) := swap du (Connections level) rank numG m in
    '(du, m) ← for_up 0 (NumBlocks level) (λ bb '(du, m),
      blk ← Block level bb;
      reorder ← vec_at (reorder_ self) bb;
      aInv ← Diagonal level bb;
      x ← vec_at du bb;
      x ← LUSGS_Forward blk reorder phys inp aInv ii x;
      du ← vec_set du bb x;
      Ok (du, log (ForwardEv bb ii) m)) (du, m);
    let '(du, m) := swap du (Connections level) rank numG m in
    for_up 0 (NumBlocks level) (λ bb '(matrixError, du, m),
      blk ← Block level bb;
      reorder ← vec_at (reorder_ self) bb;
      aInv ← Diagonal level bb;
      x ← vec_at du bb;
      '(x, err) ← LUSGS_Backward blk reorder phys inp aInv ii x;
      du ← vec_set du bb x;
      Ok (d_add matrixError err, du, log (BackwardEv bb ii) m))
      (matrixError, du, m))
    (matrixError, du, m).

(** [dplur::Relax]; the member function does not use its object, and the
    value of the call of [DPLUR] is not used. *)
Definition dplur_Relax (level : gridLevel connection)
  (phys : physics) (inp : input) (rank sweeps : Z)
  (du : list blkMultiArray3d) (m : machine)
  : result (double * list blkMultiArray3d * machine) :=
  _ ← MSG_ASSERT (bool_decide (NumBlocks level = Z.of_nat (length du)))
        "number of blocks mismatch";
  let matrixError := d_lit0 in
  blk0 ← Block level 0;
  let numG := NumGhosts blk0 in
  '(du, m) ← for_up 0 sweeps (λ ii '(du, m),
    let '(du, m) := swap du (Connections level) rank numG m in
    for_up 0 (NumBlocks level) (λ bb '(du, m),
      blk ← Block level bb;
      aInv ← Diagonal level bb;
      x ← vec_at du bb;
      '(x, _) ← DPLUR blk phys inp aInv x;
      du ← vec_set du bb x;
      Ok (du, log (DPLUREv bb) m)) (du, m)) (du, m);
  Ok (matrixError, du, m).

End Model.

Arguments gridLevel {Arith physics} connection.

(** ** Cells of a block and of its arrays *)

Section Cells.
Context `{Arith : Arithmetic} {physics : Type}.
Implicit Type blk : @procBlock Arith physics.

(** The interior (physical) cells of a block *)
Definition interior blk (c : vector3d) : Prop :=
  in_box (StartI blk) (EndI blk) (StartJ blk) (EndJ blk)
         (StartK blk) (EndK blk) c.

(** The interior cells in the order of the loop nest over k, j, i *)
Definition interiorCells blk : list vector3d :=
  cellsKJI (StartI blk) (EndI blk) (StartJ blk) (EndJ blk)
           (StartK blk) (EndK blk).

(** The cells of an array that is indexed like the block, ghost layers
    included *)
Definition with_ghosts blk (c : vector3d) : Prop :=
  in_box (- NumGhosts blk) (NumI blk + NumGhosts blk)
         (- NumGhosts blk) (NumJ blk + NumGhosts blk)
         (- NumGhosts blk) (NumK blk + NumGhosts blk) c.

(** An array has every interior cell of the block. *)
Definition covers {A} (m : gmap vector3d A) blk : Prop :=
  ∀ c, interior blk c → is_Some (m !! c).

#[global] Instance interior_dec blk c : Decision (interior blk c) :=
  ltac:(unfold interior; apply _).

(** Every cell of the list is a cell of both arrays. *)
Definition in_range {A B : Type} (aInv : gmap vector3d A) (x : gmap vector3d B)
  (cells : list vector3d) : Prop :=
  ∀ c, c ∈ cells → is_Some (aInv !! c) ∧ is_Some (x !! c).

(** The input with another dual-time CFL number *)
Definition with_DualTimeCFL (inp : input) (cfl : double) : input :=
  {| NumEquations := NumEquations inp; NumSpecies := NumSpecies inp;
     Theta := Theta inp; DualTimeCFL := cfl;
     MatrixRelaxation := MatrixRelaxation inp;
     MatrixRequiresInitialization := MatrixRequiresInitialization inp |}.

(** The block with another matrix-free upper action *)
Definition with_ImplicitUpper blk
  (upper : Z → Z → Z → gmap vector3d varArray → physics → input → varArray)
  : procBlock :=
  {| NumI := NumI blk; NumJ := NumJ blk; NumK := NumK blk;
     NumGhosts := NumGhosts blk; Residual := Residual blk;
     SolDeltaNm1 := SolDeltaNm1 blk; SolDeltaMmN := SolDeltaMmN blk;
     SolDeltaNCoeff := SolDeltaNCoeff blk;
     SpectralRadius := SpectralRadius blk;
     ImplicitLower := ImplicitLower blk; ImplicitUpper := upper |}.

(** ** The sweeps as the specification words them *)

(** Section 4.4, steps 1 to 4 at the cell [c]:
    off is ImplicitLower; if s > 0 or the initializer ran, ImplicitUpper is
    subtracted; b is -1/theta R(c) + dNm1(c) - dMmN(c); the cell receives
    A^-1(c) (b + off). *)
Definition spec_forward_cell blk (phys : physics) (inp : input)
  (aInv : gmap vector3d squareMatrix) (s : Z)
  (du : gmap vector3d varArray) (c : vector3d) : gmap vector3d varArray :=
  let off := ImplicitLower blk (X c) (Y c) (Z_ c) du phys inp in
  let off :=
    if bool_decide (s > 0) || MatrixRequiresInitialization inp
    then va_sub off (ImplicitUpper blk (X c) (Y c) (Z_ c) du phys inp)
    else off in
  let b := rhs_b blk phys inp (d_div d_lit1 (Theta inp)) (X c) (Y c) (Z_ c) in
  match aInv !! c with
  | Some a => <[c := sm_ArrayMult a (va_add b off)]> du
  | None => du
  end.

(** Section 4.4: the cells of the reorder table, in its order *)
Definition spec_LUSGS_Forward blk (phys : physics) (inp : input)
  (aInv : gmap vector3d squareMatrix) (s : Z) (reorder : list vector3d)
  (du : gmap vector3d varArray) : gmap vector3d varArray :=
  fold_left (spec_forward_cell blk phys inp aInv s) reorder du.

(** Section 4.5 at the cell [c]: the new value of the cell, from the old
    one *)
Definition spec_backward_value blk (phys : physics) (inp : input)
  (a : squareMatrix) (s : Z) (du : gmap vector3d varArray) (c : vector3d)
  (du_old : varArray) : varArray :=
  let U := ImplicitUpper blk (X c) (Y c) (Z_ c) du phys inp in
  if bool_decide (s > 0) || MatrixRequiresInitialization inp then
    let L := ImplicitLower blk (X c) (Y c) (Z_ c) du phys inp in
    let b := rhs_b blk phys inp (d_div d_lit1 (Theta inp)) (X c) (Y c) (Z_ c) in
    sm_ArrayMult a (va_sub (va_add b L) U)
  else va_sub du_old (sm_ArrayMult a U).

(** Section 4.5 at the cell [c]: the cell is replaced and the squared
    change is added to the running error. *)
Definition spec_backward_cell blk (phys : physics) (inp : input)
  (aInv : gmap vector3d squareMatrix) (s : Z)
  (st : gmap vector3d varArray * varArray) (c : vector3d)
  : gmap vector3d varArray * varArray :=
  match aInv !! c, st.1 !! c with
  | Some a, Some du_old =>
      let du_new := spec_backward_value blk phys inp a s st.1 c du_old in
      let change := va_sub du_new du_old in
      (<[c := du_new]> st.1, va_add st.2 (va_mul change change))
  | _, _ => st
  end.

(** Section 4.5: the cells of the reorder table in reverse; the result is
    the update and the summed error. *)
Definition spec_LUSGS_Backward blk (phys : physics) (inp : input)
  (aInv : gmap vector3d squareMatrix) (s : Z) (reorder : list vector3d)
  (du : gmap vector3d varArray) : gmap vector3d varArray * double :=
  let st :=
    fold_left (spec_backward_cell blk phys inp aInv s) (reverse reorder)
      (du, varArray_ctor (NumEquations inp) (NumSpecies inp) d_lit0) in
  (st.1, va_Sum st.2).

(** Section 4.3: the value the initializer gives the interior cell [c] *)
Definition spec_init_value blk (phys : physics) (inp : input)
  (aInv : gmap vector3d squareMatrix) (c : vector3d) : option varArray :=
  a ← aInv !! c;
  Some (sm_ArrayMult a
          (rhs_b blk phys inp (d_div d_lit1 (Theta inp)) (X c) (Y c) (Z_ c))).

(** Section 4.2, steps 1 and 2: the coefficient c0 of the cell *)
Definition spec_c0 blk (inp : input) (c : vector3d) : double :=
  let c0 := SolDeltaNCoeff blk (X c) (Y c) (Z_ c) inp in
  if d_gt (DualTimeCFL inp) d_lit0
  then d_add c0 (d_div (us_Max (SpectralRadius blk (X c) (Y c) (Z_ c)))
                       (DualTimeCFL inp))
  else c0.


(** The value a DP-LUR sweep that was entered with [xold] stores at the
    cell [c] *)
Definition DPLUR_value blk (phys : physics) (inp : input)
  (aInv : gmap vector3d squareMatrix) (xold : gmap vector3d varArray)
  (c : vector3d) : option varArray :=
  a ← aInv !! c;
  Some (sm_ArrayMult a
          (va_add
             (rhs_b blk phys inp (d_div d_lit1 (Theta inp)) (X c) (Y c) (Z_ c))
             (va_sub (ImplicitLower blk (X c) (Y c) (Z_ c) xold phys inp)
                     (ImplicitUpper blk (X c) (Y c) (Z_ c) xold phys inp)))).

(** and the squared change of that cell *)
Definition DPLUR_change blk (phys : physics) (inp : input)
  (aInv : gmap vector3d squareMatrix) (xold : gmap vector3d varArray)
  (c : vector3d) : option varArray :=
  v ← DPLUR_value blk phys inp aInv xold c;
  xo ← xold !! c;
  Some (va_mul (va_sub v xo) (va_sub v xo)).

(** The array and the running error after the cells [cells] of a DP-LUR
    sweep that was entered with [xold] *)
Definition DPLUR_update blk (phys : physics) (inp : input)
  (aInv : gmap vector3d squareMatrix) (xold : gmap vector3d varArray)
  (cells : list vector3d) (x : gmap vector3d varArray)
  : gmap vector3d varArray :=
  write_cells (DPLUR_value blk phys inp aInv xold) cells x.

Definition DPLUR_error blk (phys : physics) (inp : input)
  (aInv : gmap vector3d squareMatrix) (xold : gmap vector3d varArray)
  (cells : list vector3d) (l2Error : varArray) : varArray :=
  fold_left
    (λ l2Error c, from_option (va_add l2Error) l2Error
                    (DPLUR_change blk phys inp aInv xold c))
    cells l2Error.

End Cells.

(** ** What the drivers need of their arguments *)

Section Ready.
Context `{Arith : Arithmetic} {physics : Type} `{Net : !Transport}.

(** The update and the diagonal of every block have the interior cells of
    the block. *)
Definition shaped (level : gridLevel connection)
  (du : list (gmap vector3d varArray)) : Prop :=
  Forall2 (λ blk x, covers x blk) (blocks (physics := physics) level) du.

Definition diagonals_shaped (level : gridLevel connection) : Prop :=
  Forall2 (λ blk a, covers a blk) (blocks (physics := physics) level)
    (diagonal level).

(** The ghost exchange writes into the arrays it is given; it does not
    take cells away from them. *)
Definition exchange_keeps_shape (level : gridLevel connection) : Prop :=
  ∀ du conns rank numG w,
    shaped level du →
    shaped level (SwapImplicitUpdate du conns rank numG w).1.

End Ready.

(** ** Further vocabulary for what the code does *)

Section Vocabulary.
Context `{Arith : Arithmetic} {physics : Type}.
Implicit Type blk : @procBlock Arith physics.

(** A block with no negative extent *)
Definition proper_extents blk : Prop :=
  0 ≤ NumI blk ∧ 0 ≤ NumJ blk ∧ 0 ≤ NumK blk.

(** The entries of a reorder table that the sweeps of a block visit *)
Definition visited blk (reorder : list vector3d) : list vector3d :=
  take (Z.to_nat (NumCells blk)) reorder.

(** The off-diagonal term of the forward sweep at [c], read from [du] *)
Definition forward_off blk (phys : physics) (inp : input) (sweep : Z)
  (du : gmap vector3d varArray) (c : vector3d) : varArray :=
  let lower := ImplicitLower blk (X c) (Y c) (Z_ c) du phys inp in
  if bool_decide (sweep > 0) || MatrixRequiresInitialization inp
  then va_sub lower (ImplicitUpper blk (X c) (Y c) (Z_ c) du phys inp)
  else lower.

End Vocabulary.

(** The lower and the upper neighbours of a cell, across its six faces *)
Definition lower_neighbours (c : vector3d) : list vector3d :=
  [(X c - 1, Y c, Z_ c); (X c, Y c - 1, Z_ c); (X c, Y c, Z_ c - 1)].

Definition upper_neighbours (c : vector3d) : list vector3d :=
  [(X c + 1, Y c, Z_ c); (X c, Y c + 1, Z_ c); (X c, Y c, Z_ c + 1)].

Section ExchangeVocabulary.
Context `{Arith : Arithmetic} `{Net : !Transport}.

(** The ghost exchange hands back as many arrays as it was given. *)
Definition exchange_keeps_length : Prop :=
  ∀ du conns rank numG w,
    length (SwapImplicitUpdate du conns rank numG w).1 = length du.

End ExchangeVocabulary.

(** ** The drivers, pass by pass (section 4.7) *)

Section Passes.
Context `{Arith : Arithmetic} {physics : Type} `{Net : !Transport}.
Implicit Type level : @gridLevel Arith physics connection.
Implicit Type du : list (gmap vector3d varArray).

(** "for each local block b: dplur-sweep(b)": the pass takes the update
    arrays [du] to [du'].  The array of every block is replaced by what the
    sweep of that block makes of it; the error the sweep returns is not
    used; an array beyond the blocks is kept. *)
Definition dplur_pass level (phys : physics) (inp : input) du du' : Prop :=
  length du' = length du ∧
  (∀ (bb : nat) blk, blocks level !! bb = Some blk →
     ∃ aInv x x' err,
       diagonal level !! bb = Some aInv ∧ du !! bb = Some x ∧
       DPLUR blk phys inp aInv x = Ok (x', err) ∧ du' !! bb = Some x') ∧
  (∀ bb : nat, blocks level !! bb = None → du' !! bb = du !! bb).

(** "for each local block b: forward-sweep(b, s)" *)
Definition forward_pass (self : lusgs) level (phys : physics) (inp : input)
  (ii : Z) du du' : Prop :=
  length du' = length du ∧
  (∀ (bb : nat) blk, blocks level !! bb = Some blk →
     ∃ reorder aInv x x',
       reorder_ self !! bb = Some reorder ∧
       diagonal level !! bb = Some aInv ∧ du !! bb = Some x ∧
       LUSGS_Forward blk reorder phys inp aInv ii x = Ok x' ∧
       du' !! bb = Some x') ∧
  (∀ bb : nat, blocks level !! bb = None → du' !! bb = du !! bb).

(** "for each local block b: err += backward-sweep(b, s)"; [errs] are the
    errors of the blocks, in block order. *)
Definition backward_pass (self : lusgs) level (phys : physics) (inp : input)
  (ii : Z) du du' (errs : list double) : Prop :=
  length du' = length du ∧ length errs = length (blocks level) ∧
  (∀ (bb : nat) blk, blocks level !! bb = Some blk →
     ∃ reorder aInv x x' err,
       reorder_ self !! bb = Some reorder ∧
       diagonal level !! bb = Some aInv ∧ du !! bb = Some x ∧
       LUSGS_Backward blk reorder phys inp aInv ii x = Ok (x', err) ∧
       du' !! bb = Some x' ∧ errs !! bb = Some err) ∧
  (∀ bb : nat, blocks level !! bb = None → du' !! bb = du !! bb).

(** One DP-LUR sweep of the driver, from the update arrays and the world
    [s] to [s']: the ghost exchange, called with the ghost count [numG], and
    the pass over the blocks on what the exchange delivered. *)
Definition dplur_sweep level (phys : physics) (inp : input) (rank numG : Z)
  (s s' : list (gmap vector3d varArray) * world) : Prop :=
  let exchanged := SwapImplicitUpdate s.1 (Connections level) rank numG s.2 in
  dplur_pass level phys inp exchanged.1 s'.1 ∧ s'.2 = exchanged.2.

(** One LU-SGS sweep of the driver, number [ii], from the error so far, the
    update arrays and the world [s] to [s']: exchange, forward pass,
    exchange, backward pass, the errors of the backward sweeps added to the
    error so far in block order. *)
Definition lusgs_sweep (self : lusgs) level (phys : physics) (inp : input)
  (rank numG : Z) (ii : Z)
  (s s' : double * list (gmap vector3d varArray) * world) : Prop :=
  ∃ (mid : list (gmap vector3d varArray)) (errs : list double),
    let first := SwapImplicitUpdate s.1.2 (Connections level) rank numG s.2 in
    let second :=
      SwapImplicitUpdate mid (Connections level) rank numG first.2 in
    forward_pass self level phys inp ii first.1 mid ∧
    backward_pass self level phys inp ii second.1 s'.1.2 errs ∧
    s'.1.1 = fold_left d_add errs s.1.1 ∧
    s'.2 = second.2.

End Passes.

(** "For sweep s = 0 ... S-1": [n] sweeps in a row, numbered from [ii] *)
Fixpoint sweeps_from {St : Type} (sweep : Z → St → St → Prop) (ii : Z)
  (n : nat) (s s' : St) : Prop :=
  match n with
  | O => s' = s
  | S n => ∃ t, sweep ii s t ∧ sweeps_from sweep (ii + 1) n t s'
  end.

(** * A small instance to run the model on *)

(** Exact integer arithmetic with one equation per cell: a [double] is an
    integer, a [varArray] is its single component, a diagonal block is a
    1x1 matrix. *)
Module Fixture.

Definition intArith : Arithmetic := {|
  double := Z; d_lit0 := 0; d_lit1 := 1;
  d_add := Z.add; d_div := Z.div; d_neg := Z.opp; d_gt := Z.gtb;
  varArray := Z; varArray_ctor := λ _ _ val, val;
  va_add := Z.add; va_sub := Z.sub; va_mul := Z.mul; va_scale := Z.mul;
  va_Sum := λ v, v;
  uncoupledScalar := Z; us_Max := λ v, v;
  squareMatrix := Z;
  sm_MultiplyOnDiagonal := Z.mul; sm_AddOnDiagonal := Z.add;
  sm_Inverse := λ a, if decide (a = 0) then None else Some (1 `div` a);
  sm_ArrayMult := Z.mul
|}.

#[local] Existing Instance intArith.

(** An exchange that leaves the arrays alone and counts the calls *)
Definition countingNet : Transport := {|
  connection := unit;
  world := nat;
  SwapImplicitUpdate := λ du _ _ _ w, (du, S w)
|}.

#[local] Existing Instance countingNet.

(** The update at a neighbour, zero where the array has no cell *)
Definition at_cell (x : gmap vector3d Z) (c : vector3d) : Z :=
  default 0 (x !! c).

(** A block of 2 x 1 x 1 cells with [ng] ghost layers, residual
    (1, 2), no subiteration deltas, zero spectral radius, and the update of
    the lower and of the upper neighbour in i as off-diagonal actions. *)
Definition block2 (ng : Z) : procBlock (physics := unit) := {|
  NumI := 2; NumJ := 1; NumK := 1; NumGhosts := ng;
  Residual := λ i _ _, i + 1;
  SolDeltaNm1 := λ _ _ _ _, 0;
  SolDeltaMmN := λ _ _ _ _ _, 0;
  SolDeltaNCoeff := λ _ _ _ _, 0;
  SpectralRadius := λ _ _ _, 0;
  ImplicitLower := λ i j k x _ _, at_cell x (i - 1, j, k);
  ImplicitUpper := λ i j k x _ _, at_cell x (i + 1, j, k)
|}.

Definition inp0 (init : bool) : input := {|
  NumEquations := 1; NumSpecies := 0; Theta := 1; DualTimeCFL := 0;
  MatrixRelaxation := 1; MatrixRequiresInitialization := init
|}.

(** The identity on the two interior cells *)
Definition diag2 : gmap vector3d Z :=
  <[(0, 0, 0) := 1]> (<[(1, 0, 0) := 1]> ∅).

(** The zero update of [block2 1] *)
Definition zero2 : gmap vector3d Z := blkMultiArray3d_ctor 2 1 1 1 1 0 0.

(** One block; and two blocks with one and with two ghost layers *)
Definition level1 : gridLevel (physics := unit) connection :=
  {| blocks := [block2 1]; diagonal := [diag2]; Connections := [] |}.

Definition level2 : gridLevel (physics := unit) connection :=
  {| blocks := [block2 1; block2 2]; diagonal := [diag2; diag2];
     Connections := [] |}.

Definition machine0 : machine := {| theWorld := 0%nat; trace := [] |}.

(** The identity system of 2 x 2 x 2 cells: no off-diagonal action, the
    residual 1 to 8 in the order of the loop nest, a spectral radius of 2,
    one ghost layer. *)
Definition block8 : procBlock (physics := unit) := {|
  NumI := 2; NumJ := 2; NumK := 2; NumGhosts := 1;
  Residual := λ i j k, 1 + i + 2 * j + 4 * k;
  SolDeltaNm1 := λ _ _ _ _, 0;
  SolDeltaMmN := λ _ _ _ _ _, 0;
  SolDeltaNCoeff := λ _ _ _ _, 0;
  SpectralRadius := λ _ _ _, 2;
  ImplicitLower := λ _ _ _ _ _ _, 0;
  ImplicitUpper := λ _ _ _ _ _ _, 0
|}.

Definition diag8 : gmap vector3d Z :=
  list_to_map ((λ c, (c, 1)) <$> cellsKJI 0 2 0 2 0 2).

Definition zero8 : gmap vector3d Z := blkMultiArray3d_ctor 2 2 2 1 1 0 0.

Definition level8 : gridLevel (physics := unit) connection :=
  {| blocks := [block8]; diagonal := [diag8]; Connections := [] |}.

(** The interior cells of an update, in the order of the loop nest *)
Definition interior_values (blk : procBlock (physics := unit))
  (x : gmap vector3d Z) : list (option Z) :=
  (λ c, x !! c) <$> interiorCells blk.

(** What is looked at after a driver has run on [level8]: the error
    returned, the interior of the updates, and the number of exchanges *)
Definition observe8 (r : Z * list (gmap vector3d Z) * machine)
  : Z * list (list (option Z)) * nat :=
  (r.1.1, interior_values block8 <$> r.1.2, theWorld r.2).

(** The place of a cell in a reorder table *)
Definition position (c : vector3d) (t : list vector3d) : option nat :=
  fst <$> list_find (λ d, d = c) t.

End Fixture.

(** More cases to run the model on *)
Module Cases.

#[local] Existing Instance Fixture.intArith.
#[local] Existing Instance Fixture.countingNet.

(** A block without cells: no extent in i *)
Definition emptyBlock : procBlock (physics := unit) := {|
  NumI := 0; NumJ := 1; NumK := 1; NumGhosts := 1;
  Residual := λ i _ _, i + 1;
  SolDeltaNm1 := λ _ _ _ _, 0;
  SolDeltaMmN := λ _ _ _ _ _, 0;
  SolDeltaNCoeff := λ _ _ _ _, 0;
  SpectralRadius := λ _ _ _, 0;
  ImplicitLower := λ _ _ _ _ _ _, 0;
  ImplicitUpper := λ _ _ _ _ _ _, 0
|}.

(** The solver of [Fixture.level2] *)
Definition solver2 : lusgs :=
  {| solverType_ := "lusgs";
     reorder_ := [HyperplaneReorder 2 1 1; HyperplaneReorder 2 1 1] |}.

(** The updates of [Fixture.level2]: the zero arrays of its two blocks, the
    first with the value 4 in its cell (0, 0, 0) *)
Definition du2 : list (gmap vector3d Z) :=
  [<[(0, 0, 0) := 4]> Fixture.zero2; blkMultiArray3d_ctor 2 1 1 2 1 0 0].

(** Whether a call returned, rather than failed *)
Definition succeeds {A : Type} (r : result A) : bool :=
  match r with Ok _ => true | Fail _ => false end.

(** An exchange that leaves the arrays alone and writes down the ghost
    count it is called with *)
Definition recordingNet : Transport := {|
  connection := unit;
  world := list Z;
  SwapImplicitUpdate := λ du _ _ numG w, (du, w ++ [numG])
|}.

Definition recording0 : machine (Net := recordingNet) :=
  Build_machine (Net := recordingNet) [] [].

End Cases.

(** * IEEE 754 arithmetic *)

(** The arithmetic of the code's [double]: binary64, rounding to nearest
    even, as the Standard Library specifies it ([SpecFloat]); two equations
    per cell, so that a [varArray] is a pair and a diagonal block a 2 x 2
    matrix, its rows first. *)
Module Binary64.

Definition b64_add : spec_float → spec_float → spec_float := SFadd 53 1024.
Definition b64_sub : spec_float → spec_float → spec_float := SFsub 53 1024.
Definition b64_mul : spec_float → spec_float → spec_float := SFmul 53 1024.
Definition b64_div : spec_float → spec_float → spec_float := SFdiv 53 1024.

(** The double nearest to an integer; [zero] is +0.0, [neg_zero] is -0.0 *)
Definition of_Z (z : Z) : spec_float :=
  match z with
  | Z0 => S754_zero false
  | Zpos p => binary_normalize 53 1024 (Zpos p) 0 false
  | Zneg p => SFopp (binary_normalize 53 1024 (Zpos p) 0 false)
  end.

Definition zero : spec_float := S754_zero false.

Definition vec : Type := spec_float * spec_float.
Definition matrix : Type := vec * vec.

(** The inverse of a 2 x 2 block by its adjugate; the block is singular
    when its determinant compares equal to zero. *)
Definition inverse (m : matrix) : option matrix :=
  let '((a, b), (c, d)) := m in
  let det := b64_sub (b64_mul a d) (b64_mul b c) in
  if SFeqb det zero then None
  else Some ((b64_div d det, b64_div (SFopp b) det),
             (b64_div (SFopp c) det, b64_div a det)).

Definition arith : Arithmetic := {|
  double := spec_float; d_lit0 := zero; d_lit1 := of_Z 1;
  d_add := b64_add; d_div := b64_div; d_neg := SFopp;
  d_gt := λ a b, SFltb b a;
  varArray := vec; varArray_ctor := λ _ _ val, (val, val);
  va_add := λ u v, (b64_add u.1 v.1, b64_add u.2 v.2);
  va_sub := λ u v, (b64_sub u.1 v.1, b64_sub u.2 v.2);
  va_mul := λ u v, (b64_mul u.1 v.1, b64_mul u.2 v.2);
  va_scale := λ a v, (b64_mul a v.1, b64_mul a v.2);
  va_Sum := λ v, b64_add v.1 v.2;
  uncoupledScalar := vec;
  us_Max := λ v, if SFltb v.1 v.2 then v.2 else v.1;
  squareMatrix := matrix;
  sm_MultiplyOnDiagonal := λ m a,
    ((b64_mul m.1.1 a, m.1.2), (m.2.1, b64_mul m.2.2 a));
  sm_AddOnDiagonal := λ m a,
    ((b64_add m.1.1 a, m.1.2), (m.2.1, b64_add m.2.2 a));
  sm_Inverse := inverse;
  sm_ArrayMult := λ m v,
    (b64_add (b64_mul m.1.1 v.1) (b64_mul m.1.2 v.2),
     b64_add (b64_mul m.2.1 v.1) (b64_mul m.2.2 v.2))
|}.

#[local] Existing Instance arith.

Definition inp (cfl : spec_float) : input := {|
  NumEquations := 2; NumSpecies := 0; Theta := of_Z 1; DualTimeCFL := cfl;
  MatrixRelaxation := of_Z 1; MatrixRequiresInitialization := false
|}.

(** A block of 3 x 1 x 1 cells without off-diagonal action, with residual
    -1e8 in the first component of cell 0 and -1 in that of the cells 1
    and 2: the sweep changes the update by 1e8, 1 and 1. *)
Definition block3 : procBlock (physics := unit) := {|
  NumI := 3; NumJ := 1; NumK := 1; NumGhosts := 1;
  Residual := λ i _ _,
    (if decide (i = 0) then of_Z (-100000000) else of_Z (-1), zero);
  SolDeltaNm1 := λ _ _ _ _, (zero, zero);
  SolDeltaMmN := λ _ _ _ _ _, (zero, zero);
  SolDeltaNCoeff := λ _ _ _ _, zero;
  SpectralRadius := λ _ _ _, (zero, zero);
  ImplicitLower := λ _ _ _ _ _ _, (zero, zero);
  ImplicitUpper := λ _ _ _ _ _ _, (zero, zero)
|}.

Definition identity : matrix := ((of_Z 1, zero), (zero, of_Z 1)).

Definition diag3 : gmap vector3d matrix :=
  list_to_map ((λ c, (c, identity)) <$> cellsKJI 0 3 0 1 0 1).

Definition zero3 : gmap vector3d vec := blkMultiArray3d_ctor 3 1 1 1 2 0 zero.




End Binary64.

(** * Properties *)

(** ** Loops *)

Lemma bind_Ok_inv {A B} (r : result A) (k : A → result B) (b : B) :
  r ≫= k = Ok b → ∃ a, r = Ok a ∧ k a = Ok b.
Proof. destruct r as [a|f]; simpl; [eauto | discriminate]. Qed.

Lemma foldM_cons {S I} (body : I → S → result S) (i : I) (l : list I) (s : S) :
  foldM body (i :: l) s = body i s ≫= foldM body l.
Proof. done. Qed.

Lemma foldM_app {S I} (body : I → S → result S) (l1 l2 : list I) (s : S) :
  foldM body (l1 ++ l2) s = foldM body l1 s ≫= foldM body l2.
Proof.
  revert s. induction l1 as [|i l1 IH]; intros s; simpl; [done|].
  destruct (body i s) as [s'|f]; simpl; [apply IH | done].
Qed.

Lemma foldM_bind {S I J} (body : J → S → result S) (g : I → list J)
  (l : list I) (s : S) :
  foldM body (l ≫= g) s = foldM (λ i, foldM body (g i)) l s.
Proof.
  revert s. induction l as [|i l IH]; intros s; [done|].
  change ((i :: l) ≫= g) with (g i ++ (l ≫= g)).
  rewrite foldM_app. simpl.
  destruct (foldM body (g i) s) as [s'|f]; simpl; [apply IH | done].
Qed.

Lemma foldM_ext {S I} (body body' : I → S → result S) (l : list I) (s : S) :
  (∀ i s, i ∈ l → body i s = body' i s) →
  foldM body l s = foldM body' l s.
Proof.
  revert s. induction l as [|i l IH]; intros s Hext; [done|]. simpl.
  rewrite (Hext i s) by left.
  destruct (body' i s) as [s'|f]; simpl; [|done].
  apply IH. intros j t Hj. apply Hext. by right.
Qed.

(** A property of the loop state that every iteration keeps holds when the
    loop is left. *)
Lemma foldM_invariant {S I} (P : S → Prop) (body : I → S → result S)
  (l : list I) (s s' : S) :
  (∀ i t t', i ∈ l → P t → body i t = Ok t' → P t') →
  P s → foldM body l s = Ok s' → P s'.
Proof.
  revert s. induction l as [|i l IH]; intros s Hstep Hs Hrun; simpl in Hrun.
  - by injection Hrun as <-.
  - apply bind_Ok_inv in Hrun as (t & Ht & Hrun).
    eapply IH; [| |exact Hrun].
    + intros j u u' Hj. apply Hstep. by right.
    + eapply Hstep; [left|exact Hs|exact Ht].
Qed.

(** A loop whose iterations all succeed on states that satisfy an invariant
    runs to completion. *)
Lemma foldM_total {S I} (P : S → Prop) (body : I → S → result S)
  (l : list I) (s : S) :
  (∀ i t, i ∈ l → P t → ∃ t', body i t = Ok t' ∧ P t') →
  P s → ∃ s', foldM body l s = Ok s' ∧ P s'.
Proof.
  revert s. induction l as [|i l IH]; intros s Hstep Hs; simpl; [eauto|].
  destruct (Hstep i s) as (t & -> & Ht); [left|done|]. simpl.
  apply IH; [|done]. intros j u Hj. apply Hstep. by right.
Qed.

(** A loop whose iterations all succeed on states that satisfy an invariant
    runs to completion and computes the pure fold. *)
Lemma foldM_pure {S I} (P : S → Prop) (body : I → S → result S)
  (step : S → I → S) (l : list I) (s : S) :
  (∀ i t, i ∈ l → P t → body i t = Ok (step t i) ∧ P (step t i)) →
  P s → foldM body l s = Ok (fold_left step l s) ∧ P (fold_left step l s).
Proof.
  revert s. induction l as [|i l IH]; intros s Hstep Hs; simpl; [done|].
  destruct (Hstep i s) as [-> HP]; [left|done|]. simpl.
  apply IH; [|done]. intros j t Hj. apply Hstep. by right.
Qed.

(** The loop nest over k, j, i is the loop over the cells it meets. *)
Lemma for_up_nest {S} (loI hiI loJ hiJ loK hiK : Z)
  (body : Z → Z → Z → S → result S) (s : S) :
  for_up loK hiK (λ kk,
    for_up loJ hiJ (λ jj,
      for_up loI hiI (λ ii, body ii jj kk))) s
  = foldM (λ c, body (X c) (Y c) (Z_ c)) (cellsKJI loI hiI loJ hiJ loK hiK) s.
Proof.
  unfold for_up, cellsKJI.
  rewrite foldM_bind. apply foldM_ext. intros kk t _.
  rewrite foldM_bind. apply foldM_ext. intros jj u _.
  rewrite foldM_bind. apply foldM_ext. intros ii v _.
  unfold X, Y, Z_. simpl. by destruct (body ii jj kk v).
Qed.

(** ** Cells of a box *)

Lemma elem_of_cellsKJI loI hiI loJ hiJ loK hiK c :
  c ∈ cellsKJI loI hiI loJ hiJ loK hiK ↔ in_box loI hiI loJ hiJ loK hiK c.
Proof.
  unfold cellsKJI, in_box. destruct c as [[i j] k]. unfold X, Y, Z_. simpl.
  rewrite list_elem_of_bind. split.
  - intros (kk & Hc & Hk). apply list_elem_of_bind in Hc as (jj & Hc & Hj).
    apply list_elem_of_bind in Hc as (ii & Hc & Hi).
    apply list_elem_of_singleton in Hc. injection Hc as -> -> ->.
    apply elem_of_seqZ in Hk, Hj, Hi. lia.
  - intros (Hi & Hj & Hk). exists k. split; [|apply elem_of_seqZ; lia].
    apply list_elem_of_bind. exists j. split; [|apply elem_of_seqZ; lia].
    apply list_elem_of_bind. exists i. split; [|apply elem_of_seqZ; lia].
    by apply list_elem_of_singleton.
Qed.

Lemma length_bind_const {A B} (g : A → list B) (l : list A) (n : nat) :
  (∀ a, a ∈ l → length (g a) = n) → length (l ≫= g) = (length l * n)%nat.
Proof.
  induction l as [|a l IH]; intros Hg; [done|].
  rewrite bind_cons, length_app, Hg, IH by set_solver. simpl. lia.
Qed.

Lemma length_cellsKJI loI hiI loJ hiJ loK hiK :
  Z.of_nat (length (cellsKJI loI hiI loJ hiJ loK hiK))
  = Z.max 0 (hiI - loI) * Z.max 0 (hiJ - loJ) * Z.max 0 (hiK - loK).
Proof.
  unfold cellsKJI.
  rewrite (length_bind_const _ _
             (Z.to_nat (hiJ - loJ) * Z.to_nat (hiI - loI))).
  - rewrite length_seqZ. lia.
  - intros kk _.
    rewrite (length_bind_const _ _ (Z.to_nat (hiI - loI))).
    + by rewrite length_seqZ.
    + intros jj _. rewrite (length_bind_const _ _ 1%nat); [|done].
      rewrite length_seqZ. lia.
Qed.

Lemma StronglySorted_bind {A B} (Q : relation A) (R : relation B)
  (g : A → list B) (l : list A) :
  StronglySorted Q l →
  (∀ a, a ∈ l → StronglySorted R (g a)) →
  (∀ a1 a2 b1 b2, Q a1 a2 → b1 ∈ g a1 → b2 ∈ g a2 → R b1 b2) →
  StronglySorted R (l ≫= g).
Proof.
  intros Hl Hin Hout. induction Hl as [|a l Hl IH Ha]; [constructor|].
  rewrite bind_cons. apply StronglySorted_app_2.
  - intros b1 b2 Hb1 Hb2. apply list_elem_of_bind in Hb2 as (a2 & Hb2 & Ha2).
    rewrite Forall_forall in Ha. eauto.
  - apply Hin. left.
  - apply IH. intros a' Ha'. apply Hin. by right.
Qed.

Lemma StronglySorted_filter {A} (R : relation A) (P : A → Prop)
  `{∀ a, Decision (P a)} (l : list A) :
  StronglySorted R l → StronglySorted R (filter P l).
Proof.
  induction 1 as [|a l Hl IH Ha]; [constructor|].
  rewrite filter_cons. destruct (decide (P a)); [|done].
  constructor; [done|].
  rewrite Forall_forall in *. intros b [_ Hb]%list_elem_of_filter. auto.
Qed.

Lemma StronglySorted_lookup {A} (R : relation A) (l : list A) (i j : nat) a b :
  StronglySorted R l → (i < j)%nat → l !! i = Some a → l !! j = Some b →
  R a b.
Proof.
  intros Hl. revert i j. induction Hl as [|x l Hl IH Hx]; intros i j Hij Hi Hj.
  - done.
  - destruct j as [|j]; [lia|]. destruct i as [|i]; simpl in *.
    + injection Hi as ->. rewrite Forall_forall in Hx.
      apply Hx. by eapply list_elem_of_lookup_2.
    + eapply IH; [|done..]. lia.
Qed.

Lemma StronglySorted_seqZ (m n : Z) : StronglySorted Z.lt (seqZ m n).
Proof.
  destruct (decide (0 ≤ n)) as [Hn|Hn]; [|rewrite seqZ_nil by lia; constructor].
  rewrite <- (Z2Nat.id n) by done. generalize (Z.to_nat n) as k. clear.
  induction k as [|k IH]; [constructor|].
  rewrite seqZ_S. apply StronglySorted_app_2; [|done|repeat constructor].
  intros x y Hx%elem_of_seqZ Hy%list_elem_of_singleton. lia.
Qed.

(** The loop nest over k, j, i meets the cells of a box without repetition
    and in the order [kji_lt]. *)
Lemma StronglySorted_cellsKJI loI hiI loJ hiJ loK hiK :
  StronglySorted kji_lt (cellsKJI loI hiI loJ hiJ loK hiK).
Proof.
  unfold cellsKJI.
  apply (StronglySorted_bind Z.lt); [apply StronglySorted_seqZ| |].
  - intros kk _.
    apply (StronglySorted_bind Z.lt); [apply StronglySorted_seqZ| |].
    + intros jj _.
      apply (StronglySorted_bind Z.lt); [apply StronglySorted_seqZ| |].
      * intros ii _. repeat constructor.
      * intros i1 i2 b1 b2 Hi ->%list_elem_of_singleton
          ->%list_elem_of_singleton.
        unfold kji_lt, X, Y, Z_. simpl. lia.
    + intros j1 j2 b1 b2 Hj (i1 & ->%list_elem_of_singleton & _)%list_elem_of_bind
        (i2 & ->%list_elem_of_singleton & _)%list_elem_of_bind.
      unfold kji_lt, X, Y, Z_. simpl. lia.
  - intros k1 k2 b1 b2 Hk (j1 & Hb1 & _)%list_elem_of_bind
      (j2 & Hb2 & _)%list_elem_of_bind.
    apply list_elem_of_bind in Hb1 as (i1 & ->%list_elem_of_singleton & _).
    apply list_elem_of_bind in Hb2 as (i2 & ->%list_elem_of_singleton & _).
    unfold kji_lt, X, Y, Z_. simpl. lia.
Qed.

Lemma kji_lt_irrefl c : ¬ kji_lt c c.
Proof. unfold kji_lt. lia. Qed.

Lemma StronglySorted_NoDup {A} (R : relation A) (l : list A) :
  (∀ a, ¬ R a a) → StronglySorted R l → NoDup l.
Proof.
  intros Hirr. induction 1 as [|a l Hl IH Ha]; constructor; [|done].
  rewrite Forall_forall in Ha. intros Hin. by apply (Hirr a), Ha.
Qed.

Lemma NoDup_cellsKJI loI hiI loJ hiJ loK hiK :
  NoDup (cellsKJI loI hiI loJ hiJ loK hiK).
Proof.
  eapply StronglySorted_NoDup;
    [apply kji_lt_irrefl | apply StronglySorted_cellsKJI].
Qed.

(** ** The reorder table *)

Lemma elem_of_HyperplaneReorder imax jmax kmax c :
  c ∈ HyperplaneReorder imax jmax kmax ↔ in_box 0 imax 0 jmax 0 kmax c.
Proof.
  unfold HyperplaneReorder. rewrite list_elem_of_bind. split.
  - intros (pp & Hc & _). apply list_elem_of_filter in Hc as [_ Hc].
    by apply elem_of_cellsKJI.
  - intros Hc. exists (plane c). split.
    + apply list_elem_of_filter. split; [done|]. by apply elem_of_cellsKJI.
    + apply elem_of_seqZ. unfold in_box, plane in *. lia.
Qed.

Lemma StronglySorted_HyperplaneReorder imax jmax kmax :
  StronglySorted hyperplane_lt (HyperplaneReorder imax jmax kmax).
Proof.
  unfold HyperplaneReorder.
  apply (StronglySorted_bind Z.lt); [apply StronglySorted_seqZ| |].
  - intros pp _.
    assert (Hsub : ∀ l, StronglySorted kji_lt l →
                        Forall (λ c, plane c = pp) l →
                        StronglySorted hyperplane_lt l).
    { induction 1 as [|a l Hl IH Ha]; intros Hpp; [constructor|].
      apply Forall_cons in Hpp as [Hpa Hpl].
      constructor; [by apply IH|].
      rewrite Forall_forall in *. intros b Hb. right.
      split; [rewrite Hpa; symmetry|]; auto. }
    apply Hsub.
    + apply StronglySorted_filter, StronglySorted_cellsKJI.
    + apply Forall_forall. by intros c [Hc _]%list_elem_of_filter.
  - intros p1 p2 b1 b2 Hp [Hb1 _]%list_elem_of_filter
      [Hb2 _]%list_elem_of_filter.
    left. lia.
Qed.

Lemma hyperplane_lt_irrefl c : ¬ hyperplane_lt c c.
Proof. unfold hyperplane_lt, kji_lt. lia. Qed.

Lemma hyperplane_lt_plane c d : hyperplane_lt c d → plane c ≤ plane d.
Proof. unfold hyperplane_lt. lia. Qed.

Lemma HyperplaneReorder_ordering imax jmax kmax :
  hyperplane_ordering imax jmax kmax (HyperplaneReorder imax jmax kmax).
Proof.
  pose proof (StronglySorted_HyperplaneReorder imax jmax kmax) as Hsorted.
  pose proof (StronglySorted_NoDup _ _ hyperplane_lt_irrefl Hsorted) as Hnodup.
  assert (Hmono : ∀ (m n : nat) c d, (m ≤ n)%nat →
            HyperplaneReorder imax jmax kmax !! m = Some c →
            HyperplaneReorder imax jmax kmax !! n = Some d →
            plane c ≤ plane d).
  { intros m n c d Hmn Hm Hn. destruct (decide (m = n)) as [->|Hne].
    - rewrite Hm in Hn. injection Hn as ->. lia.
    - apply hyperplane_lt_plane.
      eapply StronglySorted_lookup; [exact Hsorted| |done..]. lia. }
  split; [done|]. split; [intros c; apply elem_of_HyperplaneReorder|].
  split; [|split; [done|split; [|done]]].
  - trans (Z.of_nat (length (cellsKJI 0 imax 0 jmax 0 kmax))).
    + f_equal. apply Permutation_length.
      apply NoDup_Permutation; [done|apply NoDup_cellsKJI|].
      intros c. by rewrite elem_of_HyperplaneReorder, elem_of_cellsKJI.
    + by rewrite length_cellsKJI, !Z.sub_0_r.
  - intros n c d Hc Hd Hlt.
    apply elem_of_HyperplaneReorder, list_elem_of_lookup in Hd as [j Hj].
    apply list_elem_of_lookup in Hc as [i Hi].
    apply lookup_take_Some in Hi as [Hi Hin].
    destruct (decide (j < n)%nat) as [Hjn|Hjn].
    + apply list_elem_of_lookup. exists j. by rewrite lookup_take_lt.
    + pose proof (Hmono i j c d ltac:(lia) Hi Hj). lia.
Qed.

Lemma vec_at_lookup {A} (v : list A) (n : nat) (a : A) :
  v !! n = Some a → vec_at v (Z.of_nat n) = Ok a.
Proof.
  intros Hn. unfold vec_at. rewrite decide_True by lia.
  by rewrite Nat2Z.id, Hn.
Qed.

Lemma vec_at_Ok {A} (v : list A) (n : Z) (a : A) :
  vec_at v n = Ok a ↔ 0 ≤ n ∧ v !! Z.to_nat n = Some a.
Proof.
  unfold vec_at. split.
  - destruct (decide (0 ≤ n)); [|done].
    destruct (v !! Z.to_nat n); [|done]. by intros [= ->].
  - intros [Hn Hv]. by rewrite decide_True, Hv.
Qed.

Section Constructor.
Context `{Arith : Arithmetic} {physics connection : Type}.
Implicit Type level : @gridLevel Arith physics connection.

(** The constructor fills the table of each block, one after the other. *)
Lemma lusgs_ctor_loop level (k : nat) :
  (k ≤ length (blocks level))%nat →
  foldM (λ bb reorder_,
      blk ← Block level bb;
      vec_set reorder_ bb
        (HyperplaneReorder (NumI blk) (NumJ blk) (NumK blk)))
    (seqZ 0 (Z.of_nat k))
    (replicate (length (blocks level)) [])
  = Ok (((λ blk, HyperplaneReorder (NumI blk) (NumJ blk) (NumK blk))
           <$> take k (blocks level))
        ++ replicate (length (blocks level) - k) []).
Proof.
  induction k as [|k IH]; intros Hk.
  - simpl. by rewrite Nat.sub_0_r.
  - rewrite seqZ_S, foldM_app, IH by lia. simpl.
    destruct (lookup_lt_is_Some_2 (blocks level) k) as [blk Hblk]; [lia|].
    unfold Block. rewrite Z.add_0_l, (vec_at_lookup _ _ _ Hblk). simpl.
    unfold vec_set.
    assert (Hlen : length ((λ blk, HyperplaneReorder (NumI blk) (NumJ blk)
                     (NumK blk)) <$> take k (blocks level)) = k).
    { rewrite length_fmap, length_take. lia. }
    erewrite vec_at_lookup; last first.
    { rewrite lookup_app_r, Hlen, Nat.sub_diag by lia.
      apply lookup_replicate_2. lia. }
    simpl. f_equal. rewrite Nat2Z.id.
    rewrite (take_S_r _ _ _ Hblk), fmap_app, <- app_assoc. simpl.
    replace (length (blocks level) - k)%nat
      with (S (length (blocks level) - S k)) by lia.
    simpl. rewrite <- (Nat.add_0_r k) at 1. rewrite <- Hlen at 1.
    by rewrite insert_app_r.
Qed.

Lemma lusgs_ctor_Ok (type : string) level :
  lusgs_ctor type level
  = Ok {| solverType_ := type;
          reorder_ := (λ blk, HyperplaneReorder (NumI blk) (NumJ blk)
                                (NumK blk)) <$> blocks level |}.
Proof.
  unfold lusgs_ctor, for_up, NumBlocks.
  rewrite Z.sub_0_r, Nat2Z.id, lusgs_ctor_loop by done. simpl.
  by rewrite firstn_all, Nat.sub_diag, app_nil_r.
Qed.

(** C6: for every grid level, the [lusgs] constructor succeeds and the
    reorder table it builds for each block of extent (NI, NJ, NK) is a
    hyperplane ordering: a permutation of the NI*NJ*NK interior indices
    where each appears exactly once, with s = i+j+k non-decreasing along
    the sequence, every prefix closed under interior cells of smaller s,
    and the order within a hyperplane fixed (that of the loop nest over
    k, j, i). *)
Theorem lusgs_reorder_is_hyperplane_ordering (type : string) level :
  ∃ self,
    lusgs_ctor type level = Ok self ∧
    Forall2 (λ blk t, hyperplane_ordering (NumI blk) (NumJ blk) (NumK blk) t)
      (blocks level) (reorder_ self).
Proof.
  eexists. split; [apply lusgs_ctor_Ok|]. simpl.
  apply Forall2_fmap_r, Forall_Forall2_diag, Forall_forall.
  intros blk _. apply HyperplaneReorder_ordering.
Qed.

End Constructor.

(** ** Arrays and vectors *)

Lemma vector3d_eta (c : vector3d) : (X c, Y c, Z_ c) = c.
Proof. by destruct c as [[i j] k]. Qed.

Lemma GetCopy_Ok {A} (x : gmap vector3d A) (c : vector3d) (v : A) :
  GetCopy x (X c) (Y c) (Z_ c) = Ok v ↔ x !! c = Some v.
Proof.
  unfold GetCopy. rewrite vector3d_eta.
  destruct (x !! c); split; congruence.
Qed.

Lemma GetCopy_None {A} (x : gmap vector3d A) (c : vector3d) :
  x !! c = None → GetCopy x (X c) (Y c) (Z_ c) = Fail OutOfBounds.
Proof. intros Hc. unfold GetCopy. by rewrite vector3d_eta, Hc. Qed.

Lemma InsertBlock_Some {A} (x : gmap vector3d A) (c : vector3d) (v : A) :
  is_Some (x !! c) →
  InsertBlock x (X c) (Y c) (Z_ c) v = Ok (<[c := v]> x).
Proof.
  intros [w Hw]. unfold InsertBlock. by rewrite vector3d_eta, Hw.
Qed.

Lemma InsertBlock_None {A} (x : gmap vector3d A) (c : vector3d) (v : A) :
  x !! c = None → InsertBlock x (X c) (Y c) (Z_ c) v = Fail OutOfBounds.
Proof. intros Hc. unfold InsertBlock. by rewrite vector3d_eta, Hc. Qed.

Lemma InsertBlock_Ok {A} (x x' : gmap vector3d A) (c : vector3d) (v : A) :
  InsertBlock x (X c) (Y c) (Z_ c) v = Ok x' →
  is_Some (x !! c) ∧ x' = <[c := v]> x.
Proof.
  unfold InsertBlock. rewrite vector3d_eta.
  destruct (x !! c) eqn:Hc; [|done]. intros [= <-]. eauto.
Qed.

(** Writing a cell the array has does not change which cells it has. *)
Lemma is_Some_insert_present {A} (x : gmap vector3d A) (c k : vector3d) (v : A) :
  is_Some (x !! c) → (is_Some (<[c := v]> x !! k) ↔ is_Some (x !! k)).
Proof.
  intros Hc. destruct (decide (c = k)) as [->|Hne].
  - rewrite lookup_insert_eq. split; eauto.
  - by rewrite lookup_insert_ne.
Qed.

Lemma write_cells_lookup {V} (f : vector3d → option V)
  (cells : list vector3d) (x : gmap vector3d V) (k : vector3d) :
  write_cells f cells x !! k
  = if decide (k ∈ cells) then from_option Some (x !! k) (f k) else x !! k.
Proof.
  unfold write_cells. revert x.
  induction cells as [|c cells IH]; intros x; cbn [fold_left].
  - rewrite decide_False; [done|]. apply not_elem_of_nil.
  - rewrite IH. clear IH.
    assert (Hstep : ∀ k', k' ≠ c →
      from_option (λ v, <[c := v]> x) x (f c) !! k' = x !! k').
    { intros k' Hne. destruct (f c); simpl; [by rewrite lookup_insert_ne|done]. }
    destruct (decide (k = c)) as [->|Hne].
    + rewrite (decide_True (P := c ∈ c :: cells)) by left.
      destruct (f c) as [v|]; simpl.
      * rewrite lookup_insert_eq. by destruct (decide _).
      * by destruct (decide _).
    + rewrite Hstep by done.
      destruct (decide (k ∈ cells)) as [Hin|Hin].
      * rewrite decide_True by (by right). done.
      * rewrite decide_False; [done|]. by intros [?|?]%elem_of_cons.
Qed.

(** A loop that runs through the indices of a vector and starts every
    iteration by reading the entry is the loop over the entries. *)
Lemma foldM_vec_at {S A} (v : list A) (g : A → S → result S)
  (idxs : list Z) (entries : list A) (s : S) :
  Forall2 (λ nn a, vec_at v nn = Ok a) idxs entries →
  foldM (λ nn s, a ← vec_at v nn; g a s) idxs s = foldM g entries s.
Proof.
  intros Hall. revert s. induction Hall as [|nn a idxs entries Hnn _ IH];
    intros s; [done|].
  simpl. rewrite Hnn. simpl. destruct (g a s); simpl; [apply IH | done].
Qed.

Lemma vec_at_indices {A} (v : list A) :
  Forall2 (λ nn a, vec_at v nn = Ok a) (seqZ 0 (Z.of_nat (length v))) v.
Proof.
  apply Forall2_same_length_lookup. split.
  - rewrite length_seqZ. lia.
  - intros i nn a Hnn Ha. apply lookup_seqZ in Hnn as [-> _].
    rewrite Z.add_0_l. by apply vec_at_lookup.
Qed.

Lemma for_up_vec_at {S A} (v : list A) (g : A → S → result S) (n : Z) (s : S) :
  Z.of_nat (length v) = n →
  for_up 0 n (λ nn s, a ← vec_at v nn; g a s) s = foldM g v s.
Proof.
  intros <-. unfold for_up. rewrite Z.sub_0_r.
  apply foldM_vec_at, vec_at_indices.
Qed.

Lemma for_down_vec_at {S A} (v : list A) (g : A → S → result S) (n : Z) (s : S) :
  Z.of_nat (length v) = n →
  for_down (n - 1) 0 (λ nn s, a ← vec_at v nn; g a s) s
  = foldM g (reverse v) s.
Proof.
  intros <-. unfold for_down.
  replace (Z.of_nat (length v) - 1 + 1 - 0) with (Z.of_nat (length v)) by lia.
  apply foldM_vec_at, Forall2_reverse, vec_at_indices.
Qed.

(** ** The LU-SGS sweeps *)

Section Sweeps.
Context `{Arith : Arithmetic} {physics : Type}.
Implicit Type blk : @procBlock Arith physics.
Implicit Type x du : gmap vector3d varArray.
Implicit Type aInv : gmap vector3d squareMatrix.
Implicit Type reorder cells : list vector3d.

Lemma ArrayMult_Some aInv c a v :
  aInv !! c = Some a →
  ArrayMult aInv (X c) (Y c) (Z_ c) v = Ok (sm_ArrayMult a v).
Proof.
  intros Ha. unfold ArrayMult.
  by rewrite (proj2 (GetCopy_Ok aInv c a) Ha).
Qed.

Lemma LUSGS_Forward_entries blk reorder phys inp aInv sweep x :
  Z.of_nat (length reorder) = NumCells blk →
  in_range aInv x reorder →
  LUSGS_Forward blk reorder phys inp aInv sweep x
  = Ok (spec_LUSGS_Forward blk phys inp aInv sweep reorder x).
Proof.
  intros Hlen Hrange. unfold LUSGS_Forward.
  rewrite for_up_vec_at by done.
  eapply (foldM_pure (λ x', ∀ c, is_Some (x' !! c) ↔ is_Some (x !! c)));
    [|done].
  intros c x' Hc Hx'.
  destruct (Hrange c Hc) as [[a Ha] Hxc]. apply Hx' in Hxc.
  unfold spec_forward_cell. rewrite Ha.
  erewrite ArrayMult_Some by done. simpl.
  rewrite InsertBlock_Some by done. split; [done|].
  intros k. by rewrite is_Some_insert_present, Hx'.
Qed.

(** On the zeroth sweep without initialisation the forward sweep does not
    depend on the upper action of the block. *)
Lemma LUSGS_Forward_skips_upper blk reorder phys inp aInv sweep x upper :
  sweep ≤ 0 → MatrixRequiresInitialization inp = false →
  LUSGS_Forward (with_ImplicitUpper blk upper) reorder phys inp aInv sweep x
  = LUSGS_Forward blk reorder phys inp aInv sweep x.
Proof.
  intros Hsweep Hinit. unfold LUSGS_Forward, for_up.
  rewrite Hinit, bool_decide_eq_false_2 by lia. done.
Qed.

(** C3: on a reorder table of the length of the block whose cells both
    arrays have, LUSGS_Forward returns the update that results from visiting
    the cells in table order and setting each to A^-1(c) (b + off), with
    b = -1/theta R(c) + dNm1(c) - dMmN(c) and off = ImplicitLower, minus
    ImplicitUpper exactly when sweep > 0 or MatrixRequiresInitialization;
    on the zeroth sweep of an uninitialised update the upper action is
    skipped: the result is the same whatever the upper action is. *)
Theorem LUSGS_Forward_spec blk reorder phys inp aInv sweep x :
  Z.of_nat (length reorder) = NumCells blk →
  in_range aInv x reorder →
  LUSGS_Forward blk reorder phys inp aInv sweep x
  = Ok (spec_LUSGS_Forward blk phys inp aInv sweep reorder x) ∧
  (sweep ≤ 0 → MatrixRequiresInitialization inp = false →
   ∀ upper,
     LUSGS_Forward (with_ImplicitUpper blk upper) reorder phys inp aInv
       sweep x
     = LUSGS_Forward blk reorder phys inp aInv sweep x).
Proof.
  intros Hlen Hrange. split.
  - by apply LUSGS_Forward_entries.
  - intros Hsweep Hinit upper. by apply LUSGS_Forward_skips_upper.
Qed.

Lemma LUSGS_Backward_entries blk reorder phys inp aInv sweep x :
  Z.of_nat (length reorder) = NumCells blk →
  in_range aInv x reorder →
  LUSGS_Backward blk reorder phys inp aInv sweep x
  = Ok (spec_LUSGS_Backward blk phys inp aInv sweep reorder x).
Proof.
  intros Hlen Hrange. unfold LUSGS_Backward, spec_LUSGS_Backward.
  rewrite for_down_vec_at by done.
  match goal with
  | |- context [foldM ?g ?l ?s] =>
      destruct (foldM_pure
        (λ st : gmap vector3d varArray * varArray,
           ∀ c, is_Some (st.1 !! c) ↔ is_Some (x !! c))
        g (spec_backward_cell blk phys inp aInv sweep) l s) as [-> _];
        [|done|]
  end; last first.
  { simpl. by destruct (fold_left _ _ _). }
  intros c [x' l2] Hc Hx'. simpl in Hx'.
  rewrite elem_of_reverse in Hc.
  destruct (Hrange c Hc) as [[a Ha] Hxc]. apply Hx' in Hxc as Hxc'.
  destruct Hxc' as [xold Hxold].
  unfold spec_backward_cell, spec_backward_value. simpl. rewrite Ha, Hxold.
  rewrite (proj2 (GetCopy_Ok x' c xold) Hxold). simpl.
  destruct (bool_decide (sweep > 0) || MatrixRequiresInitialization inp).
  - erewrite ArrayMult_Some by done. simpl.
    rewrite InsertBlock_Some by done. simpl.
    erewrite (proj2 (GetCopy_Ok _ c _)) by apply lookup_insert_eq. simpl.
    split; [done|]. intros k. by rewrite is_Some_insert_present, Hx'.
  - erewrite ArrayMult_Some by done. simpl.
    rewrite InsertBlock_Some by done. simpl.
    erewrite (proj2 (GetCopy_Ok _ c _)) by apply lookup_insert_eq. simpl.
    split; [done|]. intros k. by rewrite is_Some_insert_present, Hx'.
Qed.

(** C2: on a reorder table of the length of the block whose cells both
    arrays have, LUSGS_Backward returns what results from visiting the
    table in exactly reversed order; at each cell, if sweep > 0 or
    MatrixRequiresInitialization the cell is set to A^-1(c) (b + L - U) with
    b = -1/theta R(c) + dNm1(c) - dMmN(c), otherwise to the old value minus
    A^-1(c) U; the component-wise squared change of the cell is accumulated
    at every cell and the sum of the total is returned as the L2 error. *)
Theorem LUSGS_Backward_spec blk reorder phys inp aInv sweep x :
  Z.of_nat (length reorder) = NumCells blk →
  in_range aInv x reorder →
  LUSGS_Backward blk reorder phys inp aInv sweep x
  = Ok (spec_LUSGS_Backward blk phys inp aInv sweep reorder x).
Proof. apply LUSGS_Backward_entries. Qed.

(** The LU-SGS sweeps write at entries of the reorder table only. *)
Lemma LUSGS_Forward_frame blk reorder phys inp aInv sweep x x' k :
  k ∉ reorder →
  LUSGS_Forward blk reorder phys inp aInv sweep x = Ok x' →
  x' !! k = x !! k.
Proof.
  intros Hk. unfold LUSGS_Forward, for_up.
  apply (foldM_invariant (λ t, t !! k = x !! k)); [|done].
  intros nn t t' _ Ht Hbody.
  apply bind_Ok_inv in Hbody as (c & Hc & Hbody).
  apply vec_at_Ok in Hc as [_ Hc%list_elem_of_lookup_2].
  apply bind_Ok_inv in Hbody as (v & _ & Hbody).
  apply InsertBlock_Ok in Hbody as [_ ->].
  rewrite lookup_insert_ne; [done|]. by intros ->.
Qed.

Lemma LUSGS_Backward_frame blk reorder phys inp aInv sweep x x' e k :
  k ∉ reorder →
  LUSGS_Backward blk reorder phys inp aInv sweep x = Ok (x', e) →
  x' !! k = x !! k.
Proof.
  intros Hk. unfold LUSGS_Backward, for_down. intros Hrun.
  apply bind_Ok_inv in Hrun as ([x'' l2] & Hrun & [= <- _]).
  revert Hrun.
  apply (foldM_invariant
           (λ st : gmap vector3d varArray * varArray, st.1 !! k = x !! k));
    [|done].
  intros nn [t l] [t' l'] _ Ht Hbody. simpl in *.
  apply bind_Ok_inv in Hbody as (c & Hc & Hbody).
  apply vec_at_Ok in Hc as [_ Hc%list_elem_of_lookup_2].
  apply bind_Ok_inv in Hbody as (xold & _ & Hbody).
  apply bind_Ok_inv in Hbody as (t'' & Hins & Hbody).
  apply bind_Ok_inv in Hbody as (xnew & _ & [= <- _]).
  assert (c ≠ k) by (by intros ->).
  destruct (bool_decide (sweep > 0) || MatrixRequiresInitialization inp);
    apply bind_Ok_inv in Hins as (v & _ & Hins);
    apply InsertBlock_Ok in Hins as [_ ->];
    by rewrite lookup_insert_ne.
Qed.

End Sweeps.

(** ** The DP-LUR sweep *)

Section DPLURSweep.
Context `{Arith : Arithmetic} {physics : Type}.
Implicit Type blk : @procBlock Arith physics.
Implicit Type x xold : gmap vector3d varArray.
Implicit Type aInv : gmap vector3d squareMatrix.
Implicit Type cells : list vector3d.

Lemma DPLUR_cell_run blk phys inp aInv xold c x l2 :
  (∀ k, is_Some (x !! k) ↔ is_Some (xold !! k)) →
  DPLUR_cell blk phys inp aInv (d_div d_lit1 (Theta inp)) xold
    (X c) (Y c) (Z_ c) (x, l2)
  = match DPLUR_value blk phys inp aInv xold c,
          DPLUR_change blk phys inp aInv xold c with
    | Some v, Some e => Ok (<[c := v]> x, va_add l2 e)
    | _, _ => Fail OutOfBounds
    end.
Proof.
  intros Hdom. unfold DPLUR_cell, DPLUR_change, DPLUR_value, ArrayMult.
  destruct (aInv !! c) as [a|] eqn:Ha.
  - rewrite (proj2 (GetCopy_Ok aInv c a) Ha). simpl.
    destruct (xold !! c) as [xo|] eqn:Hxo.
    + rewrite InsertBlock_Some by (apply Hdom; eauto). simpl.
      rewrite (proj2 (GetCopy_Ok (<[c := _]> x) c _) (lookup_insert_eq x c _)).
      simpl. by rewrite (proj2 (GetCopy_Ok xold c xo) Hxo).
    + rewrite InsertBlock_None; [done|].
      apply eq_None_not_Some. rewrite Hdom, Hxo. by intros [? ?].
  - by rewrite (GetCopy_None aInv c Ha).
Qed.

Lemma DPLUR_change_value blk phys inp aInv xold c :
  is_Some (DPLUR_change blk phys inp aInv xold c) →
  is_Some (DPLUR_value blk phys inp aInv xold c).
Proof.
  unfold DPLUR_change.
  destruct (DPLUR_value blk phys inp aInv xold c); [eauto|by intros [? ?]].
Qed.

Lemma DPLUR_loop blk phys inp aInv xold cells x l2 :
  (∀ k, is_Some (x !! k) ↔ is_Some (xold !! k)) →
  foldM (λ c, DPLUR_cell blk phys inp aInv (d_div d_lit1 (Theta inp)) xold
                (X c) (Y c) (Z_ c)) cells (x, l2)
  = if decide (Forall (λ c, is_Some (DPLUR_change blk phys inp aInv xold c))
                 cells)
    then Ok (DPLUR_update blk phys inp aInv xold cells x,
             DPLUR_error blk phys inp aInv xold cells l2)
    else Fail OutOfBounds.
Proof.
  revert x l2. induction cells as [|c cells IH]; intros x l2 Hdom.
  - by rewrite decide_True by constructor.
  - rewrite foldM_cons, DPLUR_cell_run by done.
    destruct (DPLUR_change blk phys inp aInv xold c) as [e|] eqn:He.
    + destruct (DPLUR_change_value blk phys inp aInv xold c) as [v Hv];
        [by rewrite He|].
      rewrite Hv. simpl. rewrite IH.
      * unfold DPLUR_update, DPLUR_error. simpl. rewrite Hv, He. simpl.
        destruct (decide (Forall _ cells)) as [Hall|Hall].
        -- rewrite decide_True; [done|]. constructor; [by rewrite He|done].
        -- rewrite decide_False; [done|]. by intros [_ ?]%Forall_cons.
      * intros k. rewrite <- Hdom. apply is_Some_insert_present.
        apply Hdom. unfold DPLUR_change in He. rewrite Hv in He. simpl in He.
        destruct (xold !! c); [eauto|done].
    + rewrite decide_False.
      * by destruct (DPLUR_value blk phys inp aInv xold c).
      * intros [[? ?] _]%Forall_cons. congruence.
Qed.

Lemma DPLUR_in_order_run cells blk phys inp aInv x :
  DPLUR_in_order cells blk phys inp aInv x
  = if decide (Forall (λ c, is_Some (DPLUR_change blk phys inp aInv x c))
                 cells)
    then Ok (DPLUR_update blk phys inp aInv x cells x,
             va_Sum (DPLUR_error blk phys inp aInv x cells
                       (varArray_ctor (NumEquations inp) (NumSpecies inp)
                          d_lit0)))
    else Fail OutOfBounds.
Proof.
  unfold DPLUR_in_order. rewrite DPLUR_loop by done.
  by destruct (decide _).
Qed.

(** The loop nest of [DPLUR] visits the interior cells. *)
Lemma DPLUR_natural_order blk phys inp aInv x :
  DPLUR blk phys inp aInv x
  = DPLUR_in_order (interiorCells blk) blk phys inp aInv x.
Proof. unfold DPLUR, DPLUR_in_order. by rewrite for_up_nest. Qed.

Lemma DPLUR_update_lookup blk phys inp aInv xold cells x k :
  DPLUR_update blk phys inp aInv xold cells x !! k
  = if decide (k ∈ cells)
    then from_option Some (x !! k) (DPLUR_value blk phys inp aInv xold k)
    else x !! k.
Proof. apply write_cells_lookup. Qed.

(** The array after the sweep does not depend on the order of the cells. *)
Lemma DPLUR_update_permutation blk phys inp aInv xold cells cells' x :
  cells ≡ₚ cells' →
  DPLUR_update blk phys inp aInv xold cells x
  = DPLUR_update blk phys inp aInv xold cells' x.
Proof.
  intros Hperm. apply map_eq. intros k. rewrite !DPLUR_update_lookup.
  destruct (decide (k ∈ cells)) as [Hin|Hin].
  - rewrite decide_True; [done|]. by rewrite <- Hperm.
  - rewrite decide_False; [done|]. by rewrite <- Hperm.
Qed.

(** The accumulated error does not depend on the order of the cells when
    the addition of [varArray] is associative and commutative. *)
Lemma DPLUR_error_permutation blk phys inp aInv xold cells cells' l2 :
  (∀ u v w, va_add u (va_add v w) = va_add (va_add u v) w) →
  (∀ u v, va_add u v = va_add v u) →
  cells ≡ₚ cells' →
  DPLUR_error blk phys inp aInv xold cells l2
  = DPLUR_error blk phys inp aInv xold cells' l2.
Proof.
  intros Hassoc Hcomm Hperm. unfold DPLUR_error. revert l2.
  induction Hperm as [|c l l' _ IH|c d l|l l' l'' _ IH _ IH'];
    intros l2; simpl.
  - done.
  - apply IH.
  - f_equal.
    destruct (DPLUR_change blk phys inp aInv xold c) as [e|],
             (DPLUR_change blk phys inp aInv xold d) as [e'|]; simpl; try done.
    by rewrite <- !Hassoc, (Hcomm e e').
  - by rewrite IH.
Qed.

Lemma elem_of_interiorCells blk c : c ∈ interiorCells blk ↔ interior blk c.
Proof. apply elem_of_cellsKJI. Qed.

Lemma DPLUR_frame blk phys inp aInv x x' e k :
  ¬ interior blk k →
  DPLUR blk phys inp aInv x = Ok (x', e) → x' !! k = x !! k.
Proof.
  intros Hk. rewrite DPLUR_natural_order, DPLUR_in_order_run.
  destruct (decide _); [|done]. intros [= <- _].
  rewrite DPLUR_update_lookup, decide_False; [done|].
  by rewrite elem_of_interiorCells.
Qed.

(** C7: a DP-LUR sweep evaluates the neighbours on the copy of the update
    taken at entry.  For every block and entry state, visiting the interior
    cells in any permuted order gives the same update field: every interior
    cell holds [DPLUR_value], which reads the entry state only, and every
    other cell is as before.  The L2 error is the sum, accumulated in the
    order of the visit, of the squared changes [DPLUR_change] of the cells,
    each of which reads the entry state only; the terms are the same in
    every order, the accumulated sum is the same when the addition of the
    accumulation is associative and commutative, which the addition of
    [double] is not. *)
Theorem DPLUR_order_independent blk phys inp aInv x cells :
  cells ≡ₚ interiorCells blk →
  let zero := varArray_ctor (NumEquations inp) (NumSpecies inp) d_lit0 in
  (fst <$> DPLUR_in_order cells blk phys inp aInv x
   = fst <$> DPLUR blk phys inp aInv x) ∧
  (∀ x' e, DPLUR_in_order cells blk phys inp aInv x = Ok (x', e) →
     (∀ c, x' !! c = if decide (interior blk c)
                     then DPLUR_value blk phys inp aInv x c
                     else x !! c) ∧
     e = va_Sum (DPLUR_error blk phys inp aInv x cells zero)) ∧
  (∀ x' e, DPLUR blk phys inp aInv x = Ok (x', e) →
     (∀ c, x' !! c = if decide (interior blk c)
                     then DPLUR_value blk phys inp aInv x c
                     else x !! c) ∧
     e = va_Sum (DPLUR_error blk phys inp aInv x (interiorCells blk) zero)) ∧
  ((∀ u v w, va_add u (va_add v w) = va_add (va_add u v) w) →
   (∀ u v, va_add u v = va_add v u) →
   DPLUR_in_order cells blk phys inp aInv x = DPLUR blk phys inp aInv x).
Proof.
  intros Hperm zero. rewrite DPLUR_natural_order, !DPLUR_in_order_run.
  assert (Hall :
    Forall (λ c, is_Some (DPLUR_change blk phys inp aInv x c)) cells ↔
    Forall (λ c, is_Some (DPLUR_change blk phys inp aInv x c))
      (interiorCells blk)) by (by rewrite Hperm).
  assert (Hfield : ∀ l : list vector3d,
    l ≡ₚ interiorCells blk →
    Forall (λ c, is_Some (DPLUR_change blk phys inp aInv x c)) l →
    ∀ c, DPLUR_update blk phys inp aInv x l x !! c
         = if decide (interior blk c)
           then DPLUR_value blk phys inp aInv x c
           else x !! c).
  { intros l Hl Hc c. rewrite DPLUR_update_lookup.
    destruct (decide (interior blk c)) as [Hint|Hint].
    - rewrite decide_True by (by rewrite Hl; apply elem_of_interiorCells).
      rewrite Forall_forall in Hc.
      destruct (DPLUR_change_value blk phys inp aInv x c) as [v ->]; [|done].
      apply Hc. rewrite Hl. by apply elem_of_interiorCells.
    - rewrite decide_False; [done|]. by rewrite Hl, elem_of_interiorCells. }
  split; [|split; [|split]].
  - destruct (decide (Forall _ cells)) as [Hc|Hc].
    + rewrite decide_True by (by apply Hall). simpl.
      by rewrite (DPLUR_update_permutation _ _ _ _ _ _ _ _ Hperm).
    + rewrite decide_False; [done|]. by rewrite <- Hall.
  - intros x' e. destruct (decide _) as [Hc|]; [|done]. intros [= <- <-].
    split; [|done]. by apply Hfield.
  - intros x' e. destruct (decide _) as [Hc|]; [|done]. intros [= <- <-].
    split; [|done]. by apply Hfield.
  - intros Hassoc Hcomm. destruct (decide (Forall _ cells)) as [Hc|Hc].
    + rewrite decide_True by (by apply Hall).
      rewrite (DPLUR_update_permutation _ _ _ _ _ _ _ _ Hperm).
      by rewrite (DPLUR_error_permutation _ _ _ _ _ _ _ _ Hassoc Hcomm Hperm).
    + rewrite decide_False; [done|]. by rewrite <- Hall.
Qed.

(** C10: a sweep writes the update at interior cells only.  The LU-SGS
    sweeps leave every cell that is not an entry of the reorder table as it
    was; on the reorder table of the block (the one the constructor builds)
    the forward sweep, the backward sweep, and the DP-LUR sweep alike,
    leave every cell that is not an interior cell, so every ghost cell, as
    it was before the sweep. *)
Theorem sweeps_leave_ghosts blk phys inp aInv sweep x reorder c :
  (c ∉ reorder →
   (∀ x', LUSGS_Forward blk reorder phys inp aInv sweep x = Ok x' →
          x' !! c = x !! c) ∧
   (∀ x' e, LUSGS_Backward blk reorder phys inp aInv sweep x = Ok (x', e) →
            x' !! c = x !! c)) ∧
  (¬ interior blk c →
   (∀ x', LUSGS_Forward blk
            (HyperplaneReorder (NumI blk) (NumJ blk) (NumK blk))
            phys inp aInv sweep x = Ok x' →
          x' !! c = x !! c) ∧
   (∀ x' e, LUSGS_Backward blk
              (HyperplaneReorder (NumI blk) (NumJ blk) (NumK blk))
              phys inp aInv sweep x = Ok (x', e) →
            x' !! c = x !! c) ∧
   (∀ x' e, DPLUR blk phys inp aInv x = Ok (x', e) → x' !! c = x !! c)).
Proof.
  split.
  - intros Hc. split.
    + intros x'. by apply LUSGS_Forward_frame.
    + intros x' e. by apply LUSGS_Backward_frame.
  - intros Hc.
    assert (c ∉ HyperplaneReorder (NumI blk) (NumJ blk) (NumK blk))
      by (by rewrite elem_of_HyperplaneReorder).
    split; [|split].
    + intros x'. by apply LUSGS_Forward_frame.
    + intros x' e. by apply LUSGS_Backward_frame.
    + intros x' e. by apply DPLUR_frame.
Qed.

End DPLURSweep.

(** ** The initializer and the diagonal inverter *)

Section Diagonal.
Context `{Arith : Arithmetic} {physics : Type}.
Implicit Type blk : @procBlock Arith physics.
Implicit Type aInv mainDiagonal : gmap vector3d squareMatrix.

Lemma blkMultiArray3d_ctor_lookup (ni nj nk ng neq ns : Z) (val : double)
  (c : vector3d) :
  blkMultiArray3d_ctor ni nj nk ng neq ns val !! c
  = if decide (in_box (- ng) (ni + ng) (- ng) (nj + ng) (- ng) (nk + ng) c)
    then Some (varArray_ctor neq ns val) else None.
Proof.
  unfold blkMultiArray3d_ctor. destruct (decide _) as [Hc|Hc].
  - apply elem_of_list_to_map_1'.
    + intros y (c' & [= <- ->] & _)%list_elem_of_fmap. done.
    + apply list_elem_of_fmap. exists c. split; [done|].
      by apply elem_of_cellsKJI.
  - apply not_elem_of_list_to_map_1.
    rewrite <- list_fmap_compose.
    intros (c' & -> & Hc')%list_elem_of_fmap.
    by apply Hc, elem_of_cellsKJI.
Qed.

Lemma interior_with_ghosts blk c :
  0 ≤ NumGhosts blk → interior blk c → with_ghosts blk c.
Proof. unfold interior, with_ghosts, in_box, StartI, EndI, StartJ, EndJ,
         StartK, EndK. lia. Qed.

Lemma InitializeMatrixUpdate_run blk inp phys aInv :
  MatrixRequiresInitialization inp = true →
  0 ≤ NumGhosts blk → covers aInv blk →
  InitializeMatrixUpdate blk inp phys aInv
  = Ok (write_cells (spec_init_value blk phys inp aInv) (interiorCells blk)
          (blkMultiArray3d_ctor (NumI blk) (NumJ blk) (NumK blk)
             (NumGhosts blk) (NumEquations inp) (NumSpecies inp) d_lit0)).
Proof.
  intros Hinit Hng Hcov. unfold InitializeMatrixUpdate.
  rewrite Hinit, for_up_nest.
  eapply (foldM_pure (λ x : gmap vector3d varArray, covers x blk)).
  - intros c x Hc%elem_of_interiorCells Hx.
    destruct (Hcov c Hc) as [a Ha]. unfold spec_init_value. rewrite Ha.
    erewrite ArrayMult_Some by done. simpl.
    rewrite InsertBlock_Some by auto. split; [done|].
    intros k Hk. rewrite is_Some_insert_present; auto.
  - intros c Hc. rewrite blkMultiArray3d_ctor_lookup, decide_True; [eauto|].
    by apply interior_with_ghosts.
Qed.

(** C4: InitializeMatrixUpdate returns an array indexed like the block,
    ghost layers included.  If MatrixRequiresInitialization is false every
    cell of it, interior or ghost, is zero.  Otherwise (for a block with a
    non-negative number of ghost layers and a diagonal that has the interior
    cells) every interior cell c holds
    A^-1(c) (-1/theta R(c) + dNm1(c) - dMmN(c)) and every ghost cell is
    zero. *)
Theorem InitializeMatrixUpdate_spec blk inp phys aInv :
  let zero := varArray_ctor (NumEquations inp) (NumSpecies inp) d_lit0 in
  (MatrixRequiresInitialization inp = false →
   ∃ x, InitializeMatrixUpdate blk inp phys aInv = Ok x ∧
        ∀ c, x !! c = if decide (with_ghosts blk c) then Some zero else None) ∧
  (MatrixRequiresInitialization inp = true →
   0 ≤ NumGhosts blk → covers aInv blk →
   ∃ x, InitializeMatrixUpdate blk inp phys aInv = Ok x ∧
        ∀ c, x !! c = if decide (interior blk c)
                      then spec_init_value blk phys inp aInv c
                      else if decide (with_ghosts blk c) then Some zero
                           else None).
Proof.
  intros zero. split.
  - intros Hinit. eexists. split.
    + unfold InitializeMatrixUpdate. by rewrite Hinit.
    + intros c. apply blkMultiArray3d_ctor_lookup.
  - intros Hinit Hng Hcov. eexists. split.
    + by apply InitializeMatrixUpdate_run.
    + intros c. rewrite write_cells_lookup, blkMultiArray3d_ctor_lookup.
      destruct (decide (interior blk c)) as [Hc|Hc].
      * rewrite decide_True by (by apply elem_of_interiorCells).
        destruct (Hcov c Hc) as [a Ha]. unfold spec_init_value.
        by rewrite Ha.
      * rewrite decide_False; [done|]. by rewrite elem_of_interiorCells.
Qed.






End Diagonal.

(** ** The relaxation drivers *)

Section Drivers.
Context `{Arith : Arithmetic} {physics : Type} `{Net : !Transport}.
Implicit Type level : @gridLevel Arith physics connection.
Implicit Type du : list (gmap vector3d varArray).
Implicit Type m : machine.

Lemma Block_first level :
  blocks level ≠ [] → ∃ blk0, Block level 0 = Ok blk0.
Proof.
  unfold Block. destruct (blocks level) as [|blk0 bs]; [done|]. eauto.
Qed.

Lemma for_up_none {S} (lo hi : Z) (body : Z → S → result S) (s : S) :
  hi ≤ lo → for_up lo hi body s = Ok s.
Proof. intros Hle. unfold for_up. by rewrite seqZ_nil by lia. Qed.

Lemma lusgs_Relax_no_sweeps_inv (self : lusgs) level (phys : physics)
  (inp : input) (rank sweeps : Z) du m r :
  sweeps ≤ 0 →
  lusgs_Relax self level phys inp rank sweeps du m = Ok r →
  r = (d_lit0, du, m).
Proof.
  intros Hsweeps. unfold lusgs_Relax. intros Hrun.
  apply bind_Ok_inv in Hrun as (_ & _ & Hrun).
  apply bind_Ok_inv in Hrun as (_ & _ & Hrun).
  apply bind_Ok_inv in Hrun as (blk0 & _ & Hrun).
  rewrite for_up_none in Hrun by done. by injection Hrun as <-.
Qed.

Lemma dplur_Relax_no_sweeps_inv level (phys : physics)
  (inp : input) (rank sweeps : Z) du m r :
  sweeps ≤ 0 →
  dplur_Relax level phys inp rank sweeps du m = Ok r →
  r = (d_lit0, du, m).
Proof.
  intros Hsweeps. unfold dplur_Relax. intros Hrun.
  apply bind_Ok_inv in Hrun as (_ & _ & Hrun).
  apply bind_Ok_inv in Hrun as (blk0 & _ & Hrun).
  rewrite for_up_none in Hrun by done. by injection Hrun as <-.
Qed.

(** C8: for both solvers, a call of Relax with sweeps <= 0 is a no-op.
    Whatever such a call returns is 0 together with every update array as
    it was, the world and the log of exchanges and sweeps as before: no
    sweep and no ghost exchange took place.  And the call does return on
    a level with at least one block and one update array per block (and
    one reorder table per block for lusgs). *)
Theorem Relax_without_sweeps (self : lusgs) level (phys : physics)
  (inp : input) (rank sweeps : Z) du m :
  sweeps ≤ 0 →
  (∀ r, lusgs_Relax self level phys inp rank sweeps du m = Ok r ∨
        dplur_Relax level phys inp rank sweeps du m = Ok r →
        r = (d_lit0, du, m)) ∧
  (blocks level ≠ [] →
   length du = length (blocks level) →
   (length (reorder_ self) = length du →
    lusgs_Relax self level phys inp rank sweeps du m = Ok (d_lit0, du, m)) ∧
   dplur_Relax level phys inp rank sweeps du m = Ok (d_lit0, du, m)).
Proof.
  intros Hsweeps. split.
  { intros r [Hrun|Hrun].
    - by eapply lusgs_Relax_no_sweeps_inv.
    - by eapply dplur_Relax_no_sweeps_inv. }
  intros Hblocks Hdu.
  destruct (Block_first level Hblocks) as [blk0 Hblk0].
  split.
  - intros Hreorder. unfold lusgs_Relax, NumBlocks.
    rewrite !bool_decide_eq_true_2 by (done || lia). simpl.
    rewrite Hblk0. simpl. by apply for_up_none.
  - unfold dplur_Relax, NumBlocks.
    rewrite !bool_decide_eq_true_2 by lia. simpl.
    rewrite Hblk0. simpl. by rewrite for_up_none.
Qed.

(** On arrays that have the interior cells the DP-LUR sweep returns, and
    the array it returns has them. *)
Lemma DPLUR_total (blk : procBlock) (phys : physics) (inp : input)
  (aInv : gmap vector3d squareMatrix) (x : gmap vector3d varArray) :
  covers aInv blk → covers x blk →
  ∃ x' e, DPLUR blk phys inp aInv x = Ok (x', e) ∧ covers x' blk.
Proof.
  intros Ha Hx. rewrite DPLUR_natural_order, DPLUR_in_order_run.
  assert (Hall : ∀ c, interior blk c →
            is_Some (DPLUR_change blk phys inp aInv x c)).
  { intros c Hc. destruct (Ha c Hc) as [a Hac], (Hx c Hc) as [v Hxc].
    unfold DPLUR_change, DPLUR_value. rewrite Hac. simpl. rewrite Hxc.
    by eexists. }
  rewrite decide_True.
  - do 2 eexists. split; [done|]. intros c Hc.
    rewrite DPLUR_update_lookup, decide_True
      by (by apply elem_of_interiorCells).
    destruct (DPLUR_change_value blk phys inp aInv x c) as [v ->]; eauto.
  - apply Forall_forall. intros c Hc%elem_of_interiorCells. auto.
Qed.

(** One DP-LUR pass over the blocks of a level runs to completion. *)
Lemma dplur_blocks_total level (phys : physics) (inp : input) du m :
  shaped level du → diagonals_shaped level →
  ∃ st, for_up 0 (NumBlocks level) (λ bb '(du, m),
          blk ← Block level bb;
          aInv ← Diagonal level bb;
          x ← vec_at du bb;
          '(x, _) ← DPLUR blk phys inp aInv x;
          du ← vec_set du bb x;
          Ok (du, log (DPLUREv bb) m)) (du, m) = Ok st ∧
        shaped level st.1.
Proof.
  intros Hdu Hdiag. unfold for_up.
  apply (foldM_total
    (λ st : list (gmap vector3d varArray) * machine, shaped level st.1));
    [|done].
  intros bb [du1 m1] Hbb%elem_of_seqZ Hdu1. simpl in Hdu1.
  unfold NumBlocks in Hbb.
  destruct (lookup_lt_is_Some_2 (blocks level) (Z.to_nat bb))
    as [blk Hblk]; [lia|].
  destruct (Forall2_lookup_l _ _ _ _ _ Hdiag Hblk) as (aInv & HaInv & Hca).
  destruct (Forall2_lookup_l _ _ _ _ _ Hdu1 Hblk) as (x & Hx & Hcx).
  destruct (DPLUR_total blk phys inp aInv x Hca Hcx) as (x' & e & Hrun & Hcx').
  unfold Block, Diagonal, vec_set.
  rewrite (proj2 (vec_at_Ok (blocks level) bb blk)) by (split; [lia|done]).
  simpl.
  rewrite (proj2 (vec_at_Ok (diagonal level) bb aInv)) by (split; [lia|done]).
  simpl.
  rewrite (proj2 (vec_at_Ok du1 bb x)) by (split; [lia|done]). simpl.
  rewrite Hrun. simpl. eexists. split; [done|]. simpl.
  unfold shaped. rewrite <- (list_insert_id (blocks level) _ _ Hblk).
  by apply Forall2_insert.
Qed.

(** On a level with a block, with update arrays and diagonals that have
    the interior cells of their blocks, and an exchange that keeps them,
    dplur::Relax returns. *)
Lemma dplur_Relax_total level (phys : physics) (inp : input)
  (rank sweeps : Z) du m :
  blocks level ≠ [] → shaped level du → diagonals_shaped level →
  exchange_keeps_shape level →
  ∃ du' m', dplur_Relax level phys inp rank sweeps du m
            = Ok (d_lit0, du', m').
Proof.
  intros Hblocks Hdu Hdiag Hswap.
  destruct (Block_first level Hblocks) as [blk0 Hblk0].
  unfold dplur_Relax, NumBlocks.
  rewrite bool_decide_eq_true_2
    by (by rewrite (Forall2_length _ _ _ Hdu)).
  simpl. rewrite Hblk0. simpl.
  destruct (foldM_total
    (λ st : list (gmap vector3d varArray) * machine, shaped level st.1)
    (λ ii '(du, m),
       let '(du, m) :=
         swap du (Connections level) rank (NumGhosts blk0) m in
       for_up 0 (NumBlocks level) (λ bb '(du, m),
         blk ← Block level bb;
         aInv ← Diagonal level bb;
         x ← vec_at du bb;
         '(x, _) ← DPLUR blk phys inp aInv x;
         du ← vec_set du bb x;
         Ok (du, log (DPLUREv bb) m)) (du, m))
    (seqZ 0 (sweeps - 0)) (du, m)) as ([du' m'] & Hrun & _); [|done|].
  - intros ii [du1 m1] _ Hdu1. simpl in Hdu1.
    pose proof (Hswap du1 (Connections level) rank (NumGhosts blk0)
                  (theWorld m1) Hdu1) as Hdu2.
    unfold swap.
    destruct (SwapImplicitUpdate du1 (Connections level) rank
                (NumGhosts blk0) (theWorld m1)) as [du2 w2].
    by apply dplur_blocks_total.
  - unfold for_up at 1. unfold NumBlocks in Hrun. rewrite Hrun. simpl. eauto.
Qed.

End Drivers.

(** ** The sweeps on the table the constructor builds *)

Section BlockTable.
Context `{Arith : Arithmetic} {physics : Type}.
Implicit Type blk : @procBlock Arith physics.

Lemma reorder_table_length blk :
  0 ≤ NumI blk → 0 ≤ NumJ blk → 0 ≤ NumK blk →
  Z.of_nat (length (HyperplaneReorder (NumI blk) (NumJ blk) (NumK blk)))
  = NumCells blk.
Proof.
  intros Hi Hj Hk.
  destruct (HyperplaneReorder_ordering (NumI blk) (NumJ blk) (NumK blk))
    as (_ & _ & -> & _).
  unfold NumCells. by rewrite !Z.max_r.
Qed.

Lemma reorder_table_in_range blk (aInv : gmap vector3d squareMatrix)
  (x : gmap vector3d varArray) :
  covers aInv blk → covers x blk →
  in_range aInv x (HyperplaneReorder (NumI blk) (NumJ blk) (NumK blk)).
Proof.
  intros Ha Hx c Hc%elem_of_HyperplaneReorder. split; [by apply Ha|by apply Hx].
Qed.

(** On a block of non-negative extents, with arrays that have its interior
    cells, both LU-SGS sweeps over the table of the constructor return what
    the specification says. *)
Corollary LUSGS_sweeps_on_block_table blk (phys : physics) (inp : input)
  (aInv : gmap vector3d squareMatrix) (sweep : Z)
  (x : gmap vector3d varArray) :
  0 ≤ NumI blk → 0 ≤ NumJ blk → 0 ≤ NumK blk →
  covers aInv blk → covers x blk →
  let table := HyperplaneReorder (NumI blk) (NumJ blk) (NumK blk) in
  LUSGS_Forward blk table phys inp aInv sweep x
  = Ok (spec_LUSGS_Forward blk phys inp aInv sweep table x) ∧
  LUSGS_Backward blk table phys inp aInv sweep x
  = Ok (spec_LUSGS_Backward blk phys inp aInv sweep table x).
Proof.
  intros Hi Hj Hk Ha Hx table. split.
  - apply LUSGS_Forward_entries;
      [by apply reorder_table_length|by apply reorder_table_in_range].
  - apply LUSGS_Backward_entries;
      [by apply reorder_table_length|by apply reorder_table_in_range].
Qed.

End BlockTable.

(** * Further properties of the code *)

(** ** Loops with a guard *)

(** A loop whose body either fails with [f] or takes one step, according to
    a condition on the index alone, fails with [f] unless every index
    passes. *)
Lemma foldM_guarded {S I} (P : S → Prop) (ok : I → Prop)
  `{∀ i, Decision (ok i)} (f : failure) (body : I → S → result S)
  (step : S → I → S) (l : list I) (s : S) :
  (∀ i t, i ∈ l → P t →
     body i t = if decide (ok i) then Ok (step t i) else Fail f) →
  (∀ i t, i ∈ l → P t → ok i → P (step t i)) →
  P s →
  foldM body l s
  = if decide (Forall ok l) then Ok (fold_left step l s) else Fail f.
Proof.
  revert s. induction l as [|i l IH]; intros s Hbody Hstep Hs.
  - by rewrite decide_True by constructor.
  - rewrite foldM_cons, Hbody by (done || left).
    destruct (decide (ok i)) as [Hi|Hi]; simpl.
    + rewrite IH.
      * destruct (decide (Forall ok l)) as [Hl|Hl].
        -- by rewrite decide_True by (by constructor).
        -- rewrite decide_False; [done|]. by intros [_ ?]%Forall_cons.
      * intros j t Hj. apply Hbody. by right.
      * intros j t Hj. apply Hstep. by right.
      * apply Hstep; [left|done..].
    + rewrite decide_False; [done|]. by intros [? _]%Forall_cons.
Qed.

Lemma cellsKJI_empty (loI hiI loJ hiJ loK hiK : Z) :
  hiI ≤ loI ∨ hiJ ≤ loJ ∨ hiK ≤ loK →
  cellsKJI loI hiI loJ hiJ loK hiK = [].
Proof.
  intros Hempty. apply elem_of_nil_inv. intros c Hc%elem_of_cellsKJI.
  unfold in_box in Hc. lia.
Qed.

(** ** Which cells and which table entries the sweeps touch *)

Section Bounds.
Context `{Arith : Arithmetic} {physics : Type}.
Implicit Type blk : @procBlock Arith physics.
Implicit Type x : gmap vector3d varArray.
Implicit Type aInv : gmap vector3d squareMatrix.
Implicit Type reorder : list vector3d.

Lemma ArrayMult_None aInv c v :
  aInv !! c = None → ArrayMult aInv (X c) (Y c) (Z_ c) v = Fail OutOfBounds.
Proof. intros Ha. unfold ArrayMult. by rewrite (GetCopy_None aInv c Ha). Qed.

(** The body of the forward loop at a table entry *)
Lemma LUSGS_Forward_body blk phys inp aInv sweep x x' c :
  (∀ k, is_Some (x' !! k) ↔ is_Some (x !! k)) →
  (let ii := X c in
   let jj := Y c in
   let kk := Z_ c in
   let offDiagonal := ImplicitLower blk ii jj kk x' phys inp in
   let offDiagonal :=
     if bool_decide (sweep > 0) || MatrixRequiresInitialization inp
     then va_sub offDiagonal (ImplicitUpper blk ii jj kk x' phys inp)
     else offDiagonal in
   let b := rhs_b blk phys inp (d_div d_lit1 (Theta inp)) ii jj kk in
   v ← ArrayMult aInv ii jj kk (va_add b offDiagonal);
   InsertBlock x' ii jj kk v)
  = if decide (is_Some (aInv !! c) ∧ is_Some (x !! c))
    then Ok (spec_forward_cell blk phys inp aInv sweep x' c)
    else Fail OutOfBounds.
Proof.
  intros Hdom. cbv zeta. unfold spec_forward_cell.
  destruct (aInv !! c) as [a|] eqn:Ha.
  - erewrite ArrayMult_Some by done.
    destruct (x' !! c) as [w|] eqn:Hw.
    + rewrite decide_True by (split; [eauto|apply Hdom; eauto]).
      simpl. by rewrite InsertBlock_Some by eauto.
    + rewrite decide_False.
      * simpl. by rewrite InsertBlock_None by done.
      * intros [_ Hx%Hdom]. rewrite Hw in Hx. by destruct Hx.
  - rewrite decide_False by (by intros [[? ?] _]).
    by rewrite ArrayMult_None by done.
Qed.

(** The body of the backward loop at a table entry *)
Lemma LUSGS_Backward_body blk phys inp aInv sweep x x' l2 c :
  (∀ k, is_Some (x' !! k) ↔ is_Some (x !! k)) →
  (let '(x, l2Error) := (x', l2) in
   let ii := X c in
   let jj := Y c in
   let kk := Z_ c in
   let U := ImplicitUpper blk ii jj kk x phys inp in
   xold ← GetCopy x ii jj kk;
   x ← (if bool_decide (sweep > 0) || MatrixRequiresInitialization inp
        then
          let L := ImplicitLower blk ii jj kk x phys inp in
          let b := rhs_b blk phys inp (d_div d_lit1 (Theta inp)) ii jj kk in
          v ← ArrayMult aInv ii jj kk (va_sub (va_add b L) U);
          InsertBlock x ii jj kk v
        else
          v ← ArrayMult aInv ii jj kk U;
          InsertBlock x ii jj kk (va_sub xold v));
   xnew ← GetCopy x ii jj kk;
   let error := va_sub xnew xold in
   Ok (x, va_add l2Error (va_mul error error)))
  = if decide (is_Some (aInv !! c) ∧ is_Some (x !! c))
    then Ok (spec_backward_cell blk phys inp aInv sweep (x', l2) c)
    else Fail OutOfBounds.
Proof.
  intros Hdom. cbv zeta. unfold spec_backward_cell, spec_backward_value.
  cbn [fst snd].
  destruct (x' !! c) as [xold|] eqn:Hxold.
  - rewrite (proj2 (GetCopy_Ok x' c xold) Hxold).
    destruct (aInv !! c) as [a|] eqn:Ha.
    + rewrite decide_True by (split; [eauto|apply Hdom; eauto]). simpl.
      destruct (bool_decide (sweep > 0) || MatrixRequiresInitialization inp);
        erewrite ArrayMult_Some by done; simpl;
        rewrite InsertBlock_Some by eauto; simpl;
        rewrite (proj2 (GetCopy_Ok (<[c := _]> x') c _)
                   (lookup_insert_eq x' c _)); done.
    + rewrite decide_False by (by intros [[? ?] _]). simpl.
      by destruct (bool_decide (sweep > 0) || MatrixRequiresInitialization inp);
        rewrite ArrayMult_None by done.
  - rewrite (GetCopy_None x' c Hxold).
    rewrite decide_False; [done|]. intros [_ Hx%Hdom].
    rewrite Hxold in Hx. by destruct Hx.
Qed.

Lemma spec_forward_cell_cells blk phys inp aInv sweep x c k :
  is_Some (x !! c) →
  is_Some (spec_forward_cell blk phys inp aInv sweep x c !! k)
  ↔ is_Some (x !! k).
Proof.
  intros Hc. unfold spec_forward_cell. destruct (aInv !! c); [|done].
  by apply is_Some_insert_present.
Qed.

Lemma spec_backward_cell_cells blk (phys : physics) (inp : input) aInv
  (sweep : Z) (st : gmap vector3d varArray * varArray) (c k : vector3d) :
  is_Some ((spec_backward_cell blk phys inp aInv sweep st c).1 !! k)
  ↔ is_Some (st.1 !! k).
Proof.
  unfold spec_backward_cell. destruct (aInv !! c); [|done].
  destruct (st.1 !! c) eqn:Hc; [|done]. simpl.
  apply is_Some_insert_present. eauto.
Qed.

(** The forward loop over a list of table entries *)
Lemma LUSGS_Forward_loop blk phys inp aInv sweep x (entries : list vector3d) :
  foldM (λ c x',
     let ii := X c in
     let jj := Y c in
     let kk := Z_ c in
     let offDiagonal := ImplicitLower blk ii jj kk x' phys inp in
     let offDiagonal :=
       if bool_decide (sweep > 0) || MatrixRequiresInitialization inp
       then va_sub offDiagonal (ImplicitUpper blk ii jj kk x' phys inp)
       else offDiagonal in
     let b := rhs_b blk phys inp (d_div d_lit1 (Theta inp)) ii jj kk in
     v ← ArrayMult aInv ii jj kk (va_add b offDiagonal);
     InsertBlock x' ii jj kk v) entries x
  = if decide (Forall (λ c, is_Some (aInv !! c) ∧ is_Some (x !! c)) entries)
    then Ok (spec_LUSGS_Forward blk phys inp aInv sweep entries x)
    else Fail OutOfBounds.
Proof.
  apply (foldM_guarded (λ x', ∀ k, is_Some (x' !! k) ↔ is_Some (x !! k))).
  - intros c x' _ Hdom. by apply LUSGS_Forward_body.
  - intros c x' _ Hdom [_ Hc] k.
    rewrite spec_forward_cell_cells by (by apply Hdom). apply Hdom.
  - done.
Qed.

(** The backward loop over a list of table entries *)
Lemma LUSGS_Backward_loop blk phys inp aInv sweep x l2
  (entries : list vector3d) :
  foldM (λ c (st : gmap vector3d varArray * varArray),
     let '(x, l2Error) := st in
     let ii := X c in
     let jj := Y c in
     let kk := Z_ c in
     let U := ImplicitUpper blk ii jj kk x phys inp in
     xold ← GetCopy x ii jj kk;
     x ← (if bool_decide (sweep > 0) || MatrixRequiresInitialization inp
          then
            let L := ImplicitLower blk ii jj kk x phys inp in
            let b := rhs_b blk phys inp (d_div d_lit1 (Theta inp)) ii jj kk in
            v ← ArrayMult aInv ii jj kk (va_sub (va_add b L) U);
            InsertBlock x ii jj kk v
          else
            v ← ArrayMult aInv ii jj kk U;
            InsertBlock x ii jj kk (va_sub xold v));
     xnew ← GetCopy x ii jj kk;
     let error := va_sub xnew xold in
     Ok (x, va_add l2Error (va_mul error error))) entries (x, l2)
  = if decide (Forall (λ c, is_Some (aInv !! c) ∧ is_Some (x !! c)) entries)
    then Ok (fold_left (spec_backward_cell blk phys inp aInv sweep) entries
               (x, l2))
    else Fail OutOfBounds.
Proof.
  apply (foldM_guarded
    (λ st : gmap vector3d varArray * varArray,
       ∀ k, is_Some (st.1 !! k) ↔ is_Some (x !! k))).
  - intros c [x' l2'] _ Hdom. by apply LUSGS_Backward_body.
  - intros c st _ Hdom _ k. rewrite spec_backward_cell_cells. apply Hdom.
  - done.
Qed.

End Bounds.

Section Returns.
Context `{Arith : Arithmetic} {physics : Type}.
Implicit Type blk : @procBlock Arith physics.
Implicit Type x : gmap vector3d varArray.
Implicit Type aInv mainDiagonal : gmap vector3d squareMatrix.
Implicit Type reorder : list vector3d.

Lemma vec_at_visited {A} (v : list A) (n : nat) :
  (n ≤ length v)%nat →
  Forall2 (λ nn a, vec_at v nn = Ok a) (seqZ 0 (Z.of_nat n)) (take n v).
Proof.
  intros Hn. apply Forall2_same_length_lookup. split.
  - rewrite length_seqZ, length_take. lia.
  - intros i nn a Hnn Ha. apply lookup_seqZ in Hnn as [-> _].
    rewrite Z.add_0_l. apply vec_at_lookup.
    apply lookup_take_Some in Ha. tauto.
Qed.

Lemma vec_at_past_end {A} (v : list A) (n : Z) :
  Z.of_nat (length v) ≤ n → vec_at v n = Fail OutOfBounds.
Proof.
  intros Hn. unfold vec_at. rewrite decide_True by lia.
  by rewrite lookup_ge_None_2 by lia.
Qed.

(** The forward sweep of the embedding as a function of its arguments: the
    sweep over the first NumCells entries of the table, unless the
    embedding stops at an access it does not define *)
Lemma LUSGS_Forward_outcome blk reorder (phys : physics) (inp : input)
  aInv (sweep : Z) x :
  LUSGS_Forward blk reorder phys inp aInv sweep x
  = if decide (NumCells blk ≤ Z.of_nat (length reorder) ∧
               Forall (λ c, is_Some (aInv !! c) ∧ is_Some (x !! c))
                 (visited blk reorder))
    then Ok (spec_LUSGS_Forward blk phys inp aInv sweep
               (visited blk reorder) x)
    else Fail OutOfBounds.
Proof.
  unfold LUSGS_Forward, for_up, visited. rewrite Z.sub_0_r.
  destruct (decide (NumCells blk ≤ Z.of_nat (length reorder))) as [Hlen|Hlen].
  - destruct (decide (0 ≤ NumCells blk)) as [Hpos|Hneg].
    + rewrite <- (Z2Nat.id (NumCells blk)) at 1 by done.
      erewrite foldM_vec_at by (apply vec_at_visited; lia).
      rewrite LUSGS_Forward_loop.
      destruct (decide (Forall _ _)) as [Hall|Hall].
      * by rewrite decide_True.
      * rewrite decide_False; [done|]. by intros [_ ?].
    + rewrite seqZ_nil by lia.
      replace (Z.to_nat (NumCells blk)) with 0%nat by lia.
      rewrite decide_True; [done|]. split; [done|]. rewrite take_0. constructor.
  - rewrite decide_False by (by intros [? _]).
    replace (NumCells blk)
      with (Z.of_nat (length reorder)
            + (NumCells blk - Z.of_nat (length reorder))) by lia.
    rewrite seqZ_app, foldM_app by lia.
    erewrite foldM_vec_at by apply vec_at_indices.
    rewrite LUSGS_Forward_loop.
    destruct (decide (Forall _ _)); [|done]. simpl.
    rewrite seqZ_cons by lia. rewrite foldM_cons.
    by rewrite vec_at_past_end by lia.
Qed.

(** X1: on a reorder table with at least NumCells entries, the first
    NumCells of which are cells of the diagonal and of the update, the
    forward sweep is the sweep of section 4.4 over exactly these first
    NumCells entries, in order.  Entries past them are not read: a table
    that agrees on the first NumCells entries gives the same result. *)
Theorem LUSGS_Forward_returns blk reorder (phys : physics) (inp : input)
  aInv (sweep : Z) x :
  NumCells blk ≤ Z.of_nat (length reorder) →
  in_range aInv x (visited blk reorder) →
  LUSGS_Forward blk reorder phys inp aInv sweep x
  = Ok (spec_LUSGS_Forward blk phys inp aInv sweep (visited blk reorder) x) ∧
  ∀ reorder',
    NumCells blk ≤ Z.of_nat (length reorder') →
    visited blk reorder' = visited blk reorder →
    LUSGS_Forward blk reorder' phys inp aInv sweep x
    = LUSGS_Forward blk reorder phys inp aInv sweep x.
Proof.
  intros Hlen Hrange.
  assert (Hall : Forall (λ c, is_Some (aInv !! c) ∧ is_Some (x !! c))
                   (visited blk reorder)) by (by apply Forall_forall).
  split.
  - rewrite LUSGS_Forward_outcome. by rewrite decide_True.
  - intros reorder' Hlen' Hsame. rewrite !LUSGS_Forward_outcome, Hsame.
    by rewrite !decide_True.
Qed.

(** The backward sweep of the embedding as a function of its arguments *)
Lemma LUSGS_Backward_outcome blk reorder (phys : physics) (inp : input)
  aInv (sweep : Z) x :
  LUSGS_Backward blk reorder phys inp aInv sweep x
  = if decide (NumCells blk ≤ Z.of_nat (length reorder) ∧
               Forall (λ c, is_Some (aInv !! c) ∧ is_Some (x !! c))
                 (visited blk reorder))
    then Ok (spec_LUSGS_Backward blk phys inp aInv sweep
               (visited blk reorder) x)
    else Fail OutOfBounds.
Proof.
  unfold LUSGS_Backward, spec_LUSGS_Backward, for_down, visited.
  replace (NumCells blk - 1 + 1 - 0) with (NumCells blk) by lia.
  destruct (decide (NumCells blk ≤ Z.of_nat (length reorder))) as [Hlen|Hlen].
  - destruct (decide (0 ≤ NumCells blk)) as [Hpos|Hneg].
    + rewrite <- (Z2Nat.id (NumCells blk)) at 1 by done.
      erewrite foldM_vec_at
        by (apply Forall2_reverse, vec_at_visited; lia).
      rewrite LUSGS_Backward_loop.
      destruct (decide (Forall _ (reverse _))) as [Hall|Hall].
      * rewrite decide_True by (by rewrite Forall_reverse in Hall).
        simpl. by destruct (fold_left _ _ _).
      * rewrite decide_False; [done|].
        intros [_ ?]. by rewrite Forall_reverse in Hall.
    + rewrite seqZ_nil by lia.
      replace (Z.to_nat (NumCells blk)) with 0%nat by lia.
      rewrite decide_True; [done|]. split; [done|]. rewrite take_0. constructor.
  - rewrite decide_False by (by intros [? _]).
    replace (NumCells blk) with ((NumCells blk - 1) + 1) at 1 by lia.
    rewrite seqZ_app by lia. rewrite reverse_app, Z.add_0_l.
    rewrite seqZ_cons by lia. rewrite seqZ_nil by lia.
    change (reverse [NumCells blk - 1]) with [NumCells blk - 1].
    simpl. by rewrite vec_at_past_end by lia.
Qed.

(** X2: on a reorder table with at least NumCells entries, the first
    NumCells of which are cells of the diagonal and of the update, the
    backward sweep is the sweep of section 4.5 over exactly these first
    NumCells entries, in reverse, with its summed squared change.  Entries
    past them are not read: a table that agrees on the first NumCells
    entries gives the same result. *)
Theorem LUSGS_Backward_returns blk reorder (phys : physics) (inp : input)
  aInv (sweep : Z) x :
  NumCells blk ≤ Z.of_nat (length reorder) →
  in_range aInv x (visited blk reorder) →
  LUSGS_Backward blk reorder phys inp aInv sweep x
  = Ok (spec_LUSGS_Backward blk phys inp aInv sweep (visited blk reorder) x) ∧
  ∀ reorder',
    NumCells blk ≤ Z.of_nat (length reorder') →
    visited blk reorder' = visited blk reorder →
    LUSGS_Backward blk reorder' phys inp aInv sweep x
    = LUSGS_Backward blk reorder phys inp aInv sweep x.
Proof.
  intros Hlen Hrange.
  assert (Hall : Forall (λ c, is_Some (aInv !! c) ∧ is_Some (x !! c))
                   (visited blk reorder)) by (by apply Forall_forall).
  split.
  - rewrite LUSGS_Backward_outcome. by rewrite decide_True.
  - intros reorder' Hlen' Hsame. rewrite !LUSGS_Backward_outcome, Hsame.
    by rewrite !decide_True.
Qed.

End Returns.

(** ** What a sweep keeps, and what it has read when it reaches a cell *)

Section GaussSeidel.
Context `{Arith : Arithmetic} {physics : Type}.
Implicit Type blk : @procBlock Arith physics.
Implicit Type x : gmap vector3d varArray.
Implicit Type aInv mainDiagonal : gmap vector3d squareMatrix.
Implicit Type reorder : list vector3d.

Lemma dom_eq_is_Some {A} (m m' : gmap vector3d A) :
  (∀ k, is_Some (m' !! k) ↔ is_Some (m !! k)) → dom m' = dom m.
Proof. intros Hk. apply set_eq. intros k. by rewrite !elem_of_dom. Qed.

Lemma fold_left_cells {S} (proj : S → gmap vector3d varArray)
  (ok : vector3d → Prop) (step : S → vector3d → S) (l : list vector3d) (s : S) :
  (∀ t c k, ok c → is_Some (proj t !! c) →
            is_Some (proj (step t c) !! k) ↔ is_Some (proj t !! k)) →
  Forall (λ c, ok c ∧ is_Some (proj s !! c)) l →
  ∀ k, is_Some (proj (fold_left step l s) !! k) ↔ is_Some (proj s !! k).
Proof.
  intros Hstep. revert s. induction l as [|c l IH]; intros s Hall k; [done|].
  apply Forall_cons in Hall as [[Hc Hsc] Hall]. simpl.
  rewrite IH; [by apply Hstep|].
  eapply Forall_impl; [exact Hall|]. intros d [Hd Hsd]. split; [done|].
  by apply Hstep.
Qed.

(** The cells of the arrays the sweeps and InvertDiagonal hand back *)
Lemma sweeps_dom blk reorder (phys : physics) (inp : input) aInv
  mainDiagonal (sweep : Z) x :
  (∀ x', LUSGS_Forward blk reorder phys inp aInv sweep x = Ok x' →
         dom x' = dom x) ∧
  (∀ x' e, LUSGS_Backward blk reorder phys inp aInv sweep x = Ok (x', e) →
           dom x' = dom x) ∧
  (∀ x' e, DPLUR blk phys inp aInv x = Ok (x', e) → dom x' = dom x) ∧
  (∀ inverted, InvertDiagonal blk inp mainDiagonal = Ok inverted →
               dom inverted = dom mainDiagonal).
Proof.
  split; [|split; [|split]].
  - intros x'. rewrite LUSGS_Forward_outcome.
    destruct (decide _) as [[_ Hall]|]; [|done]. intros [= <-].
    apply dom_eq_is_Some.
    apply (fold_left_cells (λ y : gmap vector3d varArray, y)
             (λ c, is_Some (aInv !! c))); [|done].
    intros t c k _ Hc. by apply spec_forward_cell_cells.
  - intros x' e. rewrite LUSGS_Backward_outcome.
    destruct (decide _) as [[_ Hall]|]; [|done]. intros [= <- _].
    apply dom_eq_is_Some.
    apply (fold_left_cells fst (λ c, is_Some (aInv !! c))).
    + intros t c k _ _. apply spec_backward_cell_cells.
    + by apply Forall_reverse.
  - intros x' e. rewrite DPLUR_natural_order, DPLUR_in_order_run.
    destruct (decide _) as [Hall|]; [|done]. intros [= <- _].
    apply dom_eq_is_Some. intros k. rewrite DPLUR_update_lookup.
    destruct (decide (k ∈ interiorCells blk)) as [Hk|Hk]; [|done].
    rewrite Forall_forall in Hall. specialize (Hall k Hk).
    unfold DPLUR_change in Hall.
    destruct (DPLUR_value blk phys inp aInv x k) as [v|];
      [|by destruct Hall].
    simpl in *. destruct (x !! k); [|by destruct Hall].
    split; eauto.
  - intros inverted. unfold InvertDiagonal. rewrite for_up_nest.
    apply (foldM_invariant
      (λ m : gmap vector3d squareMatrix, dom m = dom mainDiagonal)); [|done].
    intros c m m' _ Hm Hbody.
    apply bind_Ok_inv in Hbody as (m1 & Hmul & Hbody).
    apply bind_Ok_inv in Hbody as (m2 & Hadd & Hbody).
    apply bind_Ok_inv in Hmul as (a1 & _ & Hmul).
    apply bind_Ok_inv in Hadd as (a2 & _ & Hadd).
    apply bind_Ok_inv in Hbody as (a3 & _ & Hbody).
    destruct (sm_Inverse a3) as [inverse|]; [|done].
    apply InsertBlock_Ok in Hmul as [Hc1 ->].
    apply InsertBlock_Ok in Hadd as [Hc2 ->].
    apply InsertBlock_Ok in Hbody as [Hc3 ->].
    rewrite <- Hm. apply dom_eq_is_Some. intros k.
    rewrite !is_Some_insert_present; [done|done|..].
    + by apply is_Some_insert_present.
    + apply is_Some_insert_present; [|done]. by apply is_Some_insert_present.
Qed.

(** X6: a sweep that returns never adds a cell to the update array and
    never removes one: the array it hands back has exactly the cells of
    the array it was given.  So has the diagonal after InvertDiagonal. *)
Theorem sweeps_keep_cells blk reorder (phys : physics) (inp : input) aInv
  mainDiagonal (sweep : Z) x :
  (∀ x', LUSGS_Forward blk reorder phys inp aInv sweep x = Ok x' →
         dom x' = dom x) ∧
  (∀ x' e, LUSGS_Backward blk reorder phys inp aInv sweep x = Ok (x', e) →
           dom x' = dom x) ∧
  (∀ x' e, DPLUR blk phys inp aInv x = Ok (x', e) → dom x' = dom x) ∧
  (∀ inverted, InvertDiagonal blk inp mainDiagonal = Ok inverted →
               dom inverted = dom mainDiagonal).
Proof. exact (sweeps_dom blk reorder phys inp aInv mainDiagonal sweep x). Qed.

(** X7: on a block without cells the sweeps return the update as it is,
    the error being the sum of the zero vector, and neither the diagonal
    inverter nor the initializer touches a cell. *)
Theorem sweeps_on_empty_block blk reorder (phys : physics) (inp : input)
  aInv (sweep : Z) x :
  let zero := varArray_ctor (NumEquations inp) (NumSpecies inp) d_lit0 in
  (NumCells blk ≤ 0 →
   LUSGS_Forward blk reorder phys inp aInv sweep x = Ok x ∧
   LUSGS_Backward blk reorder phys inp aInv sweep x = Ok (x, va_Sum zero)) ∧
  (NumI blk ≤ 0 ∨ NumJ blk ≤ 0 ∨ NumK blk ≤ 0 →
   DPLUR blk phys inp aInv x = Ok (x, va_Sum zero) ∧
   InvertDiagonal blk inp aInv = Ok aInv ∧
   InitializeMatrixUpdate blk inp phys aInv
   = Ok (blkMultiArray3d_ctor (NumI blk) (NumJ blk) (NumK blk)
           (NumGhosts blk) (NumEquations inp) (NumSpecies inp) d_lit0)).
Proof.
  intros zero. split.
  - intros Hnone. split.
    + unfold LUSGS_Forward. by rewrite for_up_none.
    + unfold LUSGS_Backward, for_down. by rewrite seqZ_nil by lia.
  - intros Hnone.
    assert (Hcells : interiorCells blk = []).
    { apply cellsKJI_empty. unfold StartI, EndI, StartJ, EndJ, StartK, EndK.
      lia. }
    unfold interiorCells in Hcells.
    split; [|split].
    + unfold DPLUR. by rewrite for_up_nest, Hcells.
    + unfold InvertDiagonal. by rewrite for_up_nest, Hcells.
    + unfold InitializeMatrixUpdate.
      destruct (MatrixRequiresInitialization inp); [|done].
      by rewrite for_up_nest, Hcells.
Qed.

Lemma fold_left_frame {S} (proj : S → gmap vector3d varArray)
  (step : S → vector3d → S) (l : list vector3d) (s : S) (d : vector3d) :
  (∀ t c, c ≠ d → proj (step t c) !! d = proj t !! d) →
  d ∉ l → proj (fold_left step l s) !! d = proj s !! d.
Proof.
  intros Hstep. revert s. induction l as [|c l IH]; intros s Hd; [done|].
  apply not_elem_of_cons in Hd as [Hne Hd]. simpl.
  rewrite IH by done. by apply Hstep.
Qed.

Lemma spec_forward_cell_frame blk (phys : physics) (inp : input) aInv
  (sweep : Z) x (c d : vector3d) :
  c ≠ d → spec_forward_cell blk phys inp aInv sweep x c !! d = x !! d.
Proof.
  intros Hne. unfold spec_forward_cell.
  destruct (aInv !! c); [by rewrite lookup_insert_ne|done].
Qed.

Lemma spec_backward_cell_frame blk (phys : physics) (inp : input) aInv
  (sweep : Z) (st : gmap vector3d varArray * varArray) (c d : vector3d) :
  c ≠ d → (spec_backward_cell blk phys inp aInv sweep st c).1 !! d = st.1 !! d.
Proof.
  intros Hne. unfold spec_backward_cell.
  destruct (aInv !! c); [|done]. destruct (st.1 !! c); [|done].
  simpl. by rewrite lookup_insert_ne.
Qed.

(** The state the forward sweep reads from at the n-th entry of its table *)
Lemma LUSGS_Forward_state blk reorder (phys : physics) (inp : input) aInv
  (sweep : Z) x x' (n : nat) (c : vector3d) :
  NoDup (visited blk reorder) →
  LUSGS_Forward blk reorder phys inp aInv sweep x = Ok x' →
  visited blk reorder !! n = Some c →
  ∃ a seen,
    aInv !! c = Some a ∧
    (∀ d, seen !! d = if decide (d ∈ take n (visited blk reorder))
                      then x' !! d else x !! d) ∧
    x' !! c
    = Some (sm_ArrayMult a
              (va_add (rhs_b blk phys inp (d_div d_lit1 (Theta inp))
                         (X c) (Y c) (Z_ c))
                      (forward_off blk phys inp sweep seen c))).
Proof.
  intros Hnodup. rewrite LUSGS_Forward_outcome.
  destruct (decide _) as [[_ Hall]|]; [|done]. intros [= <-] Hn.
  set (t := visited blk reorder) in *.
  rewrite Forall_forall in Hall.
  destruct (Hall c) as [[a Ha] _]; [by eapply list_elem_of_lookup_2|].
  pose proof (take_drop_middle t n c Hn) as Hsplit.
  rewrite <- Hsplit in Hnodup.
  apply NoDup_app in Hnodup as (_ & Hdisj & Hrest).
  apply NoDup_cons in Hrest as [Hc _].
  exists a, (spec_LUSGS_Forward blk phys inp aInv sweep (take n t) x).
  assert (Hfinal :
    spec_LUSGS_Forward blk phys inp aInv sweep t x
    = fold_left (spec_forward_cell blk phys inp aInv sweep) (drop (S n) t)
        (spec_forward_cell blk phys inp aInv sweep
           (spec_LUSGS_Forward blk phys inp aInv sweep (take n t) x) c)).
  { unfold spec_LUSGS_Forward. rewrite <- Hsplit at 1.
    by rewrite fold_left_app. }
  split; [done|]. split.
  - intros d. destruct (decide (d ∈ take n t)) as [Hd|Hd].
    + rewrite Hfinal.
      rewrite (fold_left_frame (λ y : gmap vector3d varArray, y)).
      * rewrite spec_forward_cell_frame; [done|]. intros <-.
        by apply (Hdisj c Hd); left.
      * intros y e Hne. by apply spec_forward_cell_frame.
      * intros Hin. by apply (Hdisj d Hd); right.
    + unfold spec_LUSGS_Forward. rewrite (fold_left_frame (λ y : gmap vector3d varArray, y)); [done| |done].
      intros y e Hne. by apply spec_forward_cell_frame.
  - rewrite Hfinal, (fold_left_frame (λ y : gmap vector3d varArray, y)); [| |done].
    + unfold spec_forward_cell at 1. rewrite Ha. by rewrite lookup_insert_eq.
    + intros y e Hne. by apply spec_forward_cell_frame.
Qed.

(** X8: when the forward sweep reaches the n-th entry c of a table without
    repetition, the update it reads from holds the new value at every entry
    before c and the value of sweep entry at every other cell; the cell
    receives A^-1(c) (b + off) with off read from that state.  The lower
    action thus meets values of this sweep, the upper action those of the
    exchange or of the sweep before. *)
Theorem LUSGS_Forward_reads blk reorder (phys : physics) (inp : input) aInv
  (sweep : Z) x x' (n : nat) (c : vector3d) :
  NoDup (visited blk reorder) →
  LUSGS_Forward blk reorder phys inp aInv sweep x = Ok x' →
  visited blk reorder !! n = Some c →
  ∃ a seen,
    aInv !! c = Some a ∧
    (∀ d, seen !! d = if decide (d ∈ take n (visited blk reorder))
                      then x' !! d else x !! d) ∧
    x' !! c
    = Some (sm_ArrayMult a
              (va_add (rhs_b blk phys inp (d_div d_lit1 (Theta inp))
                         (X c) (Y c) (Z_ c))
                      (forward_off blk phys inp sweep seen c))).
Proof. exact (LUSGS_Forward_state blk reorder phys inp aInv sweep x x' n c). Qed.

(** The state the backward sweep reads from at the n-th entry of its table *)
Lemma LUSGS_Backward_state blk reorder (phys : physics) (inp : input) aInv
  (sweep : Z) x x' (e : double) (n : nat) (c : vector3d) :
  NoDup (visited blk reorder) →
  LUSGS_Backward blk reorder phys inp aInv sweep x = Ok (x', e) →
  visited blk reorder !! n = Some c →
  ∃ a xold seen,
    aInv !! c = Some a ∧ x !! c = Some xold ∧
    (∀ d, seen !! d = if decide (d ∈ drop (S n) (visited blk reorder))
                      then x' !! d else x !! d) ∧
    x' !! c = Some (spec_backward_value blk phys inp a sweep seen c xold).
Proof.
  intros Hnodup. rewrite LUSGS_Backward_outcome.
  destruct (decide _) as [[_ Hall]|]; [|done]. intros [= <- _] Hn.
  set (t := visited blk reorder) in *.
  set (l0 := varArray_ctor (NumEquations inp) (NumSpecies inp) d_lit0).
  rewrite Forall_forall in Hall.
  destruct (Hall c) as [[a Ha] [xold Hxold]];
    [by eapply list_elem_of_lookup_2|].
  pose proof (take_drop_middle t n c Hn) as Hsplit.
  rewrite <- Hsplit in Hnodup.
  apply NoDup_app in Hnodup as (_ & Hdisj & Hrest).
  apply NoDup_cons in Hrest as [Hc _].
  set (before := fold_left (spec_backward_cell blk phys inp aInv sweep)
                   (reverse (drop (S n) t)) (x, l0)).
  assert (Hfinal :
    fold_left (spec_backward_cell blk phys inp aInv sweep) (reverse t) (x, l0)
    = fold_left (spec_backward_cell blk phys inp aInv sweep)
        (reverse (take n t))
        (spec_backward_cell blk phys inp aInv sweep before c)).
  { rewrite <- Hsplit at 1.
    rewrite reverse_app, reverse_cons, <- app_assoc, fold_left_app.
    by rewrite fold_left_app. }
  assert (Hframe : ∀ l st d, d ∉ l →
    (fold_left (spec_backward_cell blk phys inp aInv sweep) l st).1 !! d
    = st.1 !! d).
  { intros l st d Hd. apply (fold_left_frame fst); [|done].
    intros y k Hne. by apply spec_backward_cell_frame. }
  assert (Hbefore : before.1 !! c = Some xold).
  { unfold before. rewrite Hframe; [done|]. by rewrite elem_of_reverse. }
  exists a, xold, before.1. split; [done|]. split; [done|]. split.
  - intros d. simpl. rewrite Hfinal.
    destruct (decide (d ∈ drop (S n) t)) as [Hd|Hd].
    + rewrite Hframe.
      * rewrite spec_backward_cell_frame; [done|]. by intros ->.
      * rewrite elem_of_reverse. intros Hin. apply (Hdisj d Hin). by right.
    + unfold before. rewrite Hframe; [done|]. by rewrite elem_of_reverse.
  - simpl. rewrite Hfinal, Hframe.
    + unfold spec_backward_cell. rewrite Ha, Hbefore. simpl.
      by rewrite lookup_insert_eq.
    + rewrite elem_of_reverse. intros Hin. by apply (Hdisj c Hin); left.
Qed.

(** X9: when the backward sweep reaches the n-th entry c of a table without
    repetition, the update it reads from holds the new value at every entry
    after c and the value of sweep entry at every other cell, c included;
    the cell receives the value of section 4.5 read from that state. *)
Theorem LUSGS_Backward_reads blk reorder (phys : physics) (inp : input) aInv
  (sweep : Z) x x' (e : double) (n : nat) (c : vector3d) :
  NoDup (visited blk reorder) →
  LUSGS_Backward blk reorder phys inp aInv sweep x = Ok (x', e) →
  visited blk reorder !! n = Some c →
  ∃ a xold seen,
    aInv !! c = Some a ∧ x !! c = Some xold ∧
    (∀ d, seen !! d = if decide (d ∈ drop (S n) (visited blk reorder))
                      then x' !! d else x !! d) ∧
    x' !! c = Some (spec_backward_value blk phys inp a sweep seen c xold).
Proof. exact (LUSGS_Backward_state blk reorder phys inp aInv sweep x x' e n c). Qed.

End GaussSeidel.

(** ** The sweeps along hyperplanes *)

Lemma HyperplaneReorder_before (NI NJ NK : Z) (n : nat) (c d : vector3d) :
  HyperplaneReorder NI NJ NK !! n = Some c →
  in_box 0 NI 0 NJ 0 NK d →
  (plane d < plane c → d ∈ take n (HyperplaneReorder NI NJ NK)) ∧
  (plane c < plane d → d ∈ drop (S n) (HyperplaneReorder NI NJ NK)).
Proof.
  intros Hn Hd.
  destruct (HyperplaneReorder_ordering NI NJ NK)
    as (_ & Hmem & _ & Hmono & _ & _).
  apply Hmem, list_elem_of_lookup in Hd as [j Hj]. split; intros Hlt.
  - destruct (decide (j < n)%nat) as [Hjn|Hjn].
    + apply list_elem_of_lookup. exists j. by rewrite lookup_take_lt.
    + pose proof (Hmono n j c d ltac:(lia) Hn Hj). lia.
  - destruct (decide (n < j)%nat) as [Hjn|Hjn].
    + apply list_elem_of_lookup. exists (j - S n)%nat.
      rewrite lookup_drop. by replace (S n + (j - S n))%nat with j by lia.
    + pose proof (Hmono j n d c ltac:(lia) Hj Hn). lia.
Qed.

Lemma plane_lower_neighbour (c d : vector3d) :
  d ∈ lower_neighbours c → plane d = plane c - 1.
Proof.
  unfold lower_neighbours, plane.
  rewrite !elem_of_cons, elem_of_nil. intros [->|[->|[->|[]]]];
    unfold X, Y, Z_; simpl; lia.
Qed.

Lemma plane_upper_neighbour (c d : vector3d) :
  d ∈ upper_neighbours c → plane d = plane c + 1.
Proof.
  unfold upper_neighbours, plane.
  rewrite !elem_of_cons, elem_of_nil. intros [->|[->|[->|[]]]];
    unfold X, Y, Z_; simpl; lia.
Qed.

Section Hyperplanes.
Context `{Arith : Arithmetic} {physics : Type}.
Implicit Type blk : @procBlock Arith physics.
Implicit Type x : gmap vector3d varArray.
Implicit Type aInv : gmap vector3d squareMatrix.

Lemma visited_block_table blk :
  proper_extents blk →
  visited blk (HyperplaneReorder (NumI blk) (NumJ blk) (NumK blk))
  = HyperplaneReorder (NumI blk) (NumJ blk) (NumK blk).
Proof.
  intros (Hi & Hj & Hk). unfold visited. apply take_ge.
  pose proof (reorder_table_length blk Hi Hj Hk). lia.
Qed.

(** X10: on the reorder table of the block, the forward sweep reaches an
    interior cell c when each interior lower neighbour of c already holds
    the value this sweep gives it, and each upper neighbour and each cell
    outside the interior still holds the value of sweep entry; c receives
    A^-1(c) (b + off) with the off-diagonal term read from that state. *)
Theorem LUSGS_Forward_along_hyperplanes blk (phys : physics) (inp : input)
  aInv (sweep : Z) x x' (c : vector3d) :
  proper_extents blk →
  LUSGS_Forward blk (HyperplaneReorder (NumI blk) (NumJ blk) (NumK blk))
    phys inp aInv sweep x = Ok x' →
  interior blk c →
  ∃ a seen,
    aInv !! c = Some a ∧
    (∀ d, d ∈ lower_neighbours c → interior blk d → seen !! d = x' !! d) ∧
    (∀ d, d ∈ upper_neighbours c → seen !! d = x !! d) ∧
    (∀ d, ¬ interior blk d → seen !! d = x !! d) ∧
    x' !! c
    = Some (sm_ArrayMult a
              (va_add (rhs_b blk phys inp (d_div d_lit1 (Theta inp))
                         (X c) (Y c) (Z_ c))
                      (forward_off blk phys inp sweep seen c))).
Proof.
  intros Hext Hrun Hc.
  set (t := HyperplaneReorder (NumI blk) (NumJ blk) (NumK blk)) in *.
  destruct (HyperplaneReorder_ordering (NumI blk) (NumJ blk) (NumK blk))
    as (Hnodup & Hmem & _ & Hmono & _ & _).
  pose proof (proj2 (Hmem c) Hc) as Hct.
  apply list_elem_of_lookup in Hct as [n Hn].
  destruct (LUSGS_Forward_state blk t phys inp aInv sweep x x' n c)
    as (a & seen & Ha & Hseen & Hval).
  { by rewrite visited_block_table. }
  { done. }
  { by rewrite visited_block_table. }
  rewrite visited_block_table in Hseen by done.
  exists a, seen. split; [done|]. split; [|split; [|split; [|done]]].
  - intros d Hd Hdi. rewrite Hseen, decide_True; [done|].
    apply (HyperplaneReorder_before _ _ _ n c d Hn Hdi).
    rewrite (plane_lower_neighbour c d Hd). lia.
  - intros d Hd. rewrite Hseen, decide_False; [done|].
    intros Hin. pose proof (plane_upper_neighbour c d Hd) as Hplane.
    apply list_elem_of_lookup in Hin as [j Hj].
    apply lookup_take_Some in Hj as [Hj Hjn].
    pose proof (Hmono j n d c ltac:(lia) Hj Hn). lia.
  - intros d Hd. rewrite Hseen, decide_False; [done|].
    intros Hin%subseteq_take. by apply Hd, Hmem.
Qed.

(** X11: on the reorder table of the block, the backward sweep reaches an
    interior cell c when each interior upper neighbour of c already holds
    the value this sweep gives it, and each lower neighbour, the cell
    itself and each cell outside the interior still holds the value of
    sweep entry; c receives the value of section 4.5 read from that
    state. *)
Theorem LUSGS_Backward_along_hyperplanes blk (phys : physics) (inp : input)
  aInv (sweep : Z) x x' (e : double) (c : vector3d) :
  proper_extents blk →
  LUSGS_Backward blk (HyperplaneReorder (NumI blk) (NumJ blk) (NumK blk))
    phys inp aInv sweep x = Ok (x', e) →
  interior blk c →
  ∃ a xold seen,
    aInv !! c = Some a ∧ x !! c = Some xold ∧
    (∀ d, d ∈ upper_neighbours c → interior blk d → seen !! d = x' !! d) ∧
    (∀ d, d ∈ lower_neighbours c → seen !! d = x !! d) ∧
    (∀ d, ¬ interior blk d → seen !! d = x !! d) ∧
    seen !! c = x !! c ∧
    x' !! c = Some (spec_backward_value blk phys inp a sweep seen c xold).
Proof.
  intros Hext Hrun Hc.
  set (t := HyperplaneReorder (NumI blk) (NumJ blk) (NumK blk)) in *.
  destruct (HyperplaneReorder_ordering (NumI blk) (NumJ blk) (NumK blk))
    as (Hnodup & Hmem & _ & Hmono & _ & _).
  pose proof (proj2 (Hmem c) Hc) as Hct.
  apply list_elem_of_lookup in Hct as [n Hn].
  destruct (LUSGS_Backward_state blk t phys inp aInv sweep x x' e n c)
    as (a & xold & seen & Ha & Hxold & Hseen & Hval).
  { by rewrite visited_block_table. }
  { done. }
  { by rewrite visited_block_table. }
  rewrite visited_block_table in Hseen by done.
  assert (Hafter : ∀ d j, t !! j = Some d → (j ≤ n)%nat → d ∉ drop (S n) t).
  { intros d j Hj Hjn Hin. apply list_elem_of_lookup in Hin as [i Hi].
    rewrite lookup_drop in Hi.
    pose proof (NoDup_lookup t _ _ d Hnodup Hj Hi). lia. }
  exists a, xold, seen.
  split; [done|]. split; [done|].
  split; [|split; [|split; [|split; [|done]]]].
  - intros d Hd Hdi. rewrite Hseen, decide_True; [done|].
    apply (HyperplaneReorder_before _ _ _ n c d Hn Hdi).
    rewrite (plane_upper_neighbour c d Hd). lia.
  - intros d Hd. rewrite Hseen, decide_False; [done|].
    intros Hin. pose proof (plane_lower_neighbour c d Hd) as Hplane.
    apply list_elem_of_lookup in Hin as [j Hj]. rewrite lookup_drop in Hj.
    pose proof (Hmono n (S n + j)%nat c d ltac:(lia) Hn Hj). lia.
  - intros d Hd. rewrite Hseen, decide_False; [done|].
    intros Hin%subseteq_drop. by apply Hd, Hmem.
  - rewrite Hseen, decide_False; [done|]. by apply (Hafter c n).
Qed.

End Hyperplanes.

(** ** What the drivers keep, and when they return *)

Section DriverInvariants.
Context `{Arith : Arithmetic} {physics : Type} `{Net : !Transport}.
Implicit Type level : @gridLevel Arith physics connection.
Implicit Type blk : @procBlock Arith physics.
Implicit Type du : list (gmap vector3d varArray).
Implicit Type m : machine.

Lemma covers_dom {A} (y y' : gmap vector3d A) blk :
  dom y' = dom y → covers y blk → covers y' blk.
Proof.
  intros Hdom Hy c Hc. apply elem_of_dom. rewrite Hdom.
  by apply elem_of_dom, Hy.
Qed.

Lemma shaped_vec_set level du (bb : Z) blk (x' : gmap vector3d varArray) du' :
  shaped level du → blocks level !! Z.to_nat bb = Some blk →
  covers x' blk → vec_set du bb x' = Ok du' → shaped level du'.
Proof.
  intros Hdu Hblk Hx' Hset. unfold vec_set in Hset.
  apply bind_Ok_inv in Hset as (_ & _ & [= <-]).
  unfold shaped. rewrite <- (list_insert_id (blocks level) _ _ Hblk).
  by apply Forall2_insert.
Qed.

(** X14: the drivers keep the shape of the update: when every update array
    given to Relax has the interior cells of its block and the ghost
    exchange keeps them, every array a returning call hands back has them
    too, and there are as many arrays as blocks. *)
Theorem Relax_keeps_shape (self : lusgs) level (phys : physics)
  (inp : input) (rank sweeps : Z) du m r :
  shaped level du → exchange_keeps_shape level →
  lusgs_Relax self level phys inp rank sweeps du m = Ok r ∨
  dplur_Relax level phys inp rank sweeps du m = Ok r →
  shaped level r.1.2 ∧ length r.1.2 = length (blocks level).
Proof.
  intros Hdu Hswap Hrun.
  cut (shaped level r.1.2).
  { intros Hr. split; [done|]. symmetry. by eapply Forall2_length. }
  destruct Hrun as [Hrun|Hrun].
  - unfold lusgs_Relax in Hrun.
    apply bind_Ok_inv in Hrun as (_ & _ & Hrun).
    apply bind_Ok_inv in Hrun as (_ & _ & Hrun).
    apply bind_Ok_inv in Hrun as (blk0 & _ & Hrun).
    revert Hrun. unfold for_up at 1.
    apply (foldM_invariant
      (λ st : double * list (gmap vector3d varArray) * machine,
         shaped level st.1.2)); [|done].
    intros ii [[e1 du1] m1] st' _ Hdu1. simpl in Hdu1. unfold swap at 1.
    pose proof (Hswap du1 (Connections level) rank (NumGhosts blk0)
                  (theWorld m1) Hdu1) as Hdu2.
    destruct (SwapImplicitUpdate du1 (Connections level) rank
                (NumGhosts blk0) (theWorld m1)) as [du2 w2].
    simpl in Hdu2. intros Hbody.
    apply bind_Ok_inv in Hbody as ([du3 m3] & Hfwd & Hbody).
    assert (Hdu3 : shaped level du3).
    { revert Hfwd. unfold for_up.
      apply (foldM_invariant
        (λ st : list (gmap vector3d varArray) * machine, shaped level st.1));
        [|done].
      intros bb [du4 m4] [du5 m5] _ Hdu4 Hstep. simpl in *.
      apply bind_Ok_inv in Hstep as (blk & Hblk & Hstep).
      apply bind_Ok_inv in Hstep as (reorder & _ & Hstep).
      apply bind_Ok_inv in Hstep as (aInv & _ & Hstep).
      apply bind_Ok_inv in Hstep as (x & Hx & Hstep).
      apply bind_Ok_inv in Hstep as (x' & Hsweep & Hstep).
      apply bind_Ok_inv in Hstep as (du6 & Hset & [= <- _]).
      apply vec_at_Ok in Hblk as [_ Hblk]. apply vec_at_Ok in Hx as [_ Hx].
      eapply shaped_vec_set; [exact Hdu4|exact Hblk| |exact Hset].
      eapply covers_dom; [|exact (Forall2_lookup_lr _ _ _ _ _ _ Hdu4 Hblk Hx)].
      by apply (sweeps_dom blk reorder phys inp aInv aInv ii x). }
    unfold swap in Hbody.
    pose proof (Hswap du3 (Connections level) rank (NumGhosts blk0)
                  (theWorld m3) Hdu3) as Hdu7.
    destruct (SwapImplicitUpdate du3 (Connections level) rank
                (NumGhosts blk0) (theWorld m3)) as [du7 w7].
    simpl in Hdu7. revert Hbody. unfold for_up.
    apply (foldM_invariant
      (λ st : double * list (gmap vector3d varArray) * machine,
         shaped level st.1.2)); [|done].
    intros bb [[e4 du4] m4] [[e5 du5] m5] _ Hdu4 Hstep. simpl in *.
    apply bind_Ok_inv in Hstep as (blk & Hblk & Hstep).
    apply bind_Ok_inv in Hstep as (reorder & _ & Hstep).
    apply bind_Ok_inv in Hstep as (aInv & _ & Hstep).
    apply bind_Ok_inv in Hstep as (x & Hx & Hstep).
    apply bind_Ok_inv in Hstep as ([x' err] & Hsweep & Hstep).
    apply bind_Ok_inv in Hstep as (du6 & Hset & [= _ <- _]).
    apply vec_at_Ok in Hblk as [_ Hblk]. apply vec_at_Ok in Hx as [_ Hx].
    eapply shaped_vec_set; [exact Hdu4|exact Hblk| |exact Hset].
    eapply covers_dom; [|exact (Forall2_lookup_lr _ _ _ _ _ _ Hdu4 Hblk Hx)].
    by apply (sweeps_dom blk reorder phys inp aInv aInv ii x) in Hsweep.
  - unfold dplur_Relax in Hrun.
    apply bind_Ok_inv in Hrun as (_ & _ & Hrun).
    apply bind_Ok_inv in Hrun as (blk0 & _ & Hrun).
    apply bind_Ok_inv in Hrun as ([du' m'] & Hrun & [= <-]). simpl.
    revert Hrun. unfold for_up at 1.
    apply (foldM_invariant
      (λ st : list (gmap vector3d varArray) * machine, shaped level st.1));
      [|done].
    intros ii [du1 m1] st' _ Hdu1. simpl in Hdu1. unfold swap.
    pose proof (Hswap du1 (Connections level) rank (NumGhosts blk0)
                  (theWorld m1) Hdu1) as Hdu2.
    destruct (SwapImplicitUpdate du1 (Connections level) rank
                (NumGhosts blk0) (theWorld m1)) as [du2 w2].
    simpl in Hdu2. unfold for_up.
    apply (foldM_invariant
      (λ st : list (gmap vector3d varArray) * machine, shaped level st.1));
      [|done].
    intros bb [du4 m4] [du5 m5] _ Hdu4 Hstep. simpl in *.
    apply bind_Ok_inv in Hstep as (blk & Hblk & Hstep).
    apply bind_Ok_inv in Hstep as (aInv & _ & Hstep).
    apply bind_Ok_inv in Hstep as (x & Hx & Hstep).
    apply bind_Ok_inv in Hstep as ([x' err] & Hsweep & Hstep).
    apply bind_Ok_inv in Hstep as (du6 & Hset & [= <- _]).
    apply vec_at_Ok in Hblk as [_ Hblk]. apply vec_at_Ok in Hx as [_ Hx].
    eapply shaped_vec_set; [exact Hdu4|exact Hblk| |exact Hset].
    eapply covers_dom; [|exact (Forall2_lookup_lr _ _ _ _ _ _ Hdu4 Hblk Hx)].
    by apply (sweeps_dom blk [] phys inp aInv aInv 0 x) in Hsweep.
Qed.

End DriverInvariants.

Section DriverReturns.
Context `{Arith : Arithmetic} {physics : Type} `{Net : !Transport}.
Implicit Type level : @gridLevel Arith physics connection.
Implicit Type blk : @procBlock Arith physics.
Implicit Type du : list (gmap vector3d varArray).
Implicit Type m : machine.

(** One forward pass over the blocks, with the tables of the constructor *)
Lemma lusgs_forward_pass_total level (phys : physics) (inp : input)
  (ii : Z) du m :
  Forall proper_extents (blocks level) →
  shaped level du → diagonals_shaped level →
  ∃ st, for_up 0 (NumBlocks level) (λ bb '(du, m),
          blk ← Block level bb;
          reorder ← vec_at
            ((λ blk, HyperplaneReorder (NumI blk) (NumJ blk) (NumK blk))
               <$> blocks level) bb;
          aInv ← Diagonal level bb;
          x ← vec_at du bb;
          x ← LUSGS_Forward blk reorder phys inp aInv ii x;
          du ← vec_set du bb x;
          Ok (du, log (ForwardEv bb ii) m)) (du, m) = Ok st ∧
        shaped level st.1.
Proof.
  intros Hext Hdu Hdiag. unfold for_up.
  apply (foldM_total
    (λ st : list (gmap vector3d varArray) * machine, shaped level st.1));
    [|done].
  intros bb [du1 m1] Hbb%elem_of_seqZ Hdu1. simpl in Hdu1.
  unfold NumBlocks in Hbb.
  destruct (lookup_lt_is_Some_2 (blocks level) (Z.to_nat bb))
    as [blk Hblk]; [lia|].
  destruct (Forall2_lookup_l _ _ _ _ _ Hdiag Hblk) as (aInv & HaInv & Hca).
  destruct (Forall2_lookup_l _ _ _ _ _ Hdu1 Hblk) as (x & Hx & Hcx).
  rewrite Forall_forall in Hext.
  destruct (Hext blk) as (Hi & Hj & Hk); [by eapply list_elem_of_lookup_2|].
  destruct (LUSGS_sweeps_on_block_table blk phys inp aInv ii x Hi Hj Hk
              Hca Hcx) as [Hfwd _].
  unfold Block, Diagonal.
  rewrite (proj2 (vec_at_Ok (blocks level) bb blk)) by (split; [lia|done]).
  simpl.
  assert (Htable :
    vec_at ((λ blk, HyperplaneReorder (NumI blk) (NumJ blk) (NumK blk))
              <$> blocks level) bb
    = Ok (HyperplaneReorder (NumI blk) (NumJ blk) (NumK blk))).
  { apply vec_at_Ok. split; [lia|]. by rewrite list_lookup_fmap, Hblk. }
  rewrite Htable. simpl.
  rewrite (proj2 (vec_at_Ok (diagonal level) bb aInv)) by (split; [lia|done]).
  simpl.
  rewrite (proj2 (vec_at_Ok du1 bb x)) by (split; [lia|done]). simpl.
  rewrite Hfwd. simpl.
  destruct (vec_set du1 bb _) as [du2|f] eqn:Hset.
  - eexists. split; [done|]. simpl.
    eapply shaped_vec_set; [exact Hdu1|exact Hblk| |exact Hset].
    eapply covers_dom; [|exact Hcx].
    by apply (sweeps_dom blk _ phys inp aInv aInv ii x) in Hfwd.
  - unfold vec_set in Hset.
    by rewrite (proj2 (vec_at_Ok du1 bb x)) in Hset by (split; [lia|done]).
Qed.

(** One backward pass over the blocks, with the tables of the constructor *)
Lemma lusgs_backward_pass_total level (phys : physics) (inp : input)
  (ii : Z) (e : double) du m :
  Forall proper_extents (blocks level) →
  shaped level du → diagonals_shaped level →
  ∃ st, for_up 0 (NumBlocks level) (λ bb '(matrixError, du, m),
          blk ← Block level bb;
          reorder ← vec_at
            ((λ blk, HyperplaneReorder (NumI blk) (NumJ blk) (NumK blk))
               <$> blocks level) bb;
          aInv ← Diagonal level bb;
          x ← vec_at du bb;
          '(x, err) ← LUSGS_Backward blk reorder phys inp aInv ii x;
          du ← vec_set du bb x;
          Ok (d_add matrixError err, du, log (BackwardEv bb ii) m))
          (e, du, m) = Ok st ∧
        shaped level st.1.2.
Proof.
  intros Hext Hdu Hdiag. unfold for_up.
  apply (foldM_total
    (λ st : double * list (gmap vector3d varArray) * machine,
       shaped level st.1.2)); [|done].
  intros bb [[e1 du1] m1] Hbb%elem_of_seqZ Hdu1. simpl in Hdu1.
  unfold NumBlocks in Hbb.
  destruct (lookup_lt_is_Some_2 (blocks level) (Z.to_nat bb))
    as [blk Hblk]; [lia|].
  destruct (Forall2_lookup_l _ _ _ _ _ Hdiag Hblk) as (aInv & HaInv & Hca).
  destruct (Forall2_lookup_l _ _ _ _ _ Hdu1 Hblk) as (x & Hx & Hcx).
  rewrite Forall_forall in Hext.
  destruct (Hext blk) as (Hi & Hj & Hk); [by eapply list_elem_of_lookup_2|].
  destruct (LUSGS_sweeps_on_block_table blk phys inp aInv ii x Hi Hj Hk
              Hca Hcx) as [_ Hbwd].
  destruct (spec_LUSGS_Backward _ _ _ _ _ _ _) as [x' err].
  unfold Block, Diagonal.
  rewrite (proj2 (vec_at_Ok (blocks level) bb blk)) by (split; [lia|done]).
  simpl.
  assert (Htable :
    vec_at ((λ blk, HyperplaneReorder (NumI blk) (NumJ blk) (NumK blk))
              <$> blocks level) bb
    = Ok (HyperplaneReorder (NumI blk) (NumJ blk) (NumK blk))).
  { apply vec_at_Ok. split; [lia|]. by rewrite list_lookup_fmap, Hblk. }
  rewrite Htable. simpl.
  rewrite (proj2 (vec_at_Ok (diagonal level) bb aInv)) by (split; [lia|done]).
  simpl.
  rewrite (proj2 (vec_at_Ok du1 bb x)) by (split; [lia|done]). simpl.
  rewrite Hbwd. simpl.
  destruct (vec_set du1 bb x') as [du2|f] eqn:Hset.
  - simpl. eexists. split; [done|]. simpl.
    eapply shaped_vec_set; [exact Hdu1|exact Hblk| |exact Hset].
    eapply covers_dom; [|exact Hcx].
    by apply (sweeps_dom blk _ phys inp aInv aInv ii x) in Hbwd.
  - unfold vec_set in Hset.
    by rewrite (proj2 (vec_at_Ok du1 bb x)) in Hset by (split; [lia|done]).
Qed.

(** X15: the solver the constructor builds from a level runs on that
    level: when the level has a block, no block has a negative extent,
    the update arrays and the diagonals have the interior cells of their
    blocks and the ghost exchange keeps them, lusgs::Relax returns for
    every number of sweeps, with update arrays of the same shape. *)
Theorem lusgs_Relax_after_constructor (type : string) level (self : lusgs)
  (phys : physics) (inp : input) (rank sweeps : Z) du m :
  lusgs_ctor type level = Ok self →
  blocks level ≠ [] →
  Forall proper_extents (blocks level) →
  shaped level du → diagonals_shaped level → exchange_keeps_shape level →
  ∃ e du' m',
    lusgs_Relax self level phys inp rank sweeps du m = Ok (e, du', m') ∧
    shaped level du'.
Proof.
  rewrite lusgs_ctor_Ok. intros [= <-] Hblocks Hext Hdu Hdiag Hswap.
  destruct (Block_first level Hblocks) as [blk0 Hblk0].
  unfold lusgs_Relax, NumBlocks. simpl.
  rewrite !bool_decide_eq_true_2;
    [|by rewrite (Forall2_length _ _ _ Hdu)
     |by rewrite length_fmap, (Forall2_length _ _ _ Hdu)].
  simpl. rewrite Hblk0. simpl.
  destruct (foldM_total
    (λ st : double * list (gmap vector3d varArray) * machine,
       shaped level st.1.2)
    (λ ii '(matrixError, du, m),
       let '(du, m) :=
         swap du (Connections level) rank (NumGhosts blk0) m in
       '(du, m) ← for_up 0 (NumBlocks level) (λ bb '(du, m),
         blk ← Block level bb;
         reorder ← vec_at
           ((λ blk, HyperplaneReorder (NumI blk) (NumJ blk) (NumK blk))
              <$> blocks level) bb;
         aInv ← Diagonal level bb;
         x ← vec_at du bb;
         x ← LUSGS_Forward blk reorder phys inp aInv ii x;
         du ← vec_set du bb x;
         Ok (du, log (ForwardEv bb ii) m)) (du, m);
       let '(du, m) :=
         swap du (Connections level) rank (NumGhosts blk0) m in
       for_up 0 (NumBlocks level) (λ bb '(matrixError, du, m),
         blk ← Block level bb;
         reorder ← vec_at
           ((λ blk, HyperplaneReorder (NumI blk) (NumJ blk) (NumK blk))
              <$> blocks level) bb;
         aInv ← Diagonal level bb;
         x ← vec_at du bb;
         '(x, err) ← LUSGS_Backward blk reorder phys inp aInv ii x;
         du ← vec_set du bb x;
         Ok (d_add matrixError err, du, log (BackwardEv bb ii) m))
         (matrixError, du, m))
    (seqZ 0 (sweeps - 0)) (d_lit0, du, m))
    as ([[e du'] m'] & Hrun & Hshape); [|done|].
  - intros ii [[e1 du1] m1] _ Hdu1. simpl in Hdu1. unfold swap at 1.
    pose proof (Hswap du1 (Connections level) rank (NumGhosts blk0)
                  (theWorld m1) Hdu1) as Hdu2.
    destruct (SwapImplicitUpdate du1 (Connections level) rank
                (NumGhosts blk0) (theWorld m1)) as [du2 w2].
    simpl in Hdu2.
    destruct (lusgs_forward_pass_total level phys inp ii du2
                (log (SwapEv (NumGhosts blk0))
                   {| theWorld := w2; trace := trace m1 |}) Hext Hdu2 Hdiag)
      as ([du3 m3] & Hfwd & Hdu3).
    rewrite Hfwd. simpl in *. unfold swap.
    pose proof (Hswap du3 (Connections level) rank (NumGhosts blk0)
                  (theWorld m3) Hdu3) as Hdu4.
    destruct (SwapImplicitUpdate du3 (Connections level) rank
                (NumGhosts blk0) (theWorld m3)) as [du4 w4].
    simpl in Hdu4.
    by apply lusgs_backward_pass_total.
  - unfold for_up at 1. unfold NumBlocks in Hrun. rewrite Hrun. eauto.
Qed.

End DriverReturns.

(** ** One DP-LUR pass, and sweeps in instalments *)

Lemma foldM_index_free {S I J} (body : S → result S) (l1 : list I)
  (l2 : list J) (s : S) :
  length l1 = length l2 →
  foldM (λ _, body) l1 s = foldM (λ _, body) l2 s.
Proof.
  revert l2 s. induction l1 as [|i l1 IH]; intros [|j l2] s Hlen;
    try done.
  rewrite !foldM_cons. destruct (body s) as [t|f]; simpl; [|done].
  apply IH. by injection Hlen.
Qed.

Lemma for_up_eq {S} (lo hi : Z) (body : Z → S → result S) (s : S) :
  for_up lo hi body s = foldM body (seqZ lo (hi - lo)) s.
Proof. done. Qed.

Section Instalments.
Context `{Arith : Arithmetic} {physics : Type} `{Net : !Transport}.
Implicit Type level : @gridLevel Arith physics connection.
Implicit Type blk : @procBlock Arith physics.
Implicit Type du : list (gmap vector3d varArray).
Implicit Type m : machine.

(** The DP-LUR pass over the first [k] blocks *)
Lemma dplur_pass_blocks level (phys : physics) (inp : input) (k : nat)
  du m du' m' :
  foldM (λ bb '(du, m),
      blk ← Block level bb;
      aInv ← Diagonal level bb;
      x ← vec_at du bb;
      '(x, _) ← DPLUR blk phys inp aInv x;
      du ← vec_set du bb x;
      Ok (du, log (DPLUREv bb) m)) (seqZ 0 (Z.of_nat k)) (du, m)
  = Ok (du', m') →
  length du' = length du ∧
  (∀ (bb : nat) blk, (bb < k)%nat → blocks level !! bb = Some blk →
     ∃ aInv x x' err,
       diagonal level !! bb = Some aInv ∧ du !! bb = Some x ∧
       DPLUR blk phys inp aInv x = Ok (x', err) ∧ du' !! bb = Some x') ∧
  (∀ bb : nat, (k ≤ bb)%nat → du' !! bb = du !! bb).
Proof.
  revert du' m'. induction k as [|k IH]; intros du' m' Hrun.
  - injection Hrun as <- <-. split; [done|]. split; [|done].
    intros bb blk Hbb. lia.
  - rewrite seqZ_S, foldM_app in Hrun.
    apply bind_Ok_inv in Hrun as ([du1 m1] & Hpre & Hlast).
    destruct (IH du1 m1 Hpre) as (Hlen & Hdone & Hrest).
    rewrite foldM_cons, Z.add_0_l in Hlast.
    apply bind_Ok_inv in Hlast as ([du2 m2] & Hlast & [= <- <-]).
    apply bind_Ok_inv in Hlast as (blk & Hblk & Hlast).
    apply bind_Ok_inv in Hlast as (aInv & HaInv & Hlast).
    apply bind_Ok_inv in Hlast as (x & Hx & Hlast).
    apply bind_Ok_inv in Hlast as ([x' err] & Hsweep & Hlast).
    apply bind_Ok_inv in Hlast as (du3 & Hset & [= <- <-]).
    unfold vec_set in Hset.
    apply bind_Ok_inv in Hset as (_ & _ & [= <-]).
    unfold Block, Diagonal in *.
    apply vec_at_Ok in Hblk as [_ Hblk]. apply vec_at_Ok in HaInv as [_ HaInv].
    apply vec_at_Ok in Hx as [_ Hx]. rewrite Nat2Z.id in *.
    split; [by rewrite length_insert|]. split.
    + intros bb blk' Hbb Hblk'. destruct (decide (bb = k)) as [->|Hne].
      * rewrite Hblk in Hblk'. injection Hblk' as <-.
        exists aInv, x, x', err. split; [done|].
        split; [by rewrite <- Hrest|]. split; [done|].
        apply list_lookup_insert_eq. by eapply lookup_lt_Some.
      * destruct (Hdone bb blk' ltac:(lia) Hblk')
          as (a & y & y' & e' & Ha & Hy & Hrun' & Hy').
        exists a, y, y', e'. split; [done|]. split; [done|].
        split; [done|]. by rewrite list_lookup_insert_ne.
    + intros bb Hbb. rewrite list_lookup_insert_ne by lia.
      apply Hrest. lia.
Qed.

(** X16: in one sweep of dplur::Relax the blocks do not see one another:
    the array the call hands back for a block is the DP-LUR sweep of that
    block on the array the ghost exchange delivered for it, whatever the
    sweeps of the other blocks did. *)
Theorem dplur_Relax_one_sweep level (phys : physics) (inp : input)
  (rank : Z) du m (e : double) du' m' :
  dplur_Relax level phys inp rank 1 du m = Ok (e, du', m') →
  ∃ blk0,
    blocks level !! 0%nat = Some blk0 ∧
    let exchanged :=
      (SwapImplicitUpdate du (Connections level) rank (NumGhosts blk0)
         (theWorld m)).1 in
    length du' = length exchanged ∧
    ∀ (bb : nat) blk,
      blocks level !! bb = Some blk →
      ∃ aInv x x' err,
        diagonal level !! bb = Some aInv ∧ exchanged !! bb = Some x ∧
        DPLUR blk phys inp aInv x = Ok (x', err) ∧ du' !! bb = Some x'.
Proof.
  unfold dplur_Relax. intros Hrun.
  apply bind_Ok_inv in Hrun as (_ & _ & Hrun).
  apply bind_Ok_inv in Hrun as (blk0 & Hblk0 & Hrun).
  apply vec_at_Ok in Hblk0 as [_ Hblk0]. exists blk0. split; [done|].
  apply bind_Ok_inv in Hrun as ([du1 m1] & Hrun & [= _ <- <-]).
  unfold for_up at 1 in Hrun.
  change (seqZ 0 (1 - 0)) with [0] in Hrun.
  rewrite foldM_cons in Hrun.
  apply bind_Ok_inv in Hrun as ([du2 m2] & Hrun & [= <- <-]).
  unfold swap in Hrun.
  destruct (SwapImplicitUpdate du (Connections level) rank (NumGhosts blk0)
              (theWorld m)) as [du3 w3]. simpl.
  unfold for_up, NumBlocks in Hrun. rewrite Z.sub_0_r in Hrun.
  apply dplur_pass_blocks in Hrun as (Hlen & Hdone & _).
  split; [done|]. intros bb blk Hblk. apply Hdone; [|done].
  by eapply lookup_lt_Some.
Qed.

Lemma dplur_sweeps_keep_length level (phys : physics) (inp : input)
  (rank numG : Z) (idx : list Z) du m du' m' :
  exchange_keeps_length →
  foldM (λ ii '(du, m),
      let '(du, m) := swap du (Connections level) rank numG m in
      for_up 0 (NumBlocks level) (λ bb '(du, m),
        blk ← Block level bb;
        aInv ← Diagonal level bb;
        x ← vec_at du bb;
        '(x, _) ← DPLUR blk phys inp aInv x;
        du ← vec_set du bb x;
        Ok (du, log (DPLUREv bb) m)) (du, m)) idx (du, m) = Ok (du', m') →
  length du' = length du.
Proof.
  intros Hkeep.
  apply (foldM_invariant
    (λ st : list (gmap vector3d varArray) * machine,
       length st.1 = length du)); [|done].
  intros ii [du1 m1] [du2 m2] _ Hdu1. simpl in Hdu1. unfold swap.
  pose proof (Hkeep du1 (Connections level) rank numG (theWorld m1)) as Hlen.
  destruct (SwapImplicitUpdate du1 (Connections level) rank numG
              (theWorld m1)) as [du3 w3].
  simpl in Hlen. unfold for_up, NumBlocks. rewrite Z.sub_0_r. intros Hrun.
  apply dplur_pass_blocks in Hrun as (Hlen' & _). simpl. congruence.
Qed.

(** X17: DP-LUR sweeps can be run in instalments: when the ghost exchange
    hands back as many arrays as it is given, and for numbers of sweeps
    s1 >= 0 and s2 >= 0, a call of dplur::Relax with s1 + s2 sweeps does
    what a call with s1 sweeps followed by a call with s2 sweeps on its
    result does, failures included. *)
Theorem dplur_Relax_instalments level (phys : physics) (inp : input)
  (rank s1 s2 : Z) du m :
  exchange_keeps_length → 0 ≤ s1 → 0 ≤ s2 →
  dplur_Relax level phys inp rank (s1 + s2) du m
  = '(_, du', m') ← dplur_Relax level phys inp rank s1 du m;
    dplur_Relax level phys inp rank s2 du' m'.
Proof.
  intros Hkeep Hs1 Hs2. unfold dplur_Relax.
  destruct (bool_decide (NumBlocks level = Z.of_nat (length du))) eqn:Hassert;
    [|done].
  simpl. destruct (Block level 0) as [blk0|f] eqn:Hblk0; [|done]. simpl.
  rewrite (for_up_eq 0 (s1 + s2)), (for_up_eq 0 s1), !Z.sub_0_r.
  rewrite seqZ_app, foldM_app by done.
  match goal with
  | |- context [foldM ?body (seqZ 0 s1) (du, m)] =>
      destruct (foldM body (seqZ 0 s1) (du, m)) as [[du1 m1]|f] eqn:Hfirst
  end; simpl; [|done].
  apply dplur_sweeps_keep_length in Hfirst as Hlen; [|done].
  rewrite Hlen, Hassert. simpl.
  rewrite (for_up_eq 0 s2), Z.sub_0_r, Z.add_0_l.
  f_equal.
  apply (foldM_index_free
    (λ st : list (gmap vector3d varArray) * machine,
       let '(du, m) := st in
       let '(du, m) :=
         swap du (Connections level) rank (NumGhosts blk0) m in
       for_up 0 (NumBlocks level) (λ bb '(du, m),
         blk ← Block level bb;
         aInv ← Diagonal level bb;
         x ← vec_at du bb;
         '(x, _) ← DPLUR blk phys inp aInv x;
         du ← vec_set du bb x;
         Ok (du, log (DPLUREv bb) m)) (du, m))).
  by rewrite !length_seqZ.
Qed.

End Instalments.

(** ** One LU-SGS sweep of the driver *)

Section OneSweep.
Context `{Arith : Arithmetic} {physics : Type} `{Net : !Transport}.
Implicit Type level : @gridLevel Arith physics connection.
Implicit Type blk : @procBlock Arith physics.
Implicit Type du : list (gmap vector3d varArray).
Implicit Type m : machine.

(** The forward pass over the first [k] blocks *)
Lemma lusgs_forward_pass_blocks (self : lusgs) level (phys : physics)
  (inp : input) (ii : Z) (k : nat) du m du' m' :
  foldM (λ bb '(du, m),
      blk ← Block level bb;
      reorder ← vec_at (reorder_ self) bb;
      aInv ← Diagonal level bb;
      x ← vec_at du bb;
      x ← LUSGS_Forward blk reorder phys inp aInv ii x;
      du ← vec_set du bb x;
      Ok (du, log (ForwardEv bb ii) m)) (seqZ 0 (Z.of_nat k)) (du, m)
  = Ok (du', m') →
  length du' = length du ∧ theWorld m' = theWorld m ∧
  (∀ (bb : nat) blk, (bb < k)%nat → blocks level !! bb = Some blk →
     ∃ reorder aInv x x',
       reorder_ self !! bb = Some reorder ∧
       diagonal level !! bb = Some aInv ∧ du !! bb = Some x ∧
       LUSGS_Forward blk reorder phys inp aInv ii x = Ok x' ∧
       du' !! bb = Some x') ∧
  (∀ bb : nat, (k ≤ bb)%nat → du' !! bb = du !! bb).
Proof.
  revert du' m'. induction k as [|k IH]; intros du' m' Hrun.
  - injection Hrun as <- <-. split; [done|]. split; [done|].
    split; [|done]. intros bb blk Hbb. lia.
  - rewrite seqZ_S, foldM_app in Hrun.
    apply bind_Ok_inv in Hrun as ([du1 m1] & Hpre & Hlast).
    destruct (IH du1 m1 Hpre) as (Hlen & Hworld & Hdone & Hrest).
    rewrite foldM_cons, Z.add_0_l in Hlast.
    apply bind_Ok_inv in Hlast as ([du2 m2] & Hlast & [= <- <-]).
    apply bind_Ok_inv in Hlast as (blk & Hblk & Hlast).
    apply bind_Ok_inv in Hlast as (reorder & Hreorder & Hlast).
    apply bind_Ok_inv in Hlast as (aInv & HaInv & Hlast).
    apply bind_Ok_inv in Hlast as (x & Hx & Hlast).
    apply bind_Ok_inv in Hlast as (x' & Hsweep & Hlast).
    apply bind_Ok_inv in Hlast as (du3 & Hset & [= <- <-]).
    unfold vec_set in Hset.
    apply bind_Ok_inv in Hset as (_ & _ & [= <-]).
    unfold Block, Diagonal in *.
    apply vec_at_Ok in Hblk as [_ Hblk].
    apply vec_at_Ok in Hreorder as [_ Hreorder].
    apply vec_at_Ok in HaInv as [_ HaInv].
    apply vec_at_Ok in Hx as [_ Hx]. rewrite Nat2Z.id in *.
    split; [by rewrite length_insert|]. split; [done|]. split.
    + intros bb blk' Hbb Hblk'. destruct (decide (bb = k)) as [->|Hne].
      * rewrite Hblk in Hblk'. injection Hblk' as <-.
        exists reorder, aInv, x, x'. split; [done|]. split; [done|].
        split; [by rewrite <- Hrest|]. split; [done|].
        apply list_lookup_insert_eq. by eapply lookup_lt_Some.
      * destruct (Hdone bb blk' ltac:(lia) Hblk')
          as (r & a & y & y' & Hr & Ha & Hy & Hrun' & Hy').
        exists r, a, y, y'. split; [done|]. split; [done|].
        split; [done|]. split; [done|]. by rewrite list_lookup_insert_ne.
    + intros bb Hbb. rewrite list_lookup_insert_ne by lia.
      apply Hrest. lia.
Qed.

(** The backward pass over the first [k] blocks, with the errors it adds *)
Lemma lusgs_backward_pass_blocks (self : lusgs) level (phys : physics)
  (inp : input) (ii : Z) (k : nat) (e : double) du m (e' : double) du' m' :
  foldM (λ bb '(matrixError, du, m),
      blk ← Block level bb;
      reorder ← vec_at (reorder_ self) bb;
      aInv ← Diagonal level bb;
      x ← vec_at du bb;
      '(x, err) ← LUSGS_Backward blk reorder phys inp aInv ii x;
      du ← vec_set du bb x;
      Ok (d_add matrixError err, du, log (BackwardEv bb ii) m))
    (seqZ 0 (Z.of_nat k)) (e, du, m)
  = Ok (e', du', m') →
  ∃ errs : list double,
    length errs = k ∧ e' = fold_left d_add errs e ∧
    length du' = length du ∧ theWorld m' = theWorld m ∧
    (∀ (bb : nat) blk, (bb < k)%nat → blocks level !! bb = Some blk →
       ∃ reorder aInv x x' err,
         reorder_ self !! bb = Some reorder ∧
         diagonal level !! bb = Some aInv ∧ du !! bb = Some x ∧
         LUSGS_Backward blk reorder phys inp aInv ii x = Ok (x', err) ∧
         du' !! bb = Some x' ∧ errs !! bb = Some err) ∧
    (∀ bb : nat, (k ≤ bb)%nat → du' !! bb = du !! bb).
Proof.
  revert e' du' m'. induction k as [|k IH]; intros e' du' m' Hrun.
  - injection Hrun as <- <- <-. exists []. repeat (split; [done|]).
    split; [|done]. intros bb blk Hbb. lia.
  - rewrite seqZ_S, foldM_app in Hrun.
    apply bind_Ok_inv in Hrun as ([[e1 du1] m1] & Hpre & Hlast).
    destruct (IH e1 du1 m1 Hpre)
      as (errs & Herrs & He1 & Hlen & Hworld & Hdone & Hrest).
    rewrite foldM_cons, Z.add_0_l in Hlast.
    apply bind_Ok_inv in Hlast as ([[e2 du2] m2] & Hlast & [= <- <- <-]).
    apply bind_Ok_inv in Hlast as (blk & Hblk & Hlast).
    apply bind_Ok_inv in Hlast as (reorder & Hreorder & Hlast).
    apply bind_Ok_inv in Hlast as (aInv & HaInv & Hlast).
    apply bind_Ok_inv in Hlast as (x & Hx & Hlast).
    apply bind_Ok_inv in Hlast as ([x' err] & Hsweep & Hlast).
    apply bind_Ok_inv in Hlast as (du3 & Hset & [= <- <- <-]).
    unfold vec_set in Hset.
    apply bind_Ok_inv in Hset as (_ & _ & [= <-]).
    unfold Block, Diagonal in *.
    apply vec_at_Ok in Hblk as [_ Hblk].
    apply vec_at_Ok in Hreorder as [_ Hreorder].
    apply vec_at_Ok in HaInv as [_ HaInv].
    apply vec_at_Ok in Hx as [_ Hx]. rewrite Nat2Z.id in *.
    exists (errs ++ [err]).
    split; [rewrite length_app; simpl; lia|].
    split; [by rewrite fold_left_app, He1|].
    split; [by rewrite length_insert|]. split; [done|]. split.
    + intros bb blk' Hbb Hblk'. destruct (decide (bb = k)) as [->|Hne].
      * rewrite Hblk in Hblk'. injection Hblk' as <-.
        exists reorder, aInv, x, x', err. split; [done|]. split; [done|].
        split; [by rewrite <- Hrest|]. split; [done|]. split.
        -- apply list_lookup_insert_eq. by eapply lookup_lt_Some.
        -- rewrite lookup_app_r by lia. by rewrite Herrs, Nat.sub_diag.
      * destruct (Hdone bb blk' ltac:(lia) Hblk')
          as (r & a & y & y' & er & Hr & Ha & Hy & Hrun' & Hy' & Her).
        exists r, a, y, y', er. split; [done|]. split; [done|].
        split; [done|]. split; [done|]. split.
        -- by rewrite list_lookup_insert_ne.
        -- rewrite lookup_app_l; [done|]. by eapply lookup_lt_Some.
    + intros bb Hbb. rewrite list_lookup_insert_ne by lia.
      apply Hrest. lia.
Qed.

(** X18: one sweep of lusgs::Relax that returns has exchanged the ghost
    values, replaced the array of every block by its forward sweep (sweep
    number 0), exchanged again, replaced the array of every block by its
    backward sweep, and returns the errors of the backward sweeps added
    up from 0.0 in block order; each block is swept on the array the
    exchange before delivered for it. *)
Theorem lusgs_Relax_one_sweep (self : lusgs) level (phys : physics)
  (inp : input) (rank : Z) du m (e : double) du' m' :
  lusgs_Relax self level phys inp rank 1 du m = Ok (e, du', m') →
  ∃ blk0 (mid : list (gmap vector3d varArray)) (errs : list double),
    blocks level !! 0%nat = Some blk0 ∧
    let first :=
      SwapImplicitUpdate du (Connections level) rank (NumGhosts blk0)
        (theWorld m) in
    let second :=
      SwapImplicitUpdate mid (Connections level) rank (NumGhosts blk0)
        first.2 in
    (∀ (bb : nat) blk,
       blocks level !! bb = Some blk →
       ∃ reorder aInv x x',
         reorder_ self !! bb = Some reorder ∧
         diagonal level !! bb = Some aInv ∧ first.1 !! bb = Some x ∧
         LUSGS_Forward blk reorder phys inp aInv 0 x = Ok x' ∧
         mid !! bb = Some x') ∧
    (∀ (bb : nat) blk,
       blocks level !! bb = Some blk →
       ∃ reorder aInv x x' err,
         reorder_ self !! bb = Some reorder ∧
         diagonal level !! bb = Some aInv ∧ second.1 !! bb = Some x ∧
         LUSGS_Backward blk reorder phys inp aInv 0 x = Ok (x', err) ∧
         du' !! bb = Some x' ∧ errs !! bb = Some err) ∧
    length errs = length (blocks level) ∧
    e = fold_left d_add errs d_lit0 ∧
    theWorld m' = second.2.
Proof.
  unfold lusgs_Relax. intros Hrun.
  apply bind_Ok_inv in Hrun as (_ & _ & Hrun).
  apply bind_Ok_inv in Hrun as (_ & _ & Hrun).
  apply bind_Ok_inv in Hrun as (blk0 & Hblk0 & Hrun).
  apply vec_at_Ok in Hblk0 as [_ Hblk0].
  rewrite for_up_eq in Hrun. change (seqZ 0 (1 - 0)) with [0] in Hrun.
  rewrite foldM_cons in Hrun.
  apply bind_Ok_inv in Hrun as ([[e1 du1] m1] & Hrun & [= <- <- <-]).
  unfold swap at 1 in Hrun.
  destruct (SwapImplicitUpdate du (Connections level) rank (NumGhosts blk0)
              (theWorld m)) as [du2 w2] eqn:Hfirst.
  apply bind_Ok_inv in Hrun as ([mid m3] & Hfwd & Hrun).
  rewrite for_up_eq, Z.sub_0_r in Hfwd. unfold NumBlocks in Hfwd.
  apply lusgs_forward_pass_blocks in Hfwd as (_ & Hw3 & Hfwd & _).
  unfold swap in Hrun. rewrite Hw3 in Hrun. simpl in Hrun.
  destruct (SwapImplicitUpdate mid (Connections level) rank (NumGhosts blk0)
              w2) as [du4 w4] eqn:Hsecond.
  rewrite for_up_eq, Z.sub_0_r in Hrun. unfold NumBlocks in Hrun.
  apply lusgs_backward_pass_blocks in Hrun
    as (errs & Herrs & He & _ & Hw & Hbwd & _).
  exists blk0, mid, errs. split; [done|]. cbv zeta. cbn [fst snd].
  rewrite Hfirst. cbn [fst snd]. rewrite Hsecond. cbn [fst snd].
  split; [|split; [|split; [done|split; [done|done]]]].
  - intros bb blk Hblk. apply Hfwd; [|done]. by eapply lookup_lt_Some.
  - intros bb blk Hblk. apply Hbwd; [|done]. by eapply lookup_lt_Some.
Qed.

End OneSweep.

(** ** The drivers, sweep after sweep *)

Lemma seqZ_to_nat (lo n : Z) : seqZ lo n = seqZ lo (Z.of_nat (Z.to_nat n)).
Proof.
  destruct (decide (0 ≤ n)) as [Hn|Hn]; [by rewrite Z2Nat.id|].
  by rewrite !seqZ_nil by lia.
Qed.

(** A loop over [n] consecutive indices whose iterations each make one
    sweep makes [n] sweeps in a row. *)
Lemma foldM_sweeps_from {St T} (proj : St → T) (sweep : Z → T → T → Prop)
  (body : Z → St → result St) (n : nat) :
  (∀ ii t t', body ii t = Ok t' → sweep ii (proj t) (proj t')) →
  ∀ lo s s',
    foldM body (seqZ lo (Z.of_nat n)) s = Ok s' →
    sweeps_from sweep lo n (proj s) (proj s').
Proof.
  intros Hbody. induction n as [|n IH]; intros lo s s' Hrun.
  - by injection Hrun as <-.
  - rewrite seqZ_cons in Hrun by lia. rewrite foldM_cons in Hrun.
    apply bind_Ok_inv in Hrun as (t & Ht & Hrun).
    exists (proj t). split; [by apply Hbody|].
    apply IH. by replace (lo + 1) with (Z.succ lo) by lia;
      replace (Z.of_nat n) with (Z.pred (Z.of_nat (S n))) by lia.
Qed.

Section DriverSweeps.
Context `{Arith : Arithmetic} {physics : Type} `{Net : !Transport}.
Implicit Type level : @gridLevel Arith physics connection.
Implicit Type blk : @procBlock Arith physics.
Implicit Type du : list (gmap vector3d varArray).
Implicit Type m : machine.

(** The pass over the blocks does not touch the world behind the
    exchanges. *)
Lemma dplur_pass_world level (phys : physics) (inp : input)
  (idx : list Z) du m du' m' :
  foldM (λ bb '(du, m),
      blk ← Block level bb;
      aInv ← Diagonal level bb;
      x ← vec_at du bb;
      '(x, _) ← DPLUR blk phys inp aInv x;
      du ← vec_set du bb x;
      Ok (du, log (DPLUREv bb) m)) idx (du, m)
  = Ok (du', m') →
  theWorld m' = theWorld m.
Proof.
  apply (foldM_invariant
    (λ st : list (gmap vector3d varArray) * machine,
       theWorld st.2 = theWorld m)); [|done].
  intros bb [du1 m1] [du2 m2] _ Hm1 Hstep. simpl in *.
  apply bind_Ok_inv in Hstep as (blk & _ & Hstep).
  apply bind_Ok_inv in Hstep as (aInv & _ & Hstep).
  apply bind_Ok_inv in Hstep as (x & _ & Hstep).
  apply bind_Ok_inv in Hstep as ([x' err] & _ & Hstep).
  by apply bind_Ok_inv in Hstep as (du3 & _ & [= _ <-]).
Qed.

(** The body of the sweep loop of dplur::Relax makes one DP-LUR sweep. *)
Lemma dplur_body_sweep level (phys : physics) (inp : input) (rank numG : Z)
  du m du' m' :
  (let '(du, m) := swap du (Connections level) rank numG m in
   for_up 0 (NumBlocks level) (λ bb '(du, m),
     blk ← Block level bb;
     aInv ← Diagonal level bb;
     x ← vec_at du bb;
     '(x, _) ← DPLUR blk phys inp aInv x;
     du ← vec_set du bb x;
     Ok (du, log (DPLUREv bb) m)) (du, m)) = Ok (du', m') →
  dplur_sweep level phys inp rank numG (du, theWorld m) (du', theWorld m').
Proof.
  unfold swap, dplur_sweep. cbn [fst snd].
  destruct (SwapImplicitUpdate du (Connections level) rank numG (theWorld m))
    as [du1 w1]. cbn [fst snd].
  rewrite for_up_eq, Z.sub_0_r. unfold NumBlocks. intros Hrun.
  pose proof (dplur_pass_world _ _ _ _ _ _ _ _ Hrun) as Hworld.
  apply dplur_pass_blocks in Hrun as (Hlen & Hdone & Hrest).
  split; [|done]. split; [done|]. split.
  - intros bb blk Hblk. apply Hdone; [|done]. by eapply lookup_lt_Some.
  - intros bb Hnone. apply Hrest. by apply lookup_ge_None.
Qed.

(** A call of dplur::Relax that returns has returned 0.0 and has made its
    sweeps, one after the other, each with the ghost count of block 0. *)
Lemma dplur_Relax_sweeps level (phys : physics) (inp : input)
  (rank sweeps : Z) du m (e : double) du' m' :
  dplur_Relax level phys inp rank sweeps du m = Ok (e, du', m') →
  e = d_lit0 ∧
  ∃ blk0,
    blocks level !! 0%nat = Some blk0 ∧
    sweeps_from (λ _, dplur_sweep level phys inp rank (NumGhosts blk0))
      0 (Z.to_nat sweeps) (du, theWorld m) (du', theWorld m').
Proof.
  unfold dplur_Relax. intros Hrun.
  apply bind_Ok_inv in Hrun as (_ & _ & Hrun).
  apply bind_Ok_inv in Hrun as (blk0 & Hblk0 & Hrun).
  apply vec_at_Ok in Hblk0 as [_ Hblk0].
  apply bind_Ok_inv in Hrun as ([du1 m1] & Hrun & [= <- <- <-]).
  split; [done|]. exists blk0. split; [done|].
  rewrite for_up_eq, Z.sub_0_r, seqZ_to_nat in Hrun.
  apply (foldM_sweeps_from
    (λ st : list (gmap vector3d varArray) * machine, (st.1, theWorld st.2))
    (λ _, dplur_sweep level phys inp rank (NumGhosts blk0))) in Hrun;
    [exact Hrun|].
  intros ii [du2 m2] [du3 m3] Hbody. by apply dplur_body_sweep.
Qed.

(** The body of the sweep loop of lusgs::Relax makes one LU-SGS sweep. *)
Lemma lusgs_body_sweep (self : lusgs) level (phys : physics) (inp : input)
  (rank numG ii : Z) (e : double) du m (e' : double) du' m' :
  (let '(du, m) := swap du (Connections level) rank numG m in
   '(du, m) ← for_up 0 (NumBlocks level) (λ bb '(du, m),
     blk ← Block level bb;
     reorder ← vec_at (reorder_ self) bb;
     aInv ← Diagonal level bb;
     x ← vec_at du bb;
     x ← LUSGS_Forward blk reorder phys inp aInv ii x;
     du ← vec_set du bb x;
     Ok (du, log (ForwardEv bb ii) m)) (du, m);
   let '(du, m) := swap du (Connections level) rank numG m in
   for_up 0 (NumBlocks level) (λ bb '(matrixError, du, m),
     blk ← Block level bb;
     reorder ← vec_at (reorder_ self) bb;
     aInv ← Diagonal level bb;
     x ← vec_at du bb;
     '(x, err) ← LUSGS_Backward blk reorder phys inp aInv ii x;
     du ← vec_set du bb x;
     Ok (d_add matrixError err, du, log (BackwardEv bb ii) m))
     (e, du, m)) = Ok (e', du', m') →
  lusgs_sweep self level phys inp rank numG ii
    (e, du, theWorld m) (e', du', theWorld m').
Proof.
  unfold swap at 1.
  destruct (SwapImplicitUpdate du (Connections level) rank numG (theWorld m))
    as [du1 w1] eqn:Hfirst.
  intros Hrun. apply bind_Ok_inv in Hrun as ([mid m2] & Hfwd & Hrun).
  rewrite for_up_eq, Z.sub_0_r in Hfwd. unfold NumBlocks in Hfwd.
  apply lusgs_forward_pass_blocks in Hfwd as (Hlen & Hw2 & Hfwd & Hrest).
  unfold swap in Hrun. rewrite Hw2 in Hrun. simpl in Hrun.
  destruct (SwapImplicitUpdate mid (Connections level) rank numG w1)
    as [du3 w3] eqn:Hsecond.
  rewrite for_up_eq, Z.sub_0_r in Hrun. unfold NumBlocks in Hrun.
  apply lusgs_backward_pass_blocks in Hrun
    as (errs & Herrs & He & Hlen' & Hw & Hbwd & Hrest').
  exists mid, errs. cbv zeta. cbn [fst snd].
  rewrite Hfirst. cbn [fst snd]. rewrite Hsecond. cbn [fst snd].
  split; [|split; [|done]].
  - split; [done|]. split.
    + intros bb blk Hblk. apply Hfwd; [|done]. by eapply lookup_lt_Some.
    + intros bb Hnone. apply Hrest. by apply lookup_ge_None.
  - split; [done|]. split; [done|]. split.
    + intros bb blk Hblk. apply Hbwd; [|done]. by eapply lookup_lt_Some.
    + intros bb Hnone. apply Hrest'. by apply lookup_ge_None.
Qed.

(** A call of lusgs::Relax that returns has made its sweeps, numbered from
    0, one after the other, each with the ghost count of block 0, starting
    from the error 0.0. *)
Lemma lusgs_Relax_sweeps (self : lusgs) level (phys : physics)
  (inp : input) (rank sweeps : Z) du m (e : double) du' m' :
  lusgs_Relax self level phys inp rank sweeps du m = Ok (e, du', m') →
  ∃ blk0,
    blocks level !! 0%nat = Some blk0 ∧
    sweeps_from (lusgs_sweep self level phys inp rank (NumGhosts blk0))
      0 (Z.to_nat sweeps) (d_lit0, du, theWorld m) (e, du', theWorld m').
Proof.
  unfold lusgs_Relax. intros Hrun.
  apply bind_Ok_inv in Hrun as (_ & _ & Hrun).
  apply bind_Ok_inv in Hrun as (_ & _ & Hrun).
  apply bind_Ok_inv in Hrun as (blk0 & Hblk0 & Hrun).
  apply vec_at_Ok in Hblk0 as [_ Hblk0]. exists blk0. split; [done|].
  rewrite for_up_eq, Z.sub_0_r, seqZ_to_nat in Hrun.
  apply (foldM_sweeps_from
    (λ st : double * list (gmap vector3d varArray) * machine,
       (st.1.1, st.1.2, theWorld st.2))
    (lusgs_sweep self level phys inp rank (NumGhosts blk0))) in Hrun;
    [exact Hrun|].
  intros ii [[e2 du2] m2] [[e3 du3] m3] Hbody. by apply lusgs_body_sweep.
Qed.

(** C1: for every grid level, physics model, input, rank, sweep count and
    update field, the value dplur::Relax returns is exactly the literal 0.0
    the matrix error is initialised with, while the update arrays it hands
    back are those its sweeps have written: in every sweep, after the ghost
    exchange, the array of every block is replaced by the result of the
    DPLUR sweep of that block, and the error that sweep computes is not
    used.  And on a level with a block, with update arrays and diagonals
    that have the interior cells of their blocks, and an exchange that keeps
    them, the call does return. *)
Theorem dplur_Relax_returns_zero level (phys : physics) (inp : input)
  (rank sweeps : Z) du m :
  (∀ (e : double) du' m',
     dplur_Relax level phys inp rank sweeps du m = Ok (e, du', m') →
     e = d_lit0 ∧
     ∃ blk0,
       blocks level !! 0%nat = Some blk0 ∧
       sweeps_from (λ _, dplur_sweep level phys inp rank (NumGhosts blk0))
         0 (Z.to_nat sweeps) (du, theWorld m) (du', theWorld m')) ∧
  (blocks level ≠ [] → shaped level du → diagonals_shaped level →
   exchange_keeps_shape level →
   ∃ du' m', dplur_Relax level phys inp rank sweeps du m
             = Ok (d_lit0, du', m')).
Proof.
  split.
  - intros e du' m'. apply dplur_Relax_sweeps.
  - apply dplur_Relax_total.
Qed.

(** C9: both drivers read the ghost count of block 0 before the sweep loop,
    whatever the number of sweeps, so a call that returns, with sweeps <= 0
    as well, was made on a level that has a block 0 (on a level without
    blocks the read is one the source does not define).  And every ghost
    exchange of the call, both exchanges of every LU-SGS sweep and the
    exchange of every DP-LUR sweep, is the call of SwapImplicitUpdate with
    the ghost count of block 0, for the arrays of all blocks at once,
    whatever the ghost counts of the other blocks are. *)
Theorem Relax_reads_block_0 (self : lusgs) level (phys : physics)
  (inp : input) (rank sweeps : Z) du m (e : double) du' m' :
  (lusgs_Relax self level phys inp rank sweeps du m = Ok (e, du', m') →
   ∃ blk0,
     blocks level !! 0%nat = Some blk0 ∧
     sweeps_from (lusgs_sweep self level phys inp rank (NumGhosts blk0))
       0 (Z.to_nat sweeps) (d_lit0, du, theWorld m) (e, du', theWorld m')) ∧
  (dplur_Relax level phys inp rank sweeps du m = Ok (e, du', m') →
   ∃ blk0,
     blocks level !! 0%nat = Some blk0 ∧
     sweeps_from (λ _, dplur_sweep level phys inp rank (NumGhosts blk0))
       0 (Z.to_nat sweeps) (du, theWorld m) (du', theWorld m')).
Proof.
  split.
  - apply lusgs_Relax_sweeps.
  - intros Hrun. by apply dplur_Relax_sweeps in Hrun as [_ ?].
Qed.

End DriverSweeps.

(** * The theorems at the instance of [Fixture] *)

Lemma covers_cells `{Arith : Arithmetic} {physics A : Type}
  (m : gmap vector3d A) (blk : @procBlock Arith physics) :
  Forall (λ c, is_Some (m !! c)) (interiorCells blk) → covers m blk.
Proof.
  rewrite Forall_forall. intros Hall c Hc.
  by apply Hall, elem_of_interiorCells.
Qed.

Lemma in_range_cells {A B : Type} (aInv : gmap vector3d A)
  (x : gmap vector3d B) (cells : list vector3d) :
  Forall (λ c, is_Some (aInv !! c) ∧ is_Some (x !! c)) cells →
  in_range aInv x cells.
Proof. rewrite Forall_forall. intros Hall c Hc. by apply Hall. Qed.

Ltac by_computation :=
  match goal with
  | |- ?P => apply (@bool_decide_unpack P _); vm_compute; exact I
  end.

Lemma succeeds_Ok {A : Type} (r : result A) :
  Cases.succeeds r = true → ∃ a, r = Ok a.
Proof. destruct r as [a|f]; [eauto|discriminate]. Qed.

Lemma Ok_inj {A : Type} (a b : A) : Ok a = Ok b → a = b.
Proof. by intros [= ->]. Qed.

#[local] Existing Instance Fixture.intArith.
#[local] Existing Instance Fixture.countingNet.

(** One sweep of dplur::Relax over the block of residual (1, 2): the value
    returned is 0, while the call hands back the update (-1, -2) that the
    sweep has written, after one exchange; the sweep itself has measured the
    squared change 5. *)
Lemma dplur_Relax_returns_zero_witness :
  ∃ du' m',
    dplur_Relax Fixture.level1 tt (Fixture.inp0 false) 0 1
      [Fixture.zero2] Fixture.machine0 = Ok (0, du', m') ∧
    du' = [<[(0, 0, 0) := -1]> (<[(1, 0, 0) := -2]> Fixture.zero2)] ∧
    theWorld m' = 1%nat ∧
    DPLUR (Fixture.block2 1) tt (Fixture.inp0 false) Fixture.diag2
      Fixture.zero2
    = Ok (<[(0, 0, 0) := -1]> (<[(1, 0, 0) := -2]> Fixture.zero2), 5).
Proof.
  assert (Hsweep :
    DPLUR (Fixture.block2 1) tt (Fixture.inp0 false) Fixture.diag2
      Fixture.zero2
    = Ok (<[(0, 0, 0) := -1]> (<[(1, 0, 0) := -2]> Fixture.zero2), 5))
    by (vm_compute; reflexivity).
  destruct (dplur_Relax_returns_zero Fixture.level1 tt (Fixture.inp0 false)
              0 1 [Fixture.zero2] Fixture.machine0) as [Hzero Htotal].
  destruct Htotal as (du' & m' & Hrun).
  - discriminate.
  - repeat constructor. apply covers_cells. by_computation.
  - repeat constructor. apply covers_cells. by_computation.
  - intros du conns rank numG w Hdu. exact Hdu.
  - exists du', m'. split; [exact Hrun|].
    destruct (Hzero _ _ _ Hrun) as (_ & blk0 & Hblk0 & Hsweeps).
    change (Z.to_nat 1) with 1%nat in Hsweeps.
    destruct Hsweeps as ([du1 w1] & [Hpass Hw] & Hlast).
    injection Hlast as -> ->.
    destruct Hpass as (Hlen & Hblocks & _).
    destruct (Hblocks 0%nat (Fixture.block2 1) eq_refl)
      as (aInv & x & x' & err & Ha & Hx & Hrun' & Hx').
    change (Some Fixture.diag2 = Some aInv) in Ha.
    change (Some Fixture.zero2 = Some x) in Hx.
    injection Ha as <-. injection Hx as <-.
    rewrite Hsweep in Hrun'.
    apply Ok_inj, pair_equal_spec in Hrun' as [<- _].
    change (length du1 = 1%nat) in Hlen.
    destruct du1 as [|y [|z du1]]; [discriminate|..|discriminate].
    change (Some y = Some (<[(0, 0, 0) := -1]>
                             (<[(1, 0, 0) := -2]> Fixture.zero2))) in Hx'.
    apply (inj Some) in Hx' as ->.
    split; [reflexivity|]. split; [exact Hw|exact Hsweep].
Defined.

Lemma LUSGS_Backward_spec_witness :
  LUSGS_Backward (Fixture.block2 1) (HyperplaneReorder 2 1 1) tt
    (Fixture.inp0 true) Fixture.diag2 1
    (<[(0, 0, 0) := 4]> Fixture.zero2)
  = Ok (spec_LUSGS_Backward (Fixture.block2 1) tt (Fixture.inp0 true)
          Fixture.diag2 1 (HyperplaneReorder 2 1 1)
          (<[(0, 0, 0) := 4]> Fixture.zero2)).
Proof.
  apply LUSGS_Backward_spec.
  - reflexivity.
  - apply in_range_cells. by_computation.
Defined.

Lemma LUSGS_Forward_spec_witness :
  LUSGS_Forward (Fixture.block2 1) (HyperplaneReorder 2 1 1) tt
    (Fixture.inp0 false) Fixture.diag2 0 Fixture.zero2
  = Ok (spec_LUSGS_Forward (Fixture.block2 1) tt (Fixture.inp0 false)
          Fixture.diag2 0 (HyperplaneReorder 2 1 1) Fixture.zero2) ∧
  (0 ≤ 0 → MatrixRequiresInitialization (Fixture.inp0 false) = false →
   ∀ upper,
     LUSGS_Forward (with_ImplicitUpper (Fixture.block2 1) upper)
       (HyperplaneReorder 2 1 1) tt (Fixture.inp0 false) Fixture.diag2 0
       Fixture.zero2
     = LUSGS_Forward (Fixture.block2 1) (HyperplaneReorder 2 1 1) tt
         (Fixture.inp0 false) Fixture.diag2 0 Fixture.zero2).
Proof.
  apply LUSGS_Forward_spec.
  - reflexivity.
  - apply in_range_cells. by_computation.
Defined.

Lemma InitializeMatrixUpdate_spec_witness :
  ∃ x, InitializeMatrixUpdate (Fixture.block2 1) (Fixture.inp0 true) tt
         Fixture.diag2 = Ok x ∧
       ∀ c, x !! c
            = if decide (interior (Fixture.block2 1) c)
              then spec_init_value (Fixture.block2 1) tt (Fixture.inp0 true)
                     Fixture.diag2 c
              else if decide (with_ghosts (Fixture.block2 1) c)
                   then Some 0 else None.
Proof.
  apply (InitializeMatrixUpdate_spec (Fixture.block2 1) (Fixture.inp0 true)
           tt Fixture.diag2).
  - reflexivity.
  - simpl. lia.
  - apply covers_cells. by_computation.
Defined.


(** The two interior cells visited in the opposite order *)
Lemma DPLUR_order_independent_witness :
  let x := <[(0, 0, 0) := 4]> Fixture.zero2 in
  let sweep := DPLUR (Fixture.block2 1) tt (Fixture.inp0 false) Fixture.diag2 in
  let permuted :=
    DPLUR_in_order [(1, 0, 0); (0, 0, 0)] (Fixture.block2 1) tt
      (Fixture.inp0 false) Fixture.diag2 in
  fst <$> permuted x = fst <$> sweep x ∧
  permuted x = sweep x ∧
  sweep x = Ok (<[(0, 0, 0) := -1]> (<[(1, 0, 0) := 2]> Fixture.zero2), 29).
Proof.
  intros x sweep permuted.
  destruct (DPLUR_order_independent (Fixture.block2 1) tt
              (Fixture.inp0 false) Fixture.diag2 x [(1, 0, 0); (0, 0, 0)])
    as (Hfield & _ & _ & Herror).
  - exact (perm_swap (0, 0, 0) (1, 0, 0) []).
  - split; [exact Hfield|]. split.
    + apply Herror.
      * intros u v w. apply Z.add_assoc.
      * intros u v. apply Z.add_comm.
    + vm_compute. reflexivity.
Defined.

Lemma Relax_without_sweeps_witness :
  let self := {| solverType_ := "lusgs";
                 reorder_ := [HyperplaneReorder 2 1 1] |} in
  lusgs_Relax self Fixture.level1 tt (Fixture.inp0 false) 0 0
    [Fixture.zero2] Fixture.machine0
  = Ok (0, [Fixture.zero2], Fixture.machine0) ∧
  dplur_Relax Fixture.level1 tt (Fixture.inp0 false) 0 (-1)
    [Fixture.zero2] Fixture.machine0
  = Ok (0, [Fixture.zero2], Fixture.machine0).
Proof.
  intros self. split.
  - apply (Relax_without_sweeps self Fixture.level1 tt (Fixture.inp0 false)
             0 0 [Fixture.zero2] Fixture.machine0);
      [lia|discriminate|reflexivity..].
  - apply (Relax_without_sweeps self Fixture.level1 tt (Fixture.inp0 false)
             0 (-1) [Fixture.zero2] Fixture.machine0);
      [lia|discriminate|reflexivity].
Defined.

(** The level of two blocks with one and with two ghost layers, and an
    exchange that writes down the ghost count it is given: after one LU-SGS
    sweep it has written down 1 twice, after two DP-LUR sweeps as well; the
    ghost count 2 of block 1 is never used. *)
Lemma Relax_reads_block_0_witness :
  (∃ e du' m',
     lusgs_Relax (Net := Cases.recordingNet) Cases.solver2 Fixture.level2 tt
       (Fixture.inp0 false) 0 1 Cases.du2 Cases.recording0
     = Ok (e, du', m') ∧
     theWorld m' = [1; 1]) ∧
  (∃ e du' m',
     dplur_Relax (Net := Cases.recordingNet) Fixture.level2 tt
       (Fixture.inp0 false) 0 2 Cases.du2 Cases.recording0
     = Ok (e, du', m') ∧
     theWorld m' = [1; 1]).
Proof.
  split.
  - assert (Hrun : ∃ r,
      lusgs_Relax (Net := Cases.recordingNet) Cases.solver2 Fixture.level2 tt
        (Fixture.inp0 false) 0 1 Cases.du2 Cases.recording0 = Ok r)
      by (apply succeeds_Ok; vm_compute; reflexivity).
    destruct Hrun as [[[e du'] m'] Hrun]. exists e, du', m'.
    split; [exact Hrun|].
    destruct (Relax_reads_block_0 (Net := Cases.recordingNet) Cases.solver2
                Fixture.level2 tt (Fixture.inp0 false) 0 1 Cases.du2
                Cases.recording0 e du' m') as [Hlusgs _].
    destruct (Hlusgs Hrun) as (blk0 & Hblk0 & Hsweeps).
    change (Some (Fixture.block2 1) = Some blk0) in Hblk0.
    injection Hblk0 as <-.
    change (Z.to_nat 1) with 1%nat in Hsweeps.
    destruct Hsweeps as ([[e1 du1] w1] & Hsweep & Hlast).
    injection Hlast as -> -> ->.
    destruct Hsweep as (mid & errs & _ & _ & _ & Hworld).
    exact Hworld.
  - assert (Hrun : ∃ r,
      dplur_Relax (Net := Cases.recordingNet) Fixture.level2 tt
        (Fixture.inp0 false) 0 2 Cases.du2 Cases.recording0 = Ok r)
      by (apply succeeds_Ok; vm_compute; reflexivity).
    destruct Hrun as [[[e du'] m'] Hrun]. exists e, du', m'.
    split; [exact Hrun|].
    destruct (Relax_reads_block_0 (Net := Cases.recordingNet) Cases.solver2
                Fixture.level2 tt (Fixture.inp0 false) 0 2 Cases.du2
                Cases.recording0 e du' m') as [_ Hdplur].
    destruct (Hdplur Hrun) as (blk0 & Hblk0 & Hsweeps).
    change (Some (Fixture.block2 1) = Some blk0) in Hblk0.
    injection Hblk0 as <-.
    change (Z.to_nat 2) with 2%nat in Hsweeps.
    destruct Hsweeps as ([du1 w1] & [_ Hw1] & [du2 w2] & [_ Hw2] & Hlast).
    injection Hlast as -> ->.
    cbn [fst snd] in Hw1, Hw2. rewrite Hw2, Hw1. reflexivity.
Defined.

(** The ghost cell (-1, 0, 0) of the block, under each of the three
    sweeps *)
Lemma sweeps_leave_ghosts_witness :
  let x := <[(-1, 0, 0) := 7]> Fixture.zero2 in
  let table := HyperplaneReorder 2 1 1 in
  (∃ x', LUSGS_Forward (Fixture.block2 1) table tt (Fixture.inp0 false)
           Fixture.diag2 0 x = Ok x' ∧ x' !! (-1, 0, 0) = Some 7) ∧
  (∃ x' e, LUSGS_Backward (Fixture.block2 1) table tt (Fixture.inp0 false)
             Fixture.diag2 0 x = Ok (x', e) ∧ x' !! (-1, 0, 0) = Some 7) ∧
  (∃ x' e, DPLUR (Fixture.block2 1) tt (Fixture.inp0 false)
             Fixture.diag2 x = Ok (x', e) ∧ x' !! (-1, 0, 0) = Some 7).
Proof.
  intros x table.
  destruct (sweeps_leave_ghosts (Fixture.block2 1) tt (Fixture.inp0 false)
              Fixture.diag2 0 x table (-1, 0, 0))
    as [_ Hghost].
  destruct Hghost as (Hfwd & Hbwd & Hdplur).
  { by_computation. }
  split; [|split].
  - assert (Hrun : ∃ x', LUSGS_Forward (Fixture.block2 1) table tt
                           (Fixture.inp0 false) Fixture.diag2 0 x = Ok x')
      by (vm_compute; eauto).
    destruct Hrun as [x' Hrun]. exists x'. split; [exact Hrun|].
    etrans; [exact (Hfwd x' Hrun)|vm_compute; reflexivity].
  - assert (Hrun : ∃ r, LUSGS_Backward (Fixture.block2 1) table tt
                          (Fixture.inp0 false) Fixture.diag2 0 x = Ok r)
      by (vm_compute; eauto).
    destruct Hrun as [[x' e] Hrun]. exists x', e. split; [exact Hrun|].
    etrans; [exact (Hbwd x' e Hrun)|vm_compute; reflexivity].
  - assert (Hrun : ∃ r, DPLUR (Fixture.block2 1) tt (Fixture.inp0 false)
                          Fixture.diag2 x = Ok r)
      by (vm_compute; eauto).
    destruct Hrun as [[x' e] Hrun]. exists x', e. split; [exact Hrun|].
    etrans; [exact (Hdplur x' e Hrun)|vm_compute; reflexivity].
Defined.

(** ** The scenarios of the specification and of the source comments *)

(** The block of 3 x 3 x 1 cells: s is non-decreasing along the table and
    the cell (2, 2, 0) comes last. *)
Example HyperplaneReorder_3x3x1 :
  HyperplaneReorder 3 3 1
  = [(0, 0, 0); (1, 0, 0); (0, 1, 0); (2, 0, 0); (1, 1, 0); (0, 2, 0);
     (2, 1, 0); (1, 2, 0); (2, 2, 0)].
Proof. vm_compute. reflexivity. Qed.

(** The diagram in the comment above [lusgs::LUSGS_Forward]: the place of
    every cell of the block of 8 x 6 cells in the table, row j = 5 first. *)
Example HyperplaneReorder_source_diagram :
  (λ j, (λ i, Fixture.position (i, j, 0) (HyperplaneReorder 8 6 1))
          <$> seqZ 0 8) <$> reverse (seqZ 0 6)
  = (fmap (M := list) Some) <$>
    [ [20; 26; 32; 37; 41; 44; 46; 47];
      [14; 19; 25; 31; 36; 40; 43; 45];
      [ 9; 13; 18; 24; 30; 35; 39; 42];
      [ 5;  8; 12; 17; 23; 29; 34; 38];
      [ 2;  4;  7; 11; 16; 22; 28; 33];
      [ 0;  1;  3;  6; 10; 15; 21; 27] ]%nat.
Proof. vm_compute. reflexivity. Qed.

(** The identity system: after one LU-SGS sweep the update is minus the
    residual; a second sweep changes nothing, and the error returned is 0;
    each sweep exchanges twice. *)
Example identity_system :
  let self := {| solverType_ := "lusgs";
                 reorder_ := [HyperplaneReorder 2 2 2] |} in
  Fixture.observe8
    <$> lusgs_Relax self Fixture.level8 tt (Fixture.inp0 false) 0 1
          [Fixture.zero8] Fixture.machine0
  = Ok (0, [[Some (-1); Some (-2); Some (-3); Some (-4);
             Some (-5); Some (-6); Some (-7); Some (-8)]], 2%nat) ∧
  Fixture.observe8
    <$> lusgs_Relax self Fixture.level8 tt (Fixture.inp0 false) 0 2
          [Fixture.zero8] Fixture.machine0
  = Ok (0, [[Some (-1); Some (-2); Some (-3); Some (-4);
             Some (-5); Some (-6); Some (-7); Some (-8)]], 4%nat).
Proof. split; vm_compute; reflexivity. Qed.

(** The same system under DP-LUR: the sweep measures the squared change
    1 + 4 + ... + 64 = 204, the driver returns 0. *)
Example identity_system_dplur :
  snd <$> DPLUR Fixture.block8 tt (Fixture.inp0 false) Fixture.diag8
            Fixture.zero8 = Ok 204 ∧
  Fixture.observe8
    <$> dplur_Relax Fixture.level8 tt (Fixture.inp0 false) 0 1
          [Fixture.zero8] Fixture.machine0
  = Ok (0, [[Some (-1); Some (-2); Some (-3); Some (-4);
             Some (-5); Some (-6); Some (-7); Some (-8)]], 1%nat).
Proof. split; vm_compute; reflexivity. Qed.

(** Dual time stepping with CFL 1 and a spectral radius of 2 raises the
    coefficient c0 by exactly 2. *)
Example dual_time_coefficient (c : vector3d) :
  spec_c0 Fixture.block8 (with_DualTimeCFL (Fixture.inp0 false) 1) c
  = spec_c0 Fixture.block8 (Fixture.inp0 false) c + 2.
Proof. reflexivity. Qed.

(** The initializer of the identity system seeds minus the residual in the
    interior and leaves the ghost cell (-1, 0, 0) zero. *)
Example identity_system_initializer :
  (λ x : gmap vector3d Z,
     (Fixture.interior_values Fixture.block8 x, x !! (-1, 0, 0),
      x !! (-2, 0, 0)))
    <$> InitializeMatrixUpdate Fixture.block8 (Fixture.inp0 true) tt
          Fixture.diag8
  = Ok ([Some (-1); Some (-2); Some (-3); Some (-4);
         Some (-5); Some (-6); Some (-7); Some (-8)], Some 0, None).
Proof. vm_compute. reflexivity. Qed.

(** * The further properties at the instances *)

(** A table whose third entry is no cell of the arrays: the sweeps of the
    block of two cells do not read it. *)
Lemma LUSGS_Forward_returns_witness :
  let table := HyperplaneReorder 2 1 1 ++ [(5, 5, 5)] in
  LUSGS_Forward (Fixture.block2 1) table tt (Fixture.inp0 true)
    Fixture.diag2 0 Fixture.zero2
  = Ok (spec_LUSGS_Forward (Fixture.block2 1) tt (Fixture.inp0 true)
          Fixture.diag2 0 (HyperplaneReorder 2 1 1) Fixture.zero2) ∧
  LUSGS_Forward (Fixture.block2 1) (HyperplaneReorder 2 1 1) tt
    (Fixture.inp0 true) Fixture.diag2 0 Fixture.zero2
  = LUSGS_Forward (Fixture.block2 1) table tt (Fixture.inp0 true)
      Fixture.diag2 0 Fixture.zero2.
Proof.
  intros table.
  destruct (LUSGS_Forward_returns (Fixture.block2 1) table tt
              (Fixture.inp0 true) Fixture.diag2 0 Fixture.zero2)
    as [Hrun Hsame].
  - vm_compute. discriminate.
  - apply in_range_cells. by_computation.
  - split; [exact Hrun|]. apply Hsame; [vm_compute; discriminate|reflexivity].
Defined.

Lemma LUSGS_Backward_returns_witness :
  let table := HyperplaneReorder 2 1 1 ++ [(5, 5, 5)] in
  LUSGS_Backward (Fixture.block2 1) table tt (Fixture.inp0 true)
    Fixture.diag2 1 Fixture.zero2
  = Ok (spec_LUSGS_Backward (Fixture.block2 1) tt (Fixture.inp0 true)
          Fixture.diag2 1 (HyperplaneReorder 2 1 1) Fixture.zero2) ∧
  LUSGS_Backward (Fixture.block2 1) (HyperplaneReorder 2 1 1) tt
    (Fixture.inp0 true) Fixture.diag2 1 Fixture.zero2
  = LUSGS_Backward (Fixture.block2 1) table tt (Fixture.inp0 true)
      Fixture.diag2 1 Fixture.zero2.
Proof.
  intros table.
  destruct (LUSGS_Backward_returns (Fixture.block2 1) table tt
              (Fixture.inp0 true) Fixture.diag2 1 Fixture.zero2)
    as [Hrun Hsame].
  - vm_compute. discriminate.
  - apply in_range_cells. by_computation.
  - split; [exact Hrun|]. apply Hsame; [vm_compute; discriminate|reflexivity].
Defined.

Lemma sweeps_keep_cells_witness :
  let x := <[(0, 0, 0) := 4]> Fixture.zero2 in
  let table := HyperplaneReorder 2 1 1 in
  (∃ x', LUSGS_Forward (Fixture.block2 1) table tt (Fixture.inp0 false)
           Fixture.diag2 0 x = Ok x' ∧ dom x' = dom x) ∧
  (∃ x' e, LUSGS_Backward (Fixture.block2 1) table tt (Fixture.inp0 false)
             Fixture.diag2 1 x = Ok (x', e) ∧ dom x' = dom x) ∧
  (∃ x' e, DPLUR (Fixture.block2 1) tt (Fixture.inp0 false)
             Fixture.diag2 x = Ok (x', e) ∧ dom x' = dom x) ∧
  (∃ inverted, InvertDiagonal (Fixture.block2 1) (Fixture.inp0 false)
                 Fixture.diag2 = Ok inverted ∧
               dom inverted = dom Fixture.diag2).
Proof.
  intros x table.
  split; [|split; [|split]].
  - assert (Hrun : ∃ x', LUSGS_Forward (Fixture.block2 1) table tt
                           (Fixture.inp0 false) Fixture.diag2 0 x = Ok x')
      by (apply succeeds_Ok; vm_compute; reflexivity).
    destruct Hrun as [x' Hrun]. exists x'. split; [exact Hrun|].
    exact (proj1 (sweeps_keep_cells (Fixture.block2 1) table tt
                    (Fixture.inp0 false) Fixture.diag2 Fixture.diag2 0 x)
             x' Hrun).
  - assert (Hrun : ∃ r, LUSGS_Backward (Fixture.block2 1) table tt
                          (Fixture.inp0 false) Fixture.diag2 1 x = Ok r)
      by (apply succeeds_Ok; vm_compute; reflexivity).
    destruct Hrun as [[x' e] Hrun]. exists x', e. split; [exact Hrun|].
    exact (proj1 (proj2 (sweeps_keep_cells (Fixture.block2 1) table tt
                    (Fixture.inp0 false) Fixture.diag2 Fixture.diag2 1 x))
             x' e Hrun).
  - assert (Hrun : ∃ r, DPLUR (Fixture.block2 1) tt (Fixture.inp0 false)
                          Fixture.diag2 x = Ok r)
      by (apply succeeds_Ok; vm_compute; reflexivity).
    destruct Hrun as [[x' e] Hrun]. exists x', e. split; [exact Hrun|].
    exact (proj1 (proj2 (proj2 (sweeps_keep_cells (Fixture.block2 1) table tt
                    (Fixture.inp0 false) Fixture.diag2 Fixture.diag2 1 x)))
             x' e Hrun).
  - assert (Hrun : ∃ r, InvertDiagonal (Fixture.block2 1)
                          (Fixture.inp0 false) Fixture.diag2 = Ok r)
      by (apply succeeds_Ok; vm_compute; reflexivity).
    destruct Hrun as [inverted Hrun]. exists inverted. split; [exact Hrun|].
    exact (proj2 (proj2 (proj2 (sweeps_keep_cells (Fixture.block2 1) table tt
                    (Fixture.inp0 false) Fixture.diag2 Fixture.diag2 1 x)))
             inverted Hrun).
Defined.

Lemma sweeps_on_empty_block_witness :
  (LUSGS_Forward Cases.emptyBlock [] tt (Fixture.inp0 true) ∅ 0
     Fixture.zero2 = Ok Fixture.zero2 ∧
   LUSGS_Backward Cases.emptyBlock [] tt (Fixture.inp0 true) ∅ 0
     Fixture.zero2 = Ok (Fixture.zero2, 0)) ∧
  (DPLUR Cases.emptyBlock tt (Fixture.inp0 true) ∅ Fixture.zero2
   = Ok (Fixture.zero2, 0) ∧
   InvertDiagonal Cases.emptyBlock (Fixture.inp0 true) ∅ = Ok ∅ ∧
   InitializeMatrixUpdate Cases.emptyBlock (Fixture.inp0 true) tt ∅
   = Ok (blkMultiArray3d_ctor 0 1 1 1 1 0 0)).
Proof.
  destruct (sweeps_on_empty_block Cases.emptyBlock [] tt (Fixture.inp0 true)
              ∅ 0 Fixture.zero2) as [Hlusgs Hrest].
  split.
  - apply Hlusgs. vm_compute. discriminate.
  - apply Hrest. left. reflexivity.
Defined.

Lemma LUSGS_Forward_reads_witness :
  let x := <[(2, 0, 0) := 7]> Fixture.zero2 in
  ∃ x' a seen,
    LUSGS_Forward (Fixture.block2 1) (HyperplaneReorder 2 1 1) tt
      (Fixture.inp0 true) Fixture.diag2 0 x = Ok x' ∧
    Fixture.diag2 !! (1, 0, 0) = Some a ∧
    (∀ d, seen !! d
          = if decide (d ∈ take 1 (visited (Fixture.block2 1)
                                     (HyperplaneReorder 2 1 1)))
            then x' !! d else x !! d) ∧
    x' !! (1, 0, 0)
    = Some (sm_ArrayMult a
              (va_add (rhs_b (Fixture.block2 1) tt (Fixture.inp0 true)
                         (d_div d_lit1 (Theta (Fixture.inp0 true))) 1 0 0)
                      (forward_off (Fixture.block2 1) tt (Fixture.inp0 true)
                         0 seen (1, 0, 0)))).
Proof.
  intros x.
  assert (Hrun : ∃ x', LUSGS_Forward (Fixture.block2 1)
                         (HyperplaneReorder 2 1 1) tt (Fixture.inp0 true)
                         Fixture.diag2 0 x = Ok x')
    by (apply succeeds_Ok; vm_compute; reflexivity).
  destruct Hrun as [x' Hrun]. exists x'.
  destruct (LUSGS_Forward_reads (Fixture.block2 1) (HyperplaneReorder 2 1 1)
              tt (Fixture.inp0 true) Fixture.diag2 0 x x' 1 (1, 0, 0))
    as (a & seen & Ha & Hseen & Hval).
  - by_computation.
  - exact Hrun.
  - reflexivity.
  - exists a, seen. split; [exact Hrun|]. split; [exact Ha|].
    split; [exact Hseen|exact Hval].
Defined.

Lemma LUSGS_Backward_reads_witness :
  let x := <[(0, 0, 0) := 4]> Fixture.zero2 in
  ∃ x' e a xold seen,
    LUSGS_Backward (Fixture.block2 1) (HyperplaneReorder 2 1 1) tt
      (Fixture.inp0 true) Fixture.diag2 1 x = Ok (x', e) ∧
    Fixture.diag2 !! (0, 0, 0) = Some a ∧ x !! (0, 0, 0) = Some xold ∧
    (∀ d, seen !! d
          = if decide (d ∈ drop 1 (visited (Fixture.block2 1)
                                     (HyperplaneReorder 2 1 1)))
            then x' !! d else x !! d) ∧
    x' !! (0, 0, 0)
    = Some (spec_backward_value (Fixture.block2 1) tt (Fixture.inp0 true)
              a 1 seen (0, 0, 0) xold).
Proof.
  intros x.
  assert (Hrun : ∃ r, LUSGS_Backward (Fixture.block2 1)
                        (HyperplaneReorder 2 1 1) tt (Fixture.inp0 true)
                        Fixture.diag2 1 x = Ok r)
    by (apply succeeds_Ok; vm_compute; reflexivity).
  destruct Hrun as [[x' e] Hrun]. exists x', e.
  destruct (LUSGS_Backward_reads (Fixture.block2 1) (HyperplaneReorder 2 1 1)
              tt (Fixture.inp0 true) Fixture.diag2 1 x x' e 0 (0, 0, 0))
    as (a & xold & seen & Ha & Hxold & Hseen & Hval).
  - by_computation.
  - exact Hrun.
  - reflexivity.
  - exists a, xold, seen. split; [exact Hrun|]. split; [exact Ha|].
    split; [exact Hxold|]. split; [exact Hseen|exact Hval].
Defined.

Lemma proper_extents_block2 : proper_extents (Fixture.block2 1).
Proof. unfold proper_extents. simpl. lia. Qed.

Lemma shaped_level2 : shaped Fixture.level2 Cases.du2.
Proof. repeat constructor; apply covers_cells; by_computation. Qed.

Lemma LUSGS_Forward_along_hyperplanes_witness :
  let x := <[(2, 0, 0) := 7]> Fixture.zero2 in
  ∃ x' a seen,
    LUSGS_Forward (Fixture.block2 1) (HyperplaneReorder 2 1 1) tt
      (Fixture.inp0 true) Fixture.diag2 0 x = Ok x' ∧
    Fixture.diag2 !! (1, 0, 0) = Some a ∧
    seen !! (0, 0, 0) = x' !! (0, 0, 0) ∧
    seen !! (2, 0, 0) = Some 7 ∧
    x' !! (1, 0, 0)
    = Some (sm_ArrayMult a
              (va_add (rhs_b (Fixture.block2 1) tt (Fixture.inp0 true)
                         (d_div d_lit1 (Theta (Fixture.inp0 true))) 1 0 0)
                      (forward_off (Fixture.block2 1) tt (Fixture.inp0 true)
                         0 seen (1, 0, 0)))).
Proof.
  intros x.
  assert (Hrun : ∃ x', LUSGS_Forward (Fixture.block2 1)
                         (HyperplaneReorder 2 1 1) tt (Fixture.inp0 true)
                         Fixture.diag2 0 x = Ok x')
    by (apply succeeds_Ok; vm_compute; reflexivity).
  destruct Hrun as [x' Hrun]. exists x'.
  destruct (LUSGS_Forward_along_hyperplanes (Fixture.block2 1) tt
              (Fixture.inp0 true) Fixture.diag2 0 x x' (1, 0, 0))
    as (a & seen & Ha & Hlower & Hupper & _ & Hval).
  - exact proper_extents_block2.
  - exact Hrun.
  - by_computation.
  - exists a, seen. split; [exact Hrun|]. split; [exact Ha|]. split; [|split].
    + apply Hlower; [left|by_computation].
    + etrans; [apply Hupper; left|reflexivity].
    + exact Hval.
Defined.

Lemma LUSGS_Backward_along_hyperplanes_witness :
  let x := <[(1, 0, 0) := 4]> Fixture.zero2 in
  ∃ x' e a xold seen,
    LUSGS_Backward (Fixture.block2 1) (HyperplaneReorder 2 1 1) tt
      (Fixture.inp0 true) Fixture.diag2 1 x = Ok (x', e) ∧
    Fixture.diag2 !! (0, 0, 0) = Some a ∧ x !! (0, 0, 0) = Some xold ∧
    seen !! (1, 0, 0) = x' !! (1, 0, 0) ∧
    seen !! (-1, 0, 0) = Some 0 ∧
    x' !! (0, 0, 0)
    = Some (spec_backward_value (Fixture.block2 1) tt (Fixture.inp0 true)
              a 1 seen (0, 0, 0) xold).
Proof.
  intros x.
  assert (Hrun : ∃ r, LUSGS_Backward (Fixture.block2 1)
                        (HyperplaneReorder 2 1 1) tt (Fixture.inp0 true)
                        Fixture.diag2 1 x = Ok r)
    by (apply succeeds_Ok; vm_compute; reflexivity).
  destruct Hrun as [[x' e] Hrun]. exists x', e.
  destruct (LUSGS_Backward_along_hyperplanes (Fixture.block2 1) tt
              (Fixture.inp0 true) Fixture.diag2 1 x x' e (0, 0, 0))
    as (a & xold & seen & Ha & Hxold & Hupper & Hlower & _ & _ & Hval).
  - exact proper_extents_block2.
  - exact Hrun.
  - by_computation.
  - exists a, xold, seen. split; [exact Hrun|]. split; [exact Ha|].
    split; [exact Hxold|]. split; [|split].
    + apply Hupper; [left|by_computation].
    + etrans; [apply Hlower; left|reflexivity].
    + exact Hval.
Defined.

Lemma Relax_keeps_shape_witness :
  ∃ r, lusgs_Relax Cases.solver2 Fixture.level2 tt (Fixture.inp0 false) 0 1
         Cases.du2 Fixture.machine0 = Ok r ∧
       shaped Fixture.level2 r.1.2 ∧
       length r.1.2 = length (blocks Fixture.level2).
Proof.
  assert (Hrun : ∃ r, lusgs_Relax Cases.solver2 Fixture.level2 tt
                        (Fixture.inp0 false) 0 1 Cases.du2 Fixture.machine0
                      = Ok r)
    by (apply succeeds_Ok; vm_compute; reflexivity).
  destruct Hrun as [r Hrun]. exists r. split; [exact Hrun|].
  apply (Relax_keeps_shape Cases.solver2 Fixture.level2 tt
           (Fixture.inp0 false) 0 1 Cases.du2 Fixture.machine0 r).
  - exact shaped_level2.
  - intros du conns rank numG w Hdu. exact Hdu.
  - left. exact Hrun.
Defined.

Lemma lusgs_Relax_after_constructor_witness :
  ∃ e du' m',
    lusgs_Relax Cases.solver2 Fixture.level2 tt (Fixture.inp0 true) 0 3
      Cases.du2 Fixture.machine0 = Ok (e, du', m') ∧
    shaped Fixture.level2 du'.
Proof.
  apply (lusgs_Relax_after_constructor "lusgs" Fixture.level2 Cases.solver2
           tt (Fixture.inp0 true) 0 3 Cases.du2 Fixture.machine0).
  - vm_compute. reflexivity.
  - discriminate.
  - repeat constructor; simpl; lia.
  - exact shaped_level2.
  - repeat constructor; apply covers_cells; by_computation.
  - intros du conns rank numG w Hdu. exact Hdu.
Defined.

Lemma dplur_Relax_one_sweep_witness :
  ∃ e du' m',
    dplur_Relax Fixture.level2 tt (Fixture.inp0 false) 0 1 Cases.du2
      Fixture.machine0 = Ok (e, du', m') ∧
    ∃ blk0,
      blocks Fixture.level2 !! 0%nat = Some blk0 ∧
      length du' = 2%nat ∧
      ∀ (bb : nat) blk,
        blocks Fixture.level2 !! bb = Some blk →
        ∃ aInv x x' err,
          diagonal Fixture.level2 !! bb = Some aInv ∧
          Cases.du2 !! bb = Some x ∧
          DPLUR blk tt (Fixture.inp0 false) aInv x = Ok (x', err) ∧
          du' !! bb = Some x'.
Proof.
  assert (Hrun : ∃ r, dplur_Relax Fixture.level2 tt (Fixture.inp0 false) 0 1
                        Cases.du2 Fixture.machine0 = Ok r)
    by (apply succeeds_Ok; vm_compute; reflexivity).
  destruct Hrun as [[[e du'] m'] Hrun]. exists e, du', m'.
  split; [exact Hrun|].
  destruct (dplur_Relax_one_sweep Fixture.level2 tt (Fixture.inp0 false) 0
              Cases.du2 Fixture.machine0 e du' m' Hrun)
    as (blk0 & Hblk0 & Hlen & Hblocks).
  exists blk0. split; [exact Hblk0|]. split; [exact Hlen|exact Hblocks].
Defined.

Lemma dplur_Relax_instalments_witness :
  dplur_Relax Fixture.level2 tt (Fixture.inp0 false) 0 (1 + 2) Cases.du2
    Fixture.machine0
  = '(_, du', m') ← dplur_Relax Fixture.level2 tt (Fixture.inp0 false) 0 1
                      Cases.du2 Fixture.machine0;
    dplur_Relax Fixture.level2 tt (Fixture.inp0 false) 0 2 du' m'.
Proof.
  apply (dplur_Relax_instalments Fixture.level2 tt (Fixture.inp0 false) 0
           1 2 Cases.du2 Fixture.machine0).
  - intros du conns rank numG w. reflexivity.
  - lia.
  - lia.
Defined.

Lemma lusgs_Relax_one_sweep_witness :
  ∃ e du' m' (errs : list Z),
    lusgs_Relax Cases.solver2 Fixture.level2 tt (Fixture.inp0 true) 0 1
      Cases.du2 Fixture.machine0 = Ok (e, du', m') ∧
    length errs = 2%nat ∧ e = fold_left Z.add errs 0 ∧
    theWorld m' = 2%nat.
Proof.
  assert (Hrun : ∃ r, lusgs_Relax Cases.solver2 Fixture.level2 tt
                        (Fixture.inp0 true) 0 1 Cases.du2 Fixture.machine0
                      = Ok r)
    by (apply succeeds_Ok; vm_compute; reflexivity).
  destruct Hrun as [[[e du'] m'] Hrun].
  destruct (lusgs_Relax_one_sweep Cases.solver2 Fixture.level2 tt
              (Fixture.inp0 true) 0 Cases.du2 Fixture.machine0 e du' m' Hrun)
    as (blk0 & mid & errs & _ & _ & _ & Hlen & He & Hworld).
  exists e, du', m', errs. split; [exact Hrun|]. split; [exact Hlen|].
  split; [exact He|exact Hworld].
Defined.

(** * The arithmetic of [double] *)

Section AtBinary64.

#[local] Existing Instance Binary64.arith.

(** The statement of C7 fails for the L2 error: the block of three cells
    whose sweep changes the update by 1e8, 1 and 1 has the squared changes
    1e16, 1 and 1.  In the order of the loop nest the error is 1e16, each
    addition of 1 being rounded away; with cell 0 visited last it is
    1e16 + 2.  The update field is the same. *)
Lemma DPLUR_error_depends_on_order :
  let cells := [(1, 0, 0); (2, 0, 0); (0, 0, 0)] in
  let sweep :=
    DPLUR Binary64.block3 tt (Binary64.inp Binary64.zero) Binary64.diag3
      Binary64.zero3 in
  let permuted :=
    DPLUR_in_order cells Binary64.block3 tt (Binary64.inp Binary64.zero)
      Binary64.diag3 Binary64.zero3 in
  cells ≡ₚ interiorCells Binary64.block3 ∧
  fst <$> permuted = fst <$> sweep ∧
  snd <$> sweep = Ok (Binary64.of_Z 10000000000000000) ∧
  snd <$> permuted = Ok (Binary64.of_Z 10000000000000002) ∧
  permuted ≠ sweep.
Proof.
  intros cells sweep permuted.
  assert (Hsweep : snd <$> sweep = Ok (Binary64.of_Z 10000000000000000))
    by (vm_compute; reflexivity).
  assert (Hpermuted :
    snd <$> permuted = Ok (Binary64.of_Z 10000000000000002))
    by (vm_compute; reflexivity).
  split; [|split; [|split; [|split]]].
  - symmetry. exact (Permutation_cons_append [(1, 0, 0); (2, 0, 0)] (0, 0, 0)).
  - vm_compute. reflexivity.
  - exact Hsweep.
  - exact Hpermuted.
  - intros Hsame. rewrite Hsame, Hsweep in Hpermuted. vm_compute in Hpermuted.
    discriminate Hpermuted.
Qed.



End AtBinary64.
